(** * Elite 100 visualizer: the filtering, layout and summary pipeline of app.py

    A shallow embedding of [src/app.py] and the properties its specification
    states about it.

    Modelling conventions.
    - A Python [str] is a list of characters; the characters are the code
      points below U+0100, for which [isspace], [lower] and the regular
      expression class [\d] are written out in full.
    - A data frame is the list of its rows in index order; boolean-mask
      selection is [filter], which keeps that order.
    - A Python [float] is modelled by a rational number: the decimal that a
      time text reads stands for the double nearest to it, and arithmetic is
      exact.  The program and the model then take the same decisions and print
      the same digits as long as no decision of the program falls within
      rounding distance of its threshold; for the lap times of the data
      (whole milliseconds below 100 minutes) that is the case, as the
      doubles are then within 1e-12 of the decimals they stand for while
      the thresholds (the half-second grid, the rounding of the third
      decimal) are 0.0005 or more away or met exactly.  A theorem that
      depends on this carries the range of its times as a hypothesis.
      The float range is kept where it changes what a call does: converting
      an [int] beyond it is an [OverflowError], and a text or a product
      beyond it gives an infinity, the outcome [ReturnsInf]; both at the
      thresholds of binary64.
    - [int(text)] is that of CPython 3.11 and later under its default limit
      of 4300 digits, beyond which it raises [ValueError].
    - [None] and [NaN] are the [None] of an option type. *)

From Stdlib Require Import Ascii String DecimalString.
From Stdlib Require Import List Bool Arith ZArith NArith Lia.
From Stdlib Require Import QArith Qround Qreduction Qminmax Lqa.
From Stdlib Require Import Permutation Sorted.
Import ListNotations.

Close Scope Q_scope.
Local Open Scope Z_scope.

(* ====================================================================== *)
(** * Text: Python strings and the string methods the program calls       *)
(* ====================================================================== *)

Module Text.

Definition str := list ascii.

(** A string literal of the source. *)
Definition lit (s : string) : str := list_ascii_of_string s.
Arguments lit s%_string.

Definition code (c : ascii) : N := N_of_ascii c.

Definition str_eq_dec : forall a b : str, {a = b} + {a <> b} :=
  list_eq_dec ascii_dec.

(** [a == b] on strings. *)
Definition str_eqb (a b : str) : bool :=
  if str_eq_dec a b then true else false.

Definition is_nil {A} (l : list A) : bool :=
  match l with [] => true | _ => false end.

(** [c.isspace()]: U+0009..U+000D, U+001C..U+0020, U+0085, U+00A0. *)
Definition isspace (c : ascii) : bool :=
  let n := code c in
  (((9 <=? n) && (n <=? 13)) || ((28 <=? n) && (n <=? 32))
   || (n =? 133) || (n =? 160))%N.

(** [c.isdigit()] as the class [\d] sees it: the ten ASCII digits. *)
Definition isdigit (c : ascii) : bool :=
  let n := code c in ((48 <=? n) && (n <=? 57))%N.

(** The characters of the class [\d]. *)
Definition ten_digits : str := lit "0123456789".

(** [c.lower()]: A..Z and the Latin-1 capitals U+00C0..U+00DE (without the
    multiplication sign U+00D7) move up by 32. *)
Definition lower_char (c : ascii) : ascii :=
  let n := code c in
  if (((65 <=? n) && (n <=? 90))
      || ((192 <=? n) && (n <=? 222) && negb (n =? 215)))%N
  then ascii_of_N (n + 32) else c.

(** [s.lower()] *)
Definition lower (s : str) : str := map lower_char s.

Fixpoint lstrip (s : str) : str :=
  match s with
  | c :: t => if isspace c then lstrip t else s
  | [] => []
  end.

Definition rstrip (s : str) : str := rev (lstrip (rev s)).

(** [s.strip()] *)
Definition strip (s : str) : str := rstrip (lstrip s).

(** Cut [s] at every character satisfying [p]; [n] cuts give [n+1] pieces,
    empty ones included. *)
Fixpoint split_by (p : ascii -> bool) (s : str) : list str :=
  match s with
  | [] => [[]]
  | c :: t =>
      if p c then [] :: split_by p t
      else match split_by p t with
           | w :: ws => (c :: w) :: ws
           | [] => [[c]]
           end
  end.

(** [s.split(',')] and the like. *)
Definition split_on (sep : ascii) (s : str) : list str :=
  split_by (Ascii.eqb sep) s.

(** [s.split()]: the maximal runs of non-whitespace characters. *)
Definition split_ws (s : str) : list str :=
  filter (fun w => negb (is_nil w)) (split_by isspace s).

Fixpoint startswith (p s : str) : bool :=
  match p, s with
  | [], _ => true
  | a :: p', b :: s' => Ascii.eqb a b && startswith p' s'
  | _ :: _, [] => false
  end.

(** [sub in s] for two strings: [sub] occurs in [s] as a substring. *)
Fixpoint contains (sub s : str) : bool :=
  startswith sub s ||
  match s with
  | [] => false
  | _ :: t => contains sub t
  end.

(** [x in l] for a list of strings. *)
Definition mem (x : str) (l : list str) : bool := existsb (str_eqb x) l.

(** Lexicographic comparison by code point, the order of [sorted] and of the
    group keys of [groupby]. *)
Fixpoint str_compare (a b : str) : comparison :=
  match a, b with
  | [], [] => Eq
  | [], _ :: _ => Lt
  | _ :: _, [] => Gt
  | x :: a', y :: b' =>
      match N.compare (code x) (code y) with
      | Eq => str_compare a' b'
      | o => o
      end
  end.

Definition str_lt (a b : str) : Prop := str_compare a b = Lt.

End Text.

Import Text.

(* ====================================================================== *)
(** * Time codec: [parse_time_to_seconds] and [seconds_to_duration]       *)
(* ====================================================================== *)

Module TimeCodec.

(** The exceptions the codec can meet. *)
Inductive exn := ValueError | OverflowError.

(** A call returns a value of the model, raises, or returns an infinity,
    a float for which the model has no number. *)
Inductive outcome (A : Type) :=
| Returns (a : A)
| Raises (e : exn)
| ReturnsInf.
Arguments Returns {A} a.
Arguments Raises {A} e.
Arguments ReturnsInf {A}.

Definition bind {A B} (m : outcome A) (k : A -> outcome B) : outcome B :=
  match m with
  | Returns a => k a
  | Raises e => Raises e
  | ReturnsInf => ReturnsInf
  end.

(** A float value, kept in lowest terms so that equal floats are equal
    terms. *)
Definition float := Q.

Definition fadd (a b : float) : float := Qred (a + b)%Q.
Definition fsub (a b : float) : float := Qred (a - b)%Q.
Definition fmul (a b : float) : float := Qred (a * b)%Q.

(** The value of one decimal digit. *)
Definition digit_val (c : ascii) : Z := Z.of_N (code c) - 48.

(** The number that a string of decimal digits reads. *)
Definition int_of_digits (ds : str) : Z :=
  fold_left (fun acc c => 10 * acc + digit_val c) ds 0.

(** The longest prefix of [s] whose characters satisfy [p], and the rest. *)
Fixpoint span (p : ascii -> bool) (s : str) : str * str :=
  match s with
  | c :: t =>
      if p c then let (a, b) := span p t in (c :: a, b) else ([], s)
  | [] => ([], [])
  end.

(** [sys.get_int_max_str_digits()], the default of CPython 3.11 and later. *)
Definition int_max_str_digits : nat := 4300.

(** [int(ds)] for a string of decimal digits as [re] hands it over: the
    digits are counted, leading zeros included, before they are read. *)
Definition py_int (ds : str) : outcome Z :=
  if (length ds <=? int_max_str_digits)%nat then Returns (int_of_digits ds)
  else Raises ValueError.

(** The least integer that no float can hold: from [2^1024 - 2^970] on,
    rounding to nearest leaves the binary64 range. *)
Definition float_overflow_bound : Z := 2 ^ 1024 - 2 ^ 970.

(** The double that the integer [n >= 0] converts to: [n] itself up to
    2^53, beyond that [n] rounded to its 53 leading bits, ties to even. *)
Definition nearest_double (n : Z) : Z :=
  let e := Z.log2 n - 52 in
  if e <=? 0 then n
  else
    let q := n / 2 ^ e in
    let r := n mod 2 ^ e in
    let half := 2 ^ (e - 1) in
    (if r <? half then q
     else if half <? r then q + 1
     else if Z.even q then q else q + 1) * 2 ^ e.

(** The conversion of the [int] operand of [minutes * 60.0]. *)
Definition float_of_int (n : Z) : outcome float :=
  if Z.abs n <? float_overflow_bound then Returns (inject_Z n)
  else Raises OverflowError.

(** The number [ip.fr] read in base ten. *)
Definition decimal (ip fr : str) : float :=
  Qred (Qmake (int_of_digits (ip ++ fr))
              (Z.to_pos (10 ^ Z.of_nat (length fr)))).

(** A number read from a text: the decimal stands for the double nearest to
    it, and from [2^1024 - 2^970] on that is an infinity. *)
Definition float_of_decimal (q : Q) : outcome float :=
  if Qle_bool (inject_Z float_overflow_bound) q then ReturnsInf
  else Returns q.

(** [float(t)] on the texts the two regular expressions hand to it: digits,
    then optionally a point and further digits.  Any other text is a
    [ValueError]. *)
Definition py_float (t : str) : outcome float :=
  let (ip, rest) := span isdigit t in
  match ip, rest with
  | _ :: _, [] => float_of_decimal (decimal ip [])
  | _ :: _, c :: fr =>
      if Ascii.eqb c "." && forallb isdigit fr
      then float_of_decimal (decimal ip fr)
      else Raises ValueError
  | [], _ => Raises ValueError
  end.

(** [\d{1,2}(?:\.\d+)?$] at the start of [s]. *)
Definition match_seconds (s : str) : bool :=
  let (ip, rest) := span isdigit s in
  (1 <=? length ip)%nat && (length ip <=? 2)%nat &&
  match rest with
  | [] => true
  | c :: fr => Ascii.eqb c "." && negb (is_nil fr) && forallb isdigit fr
  end.

(** [re.match(r'^(?:(\d+):)?(\d{1,2}(?:\.\d+)?)$', s)]: the two groups of a
    match.  [s] is stripped, so [$] has only the end of the string to match.
    The optional minutes group is tried first, then skipped. *)
Definition match_strict (s : str) : option (option str * str) :=
  let (ds, rest) := span isdigit s in
  let with_minutes :=
    match ds, rest with
    | _ :: _, c :: sec =>
        if Ascii.eqb c ":" && match_seconds sec then Some (Some ds, sec)
        else None
    | _, _ => None
    end in
  match with_minutes with
  | Some groups => Some groups
  | None => if match_seconds s then Some (None, s) else None
  end.

(** Where the scan of [\d+\.?\d*] stands: between matches, in the integer
    digits of a match, or past its point.  The match is kept reversed. *)
Inductive scan :=
| Outside
| InInt (tok : str)
| InFrac (tok : str).

(** A text of the form digits, or digits, a point and digits; the first
    digits are not empty. *)
Definition numeral (t : str) : Prop :=
  exists ip fr : str,
    ip <> [] /\ forallb isdigit ip = true /\ forallb isdigit fr = true /\
    (t = ip \/ t = ip ++ "."%char :: fr).

(** The match under way is the beginning of a numeral. *)
Definition scan_ok (st : scan) : Prop :=
  match st with
  | Outside => True
  | InInt tok => rev tok <> [] /\ forallb isdigit (rev tok) = true
  | InFrac tok =>
      exists ip fr : str,
        rev tok = ip ++ "."%char :: fr /\ ip <> [] /\
        forallb isdigit ip = true /\ forallb isdigit fr = true
  end.

Fixpoint findall_from (st : scan) (s : str) : list str :=
  match s with
  | [] =>
      match st with
      | Outside => []
      | InInt tok | InFrac tok => [rev tok]
      end
  | c :: rest =>
      match st with
      | Outside =>
          if isdigit c then findall_from (InInt [c]) rest
          else findall_from Outside rest
      | InInt tok =>
          if isdigit c then findall_from (InInt (c :: tok)) rest
          else if Ascii.eqb c "." then findall_from (InFrac (c :: tok)) rest
          else rev tok :: findall_from Outside rest
      | InFrac tok =>
          if isdigit c then findall_from (InFrac (c :: tok)) rest
          else rev tok :: findall_from Outside rest
      end
  end.

(** [re.findall(r'\d+\.?\d*', s)] *)
Definition findall_numbers (s : str) : list str := findall_from Outside s.

(** [parse_time_to_seconds(t)]; [None] is a missing cell on the way in and
    [NaN] on the way out.  The product [minutes * 60.0] is an infinity when
    the double of the minutes, times 60, reaches [2^1024 - 2^970]; adding the
    seconds, which are below 100, never makes one. *)
Definition parse_time_to_seconds (t : option str) : outcome (option float) :=
  match t with
  | None => Returns None
  | Some t =>
      let s := strip t in
      match match_strict s with
      | Some (min_part, sec_part) =>
          bind (match min_part with
                | Some ds => py_int ds
                | None => Returns 0
                end) (fun minutes =>
          match py_float sec_part with
          | Raises ValueError => Returns None
          | Raises e => Raises e
          | ReturnsInf => bind (float_of_int minutes) (fun _ => ReturnsInf)
          | Returns seconds =>
              bind (float_of_int minutes) (fun m =>
              if float_overflow_bound <=? nearest_double minutes * 60
              then ReturnsInf
              else Returns (Some (fadd (fmul m (60 # 1)%Q) seconds)))
          end)
      | None =>
          match findall_numbers s with
          | [num] => bind (py_float num) (fun v => Returns (Some v))
          | _ => Returns None
          end
      end
  end.

(** [str(n)] for a natural number. *)
Definition str_of_N (n : N) : str :=
  list_ascii_of_string (NilZero.string_of_uint (N.to_uint n)).

(** Fill with zeros on the left up to [w] characters. *)
Definition zero_pad (w : nat) (s : str) : str :=
  repeat "0"%char (w - length s)%nat ++ s.

(** [f'{z:02d}']: the sign counts in the width. *)
Definition format_02d (z : Z) : str :=
  if z <? 0 then "-"%char :: zero_pad 1 (str_of_N (Z.to_N (- z)))
  else zero_pad 2 (str_of_N (Z.to_N z)).

(** The [w] low-order decimal digits of [n]. *)
Fixpoint fixed_digits (w : nat) (n : Z) : str :=
  match w with
  | O => []
  | S w' => fixed_digits w' (n / 10) ++ [ascii_of_N (48 + Z.to_N (n mod 10))]
  end.

(** Rounding to the nearest integer, ties to even, as the [f] presentation
    type rounds the exact value of a double.  A decimal that lies half-way
    between two printed values stands for a double that need not: there the
    program may print either neighbour, and the theorems on printed times
    keep to values that are not half-way. *)
Definition round_half_even (q : Q) : Z :=
  let f := Qfloor q in
  match Qcompare (q - inject_Z f)%Q (1 # 2)%Q with
  | Lt => f
  | Gt => f + 1
  | Eq => if Z.even f then f else f + 1
  end.

(** [f'{x:0W.Pf}'] for [0 <= x], the only case the program formats. *)
Definition format_fixed (w p : nat) (x : float) : str :=
  let scale := 10 ^ Z.of_nat p in
  let k := round_half_even (x * inject_Z scale)%Q in
  zero_pad w (str_of_N (Z.to_N (k / scale)) ++ "."%char :: fixed_digits p (k mod scale)).

(** [sec // 60] as an integer and [sec % 60]. *)
Definition floordiv (a b : float) : Z := Qfloor (a / b)%Q.
Definition fmod (a b : float) : float := fsub a (fmul (inject_Z (floordiv a b)) b).

(** [seconds_to_duration(sec, decimals)] *)
Definition seconds_to_duration (sec : option float) (decimals : nat) : str :=
  match sec with
  | None => []
  | Some sec =>
      let minutes := floordiv sec (60 # 1)%Q in
      let remaining_sec := fmod sec (60 # 1)%Q in
      if (decimals =? 1)%nat
      then format_02d minutes ++ ":"%char :: format_fixed 4 1 remaining_sec
      else format_02d minutes ++ ":"%char :: format_fixed 6 3 remaining_sec
  end.

End TimeCodec.

Import TimeCodec.


(* ====================================================================== *)
(** * The plotted rows and the dropdown values                            *)
(* ====================================================================== *)

Module Frame.

(** A row of [df_plot]: the columns the callbacks read.  [dropna] has removed
    the rows without a brand or without a parsed time, so [Time_sec] is a
    number. *)
Record row := {
  Name : str;
  Brand : str;
  Model : str;
  ChassisCode : str;
  EngineType : str;
  Drivetrain : str;
  Time_sec : float
}.

(** The [value] of a dropdown as Dash hands it to a callback: [None], one
    string, or a list of strings. *)
Inductive value :=
| NoValue
| One (s : str)
| Many (l : list str).

Definition ALL : str := lit "ALL".

(** Equality of two lists of strings, [l == l']. *)
Definition list_eqb (l l' : list str) : bool :=
  if list_eq_dec str_eq_dec l l' then true else false.

End Frame.

Import Frame.

(* ====================================================================== *)
(** * The two callbacks that keep "ALL" apart from concrete values        *)
(* ====================================================================== *)

Module Dropdown.

(** [update_brand_dropdown(selected_brands)] *)
Definition update_brand_dropdown (selected_brands : value) : value :=
  match selected_brands with
  | NoValue => One ALL
  | Many l =>
      if (1 <? length l)%nat && mem ALL l
      then Many (filter (fun b => negb (str_eqb b ALL)) l)
      else if list_eqb l [ALL] then One ALL
      else if (length l =? 0)%nat then One ALL
      else selected_brands
  | One _ => selected_brands
  end.

(** [update_drivetrain_dropdown(selected_drivetrain)] *)
Definition update_drivetrain_dropdown (selected_drivetrain : value) : value :=
  match selected_drivetrain with
  | NoValue => One ALL
  | Many l =>
      if (1 <? length l)%nat && mem ALL l
      then Many (filter (fun d => negb (str_eqb d ALL)) l)
      else if list_eqb l [ALL] then One ALL
      else if (length l =? 0)%nat then One ALL
      else selected_drivetrain
  | One _ => selected_drivetrain
  end.

(** The values a dropdown state holds as selected. *)
Definition active (v : value) : list str :=
  match v with
  | NoValue => []
  | One s => [s]
  | Many l => l
  end.

(** A state that shows "ALL" together with a concrete value. *)
Definition mixed (v : value) : Prop :=
  In ALL (active v) /\ exists x, In x (active v) /\ x <> ALL.

(** The specification's reading of a click on "ALL" while concrete values are
    selected: Dash appends the new choice to the list, and the reducer [f] is
    to answer with "ALL" alone. *)
Definition selecting_ALL_drops_concrete (f : value -> value) : Prop :=
  forall l, l <> [] -> ~ In ALL l -> active (f (Many (l ++ [ALL]))) = [ALL].

End Dropdown.

Import Dropdown.

(* ====================================================================== *)
(** * Filter engine: the first part of [update_visualization]             *)
(* ====================================================================== *)

Module FilterEngine.

Definition data_frame := list row.

(** Truth value of a dropdown value: [None], [''] and [[]] are false. *)
Definition truthy (v : value) : bool :=
  match v with
  | NoValue => false
  | One s => negb (is_nil s)
  | Many l => negb (is_nil l)
  end.

(** ['ALL' in v]: substring test on a string, membership on a list. *)
Definition ALL_in (v : value) : bool :=
  match v with
  | NoValue => false
  | One s => contains ALL s
  | Many l => mem ALL l
  end.

(** [v == 'ALL'] *)
Definition is_ALL (v : value) : bool :=
  match v with
  | One s => str_eqb s ALL
  | _ => false
  end.

(** The list handed to [isin]: a single string is wrapped first. *)
Definition as_list (v : value) : list str :=
  match v with
  | One s => [s]
  | Many l => l
  | NoValue => []
  end.

(** One multi-select criterion on the column [col]. *)
Definition select_isin (col : row -> str) (selected : value)
    (filtered_df : data_frame) : data_frame :=
  if truthy selected && negb (ALL_in selected || is_ALL selected)
  then filter (fun r => mem (col r) (as_list selected)) filtered_df
  else filtered_df.

(** [selected_engine != 'ALL'] and the comparison with the column; a
    missing value compares unequal to every engine type. *)
Definition select_engine (selected_engine : option str)
    (filtered_df : data_frame) : data_frame :=
  match selected_engine with
  | Some e =>
      if negb (str_eqb e ALL)
      then filter (fun r => str_eqb (EngineType r) e) filtered_df
      else filtered_df
  | None => filter (fun _ => false) filtered_df
  end.

(** [[term.strip().lower() for term in model_chassis_search.split(',')]] *)
Definition search_terms (model_chassis_search : str) : list str :=
  map (fun term => lower (strip term)) (split_on "," model_chassis_search).

(** The loop of [matches_any_term] over the remaining terms. *)
Fixpoint matches_loop (model_lower chassis_lower : str) (model_words : list str)
    (terms : list str) : bool :=
  match terms with
  | [] => false
  | term :: rest =>
      let term_words := split_ws term in
      if (1 <? length term_words)%nat then
        if str_eqb term model_lower then true
        else matches_loop model_lower chassis_lower model_words rest
      else
        if mem term model_words || str_eqb term chassis_lower then true
        else matches_loop model_lower chassis_lower model_words rest
  end.

(** [matches_any_term(model, chassis)] for the given search terms. *)
Definition matches_any_term (search_terms : list str) (model chassis : str)
    : bool :=
  let model_lower := lower model in
  let chassis_lower := lower chassis in
  let model_words := split_ws model_lower in
  matches_loop model_lower chassis_lower model_words search_terms.

(** The model and chassis search, under its guard
    [model_chassis_search and model_chassis_search.strip()]. *)
Definition select_text (model_chassis_search : option str)
    (filtered_df : data_frame) : data_frame :=
  match model_chassis_search with
  | Some t =>
      if negb (is_nil t) && negb (is_nil (strip t))
      then filter (fun r => matches_any_term (search_terms t)
                              (Model r) (ChassisCode r)) filtered_df
      else filtered_df
  | None => filtered_df
  end.

(** A search text that is missing, empty or made of whitespace only. *)
Definition blank (model_chassis_search : option str) : Prop :=
  match model_chassis_search with
  | None => True
  | Some t => strip t = []
  end.

(** The filtered frame of [update_visualization]. *)
Definition apply_filters (df_plot : data_frame)
    (selected_brands selected_drivetrain : value)
    (selected_engine model_chassis_search : option str) : data_frame :=
  select_text model_chassis_search
    (select_engine selected_engine
       (select_isin Drivetrain selected_drivetrain
          (select_isin Brand selected_brands df_plot))).

(** The rule of the specification for one term: more than one word, the full
    model name; a single word, a word of the model name or the chassis
    code. *)
Definition spec_term_matches (term : str) (r : row) : Prop :=
  let words := length (split_ws term) in
  ((1 < words)%nat /\ term = lower (Model r)) \/
  (words = 1%nat /\
   (In term (split_ws (lower (Model r))) \/ term = lower (ChassisCode r))).

(** The rule the code applies: the second case takes every term that has not
    more than one word, the empty term included. *)
Definition term_matches (term : str) (r : row) : Prop :=
  let words := length (split_ws term) in
  ((1 < words)%nat /\ term = lower (Model r)) \/
  ((words <= 1)%nat /\
   (In term (split_ws (lower (Model r))) \/ term = lower (ChassisCode r))).

End FilterEngine.

Import FilterEngine.

(* ====================================================================== *)
(** * Layout: brand order, slots and chart width                          *)
(* ====================================================================== *)

Module Layout.

(** [a < b] on floats. *)
Definition flt (a b : float) : bool := negb (Qle_bool b a).

(** The running minimum and maximum of a series. *)
Definition fmin (a b : float) : float := if flt b a then b else a.
Definition fmax (a b : float) : float := if flt a b then b else a.

(** [series.min()] and [series.max()]; an empty series has neither. *)
Definition series_min (series : list float) : option float :=
  match series with
  | [] => None
  | t :: ts => Some (fold_left fmin ts t)
  end.

Definition series_max (series : list float) : option float :=
  match series with
  | [] => None
  | t :: ts => Some (fold_left fmax ts t)
  end.

(** One more row for [groupby('Brand')['Time_sec'].min()]: the groups are
    kept in ascending key order, as [groupby] returns them. *)
Fixpoint insert_group (brand : str) (t : float) (groups : list (str * float))
    : list (str * float) :=
  match groups with
  | [] => [(brand, t)]
  | (b, m) :: rest =>
      match str_compare brand b with
      | Lt => (brand, t) :: groups
      | Eq => (b, fmin m t) :: rest
      | Gt => (b, m) :: insert_group brand t rest
      end
  end.

(** [filtered_df.groupby('Brand')['Time_sec'].min()] *)
Definition groupby_min (filtered_df : data_frame) : list (str * float) :=
  fold_left (fun g r => insert_group (Brand r) (Time_sec r) g) filtered_df [].

Fixpoint insert_by_value (x : str * float) (l : list (str * float))
    : list (str * float) :=
  match l with
  | [] => [x]
  | y :: rest =>
      if Qle_bool (snd x) (snd y) then x :: l
      else y :: insert_by_value x rest
  end.

(** [series.sort_values()]: ascending by value.  The default algorithm of
    [sort_values] is not a stable one, so the order it leaves among entries
    with equal values is not fixed by the program.  This routine is one that
    meets the contract (the series rearranged, ascending by value); what is
    proved of the order of the brands is proved of [brand_order_with] for
    every routine that meets it, and nothing proved of [brand_order] depends
    on the order among equal values. *)
Definition sort_values (series : list (str * float)) : list (str * float) :=
  fold_right insert_by_value [] series.

(** The brand order under an arbitrary sorting routine. *)
Definition brand_order_with
    (sort : list (str * float) -> list (str * float))
    (filtered_df : data_frame) : list str :=
  map fst (sort (groupby_min filtered_df)).

(** [brand_fastest_time.index.tolist()] *)
Definition brand_order (filtered_df : data_frame) : list str :=
  brand_order_with sort_values filtered_df.

(** [{brand: i for i, brand in enumerate(brand_order_simple)}] *)
Definition brand_position (order : list str) : list (str * nat) :=
  combine order (seq 0 (length order)).

(** [d.get(k)] on a dictionary kept as the list of its items. *)
Fixpoint lookup {V} (k : str) (d : list (str * V)) : option V :=
  match d with
  | [] => None
  | (k', v) :: rest => if str_eqb k k' then Some v else lookup k rest
  end.

(** The column [Brand_X_simple] of a row. *)
Definition Brand_X (order : list str) (r : row) : option nat :=
  lookup (Brand r) (brand_position order).

(** [f"{row['Model']} {row['ChassisCode']}"] *)
Definition label_text (r : row) : str :=
  Model r ++ " "%char :: ChassisCode r.

(** [brand_max_text_width]: for each brand the longest label of its rows;
    [list_max] of no length at all is [0], the value of [max([] or [0])]. *)
Definition brand_max_text_width (filtered_df : data_frame)
    (order : list str) : list (str * nat) :=
  map (fun brand =>
         let df_brand :=
           filter (fun r => str_eqb (Brand r) brand) filtered_df in
         (brand, list_max (map (fun r => length (label_text r)) df_brand)))
      order.

Definition char_width : float := (8 # 100)%Q.

(** [max(a, b)] and [min(a, b)] of Python: the first argument wins unless
    the second is strictly beyond it. *)
Definition py_max (a b : float) : float := if flt a b then b else a.
Definition py_min (a b : float) : float := if flt b a then b else a.

Record layout := {
  brand_order_simple : list str;
  max_brand_width : float;
  responsive_width : float
}.

(** The branch [if len(filtered_df) > 0 ... else ...] that derives the
    layout. *)
Definition derive_layout (filtered_df : data_frame) : layout :=
  if (0 <? length filtered_df)%nat then
    let order := brand_order filtered_df in
    let widths := brand_max_text_width filtered_df order in
    let mbw :=
      if is_nil widths then 0%Q
      else fmul (inject_Z (Z.of_nat (list_max (map snd widths))))
                char_width in
    let num_brands := Z.of_nat (length order) in
    let content_width :=
      fadd (inject_Z (num_brands * 100 + 500)) (fmul mbw (200 # 1)%Q) in
    {| brand_order_simple := order;
       max_brand_width := mbw;
       responsive_width :=
         py_min (1600 # 1)%Q (py_max (900 # 1)%Q content_width) |}
  else
    {| brand_order_simple := [];
       max_brand_width := 0%Q;
       responsive_width := (900 # 1)%Q |}.

(** [x] brought into the interval from [lo] to [hi]. *)
Definition clamp (lo hi x : Q) : Q := Qmin hi (Qmax lo x).

(** The keys of a grouped series are in strictly ascending order. *)
Definition keys_ascending (g : list (str * float)) : Prop :=
  StronglySorted str_lt (map fst g).

(** The brands of a frame in the order in which the Record Store first shows
    them. *)
Definition first_seen (filtered_df : data_frame) : list str :=
  fold_left (fun seen r => if mem (Brand r) seen then seen
                           else seen ++ [Brand r]) filtered_df [].

(** The fastest time of [brand] in the frame ([0] for a brand without
    rows). *)
Definition fastest_time (filtered_df : data_frame) (brand : str) : float :=
  match series_min
          (map Time_sec
             (filter (fun r => str_eqb (Brand r) brand) filtered_df)) with
  | Some t => t
  | None => 0%Q
  end.

(** Ascending by value: the order that [sort_values] promises. *)
Definition ascending (series : list (str * float)) : Prop :=
  StronglySorted (fun x y => (snd x <= snd y)%Q) series.

(** A sorting routine that meets the contract of [sort_values]. *)
Definition sorts_by_value
    (sort : list (str * float) -> list (str * float)) : Prop :=
  forall series, Permutation (sort series) series /\ ascending (sort series).

(** The brand order as the specification words it: ascending by fastest
    time, a stable sort over the brands in Record Store order. *)
Definition spec_brand_order (filtered_df : data_frame) : list str :=
  map fst (sort_values
             (map (fun b => (b, fastest_time filtered_df b))
                  (first_seen filtered_df))).

End Layout.

Import Layout.

(* ====================================================================== *)
(** * Chart data: the ticks of the time axis                              *)
(* ====================================================================== *)

Module Axis.

Definition tick_interval : float := (1 # 2)%Q.

(** [np.arange(start, stop, step)]: [ceil((stop - start) / step)] values,
    the [i]-th being [start + i * step]. *)
Definition arange (start stop step : float) : list float :=
  map (fun i => fadd start (fmul (inject_Z (Z.of_nat i)) step))
      (seq 0 (Z.to_nat (Qceiling ((stop - start) / step)%Q))).

Fixpoint insert_unique (x : float) (l : list float) : list float :=
  match l with
  | [] => [x]
  | y :: rest =>
      match Qcompare x y with
      | Lt => x :: l
      | Eq => l
      | Gt => y :: insert_unique x rest
      end
  end.

(** [np.sort(np.unique(a))]: the distinct values of [a] in ascending
    order. *)
Definition sort_unique (a : list float) : list float :=
  fold_right insert_unique [] a.

(** [tick_values] for the fastest and the slowest displayed time.  The stop
    value and the number of ticks are the exact ones; in the program the sum
    [max_time + tick_interval] is rounded, which loses the last tick when it
    rounds onto the grid.  On lap times (see [lap_time] below) it does
    not. *)
Definition tick_values (min_time max_time : float) : list float :=
  let first :=
    fmul (inject_Z (Qceiling (min_time / tick_interval)%Q)) tick_interval in
  sort_unique
    (min_time :: arange first (fadd max_time tick_interval) tick_interval).

(** The label of one tick. *)
Definition tick_label (min_time t : float) : str :=
  if Qeq_bool t min_time || flt (fmod t (1 # 1)%Q) (1 # 100)%Q
  then seconds_to_duration (Some t) 3
  else [].

(** [tick_labels] *)
Definition tick_labels (min_time : float) (ticks : list float) : list str :=
  map (tick_label min_time) ticks.

(** [filtered_df['Time_sec'].min()] and [.max()] *)
Definition time_min (filtered_df : data_frame) : option float :=
  series_min (map Time_sec filtered_df).

Definition time_max (filtered_df : data_frame) : option float :=
  series_max (map Time_sec filtered_df).

(** The values and labels given to [update_yaxes]; nothing for an empty
    frame. *)
Definition y_axis (filtered_df : data_frame)
    : option (list float * list str) :=
  match time_min filtered_df, time_max filtered_df with
  | Some min_time, Some max_time =>
      let ticks := tick_values min_time max_time in
      Some (ticks, tick_labels min_time ticks)
  | _, _ => None
  end.

(** A lap time of the data: a whole number of milliseconds, not negative and
    below 100 minutes.  On such times the doubles of the program lead to the
    ticks and labels of the model: every grid point is a double, a time is a
    grid point or at least a millisecond away from the grid, and rounding
    moves a sum by less than 1e-12. *)
Definition lap_time (t : float) : Prop :=
  exists n : Z, 0 <= n < 6000000 /\ (t == n # 1000)%Q.

(** A point of the half-second grid. *)
Definition on_grid (t : float) : Prop :=
  exists k : Z, (t == inject_Z k * tick_interval)%Q.

(** The value [t] is among the ticks. *)
Definition shows (ticks : list float) (t : float) : Prop :=
  exists u, In u ticks /\ (u == t)%Q.

(** The tick set as the specification words it: the minimum, and the grid
    points from the minimum rounded up to the grid through the maximum. *)
Definition spec_ticks (ticks : list float) (m M : float) : Prop :=
  forall t : float,
    shows ticks t <->
    ((t == m)%Q \/ (on_grid t /\ (m <= t)%Q /\ (t <= M)%Q)).

(** The tick set of the code: the grid goes on to the first point that is
    not below the maximum. *)
Definition code_ticks (ticks : list float) (m M : float) : Prop :=
  forall t : float,
    shows ticks t <->
    ((t == m)%Q \/ (on_grid t /\ (m <= t)%Q /\ (t < M + tick_interval)%Q)).

(** The fractional part of [t]. *)
Definition frac (t : float) : Q := (t - inject_Z (Qfloor t))%Q.

(** The rule for the label of the tick [t]: the formatted time at the
    minimum and on whole seconds, nothing elsewhere. *)
Definition label_rule (m t : float) (label : str) : Prop :=
  (((t == m)%Q \/ (frac t < 1 # 100)%Q) ->
   label = seconds_to_duration (Some t) 3 /\ label <> []) /\
  (~ ((t == m)%Q \/ (frac t < 1 # 100)%Q) -> label = []).

End Axis.

Import Axis.

(* ====================================================================== *)
(** * Summary: the figures of the statistics panel                        *)
(* ====================================================================== *)

Module Summary.

(** The position of the first least value from position [i] on, [best] at
    position [best_i] being the least value so far. *)
Fixpoint argmin_from (best_i : nat) (best : float) (i : nat)
    (l : list float) : nat :=
  match l with
  | [] => best_i
  | x :: rest =>
      if flt x best then argmin_from i x (S i) rest
      else argmin_from best_i best (S i) rest
  end.

(** [series.idxmin()]: the first position of the least value. *)
Definition idxmin (series : list float) : option nat :=
  match series with
  | [] => None
  | x :: rest => Some (argmin_from 0 x 1 rest)
  end.

(** [series.nunique()] *)
Definition nunique (series : list str) : nat :=
  length (nodup str_eq_dec series).

Record stats := {
  total_vehicles : nat;
  total_brands : nat;
  fastest_row : option row
}.

(** The figures the statistics text is built from. *)
Definition summarize (filtered_df : data_frame) : stats :=
  let total_vehicles := length filtered_df in
  let total_brands :=
    if (0 <? length filtered_df)%nat
    then nunique (map Brand filtered_df) else 0%nat in
  if (0 <? length filtered_df)%nat then
    {| total_vehicles := total_vehicles;
       total_brands := total_brands;
       fastest_row :=
         match idxmin (map Time_sec filtered_df) with
         | Some fastest_idx => nth_error filtered_df fastest_idx
         | None => None
         end |}
  else
    {| total_vehicles := total_vehicles;
       total_brands := total_brands;
       fastest_row := None |}.

End Summary.

Import Summary.

(* ====================================================================== *)
(** * Sample rows                                                         *)
(* ====================================================================== *)

Module Samples.

Definition car (brand model chassis : string) (drivetrain : string)
    (t : float) : row :=
  {| Name := lit "driver"; Brand := lit brand; Model := lit model;
     ChassisCode := lit chassis; EngineType := lit "NA";
     Drivetrain := lit drivetrain; Time_sec := t |}.

Definition civic : row := car "Honda" "Civic Type R" "FL5" "FWD" (99289 # 1000)%Q.
Definition supra : row := car "Toyota" "Supra" "A90" "RWD" (98 # 1)%Q.
Definition gtr : row := car "Nissan" "GT-R" "R35" "AWD" (98 # 1)%Q.

(** A row whose chassis cell held only a quoted blank: stripped, it is the
    empty string. *)
Definition no_chassis : row := car "Honda" "Civic" "" "FWD" (100 # 1)%Q.

Definition garage : data_frame := [civic; supra; gtr].

(** Toyota is listed before Honda, with the same fastest time. *)
Definition toyota_first : data_frame :=
  [car "Toyota" "Supra" "A90" "RWD" (582 # 10)%Q;
   car "Honda" "Civic" "FL5" "FWD" (582 # 10)%Q].

(** Two laps, the slower one off the half-second grid. *)
Definition two_laps : data_frame :=
  [car "Toyota" "Supra" "A90" "RWD" (582 # 10)%Q;
   car "Honda" "Civic" "FL5" "FWD" (612 # 10)%Q].

Definition honda_first : data_frame :=
  [car "Honda" "Civic" "FL5" "FWD" (582 # 10)%Q;
   car "Toyota" "Supra" "A90" "RWD" (582 # 10)%Q].

(** The example of the specification: BrandB before BrandC in the store. *)
Definition three_brands : data_frame :=
  [car "BrandA" "a" "x" "RWD" (61 # 1)%Q;
   car "BrandB" "b" "y" "RWD" (582 # 10)%Q;
   car "BrandC" "c" "z" "RWD" (582 # 10)%Q].

End Samples.

Import Samples.

(* ====================================================================== *)
(** * Texts around a number                                               *)
(* ====================================================================== *)

Module Surroundings.

(** No character of the text is a digit. *)
Definition digit_free (s : str) : Prop :=
  forallb (fun c => negb (isdigit c)) s = true.

End Surroundings.

Import Surroundings.

(* ====================================================================== *)
(** * The options of the dropdowns                                        *)
(* ====================================================================== *)

Module Options.

(** [series.unique().tolist()]: the distinct values in the order in which
    they first appear. *)
Definition unique (series : list str) : list str :=
  fold_left (fun seen v => if mem v seen then seen else seen ++ [v])
            series [].

Fixpoint insert_str (x : str) (l : list str) : list str :=
  match l with
  | [] => [x]
  | y :: rest =>
      match str_compare x y with
      | Gt => y :: insert_str x rest
      | _ => x :: l
      end
  end.

(** [sorted(l)] on strings. *)
Definition sorted (l : list str) : list str := fold_right insert_str [] l.

(** [all_brands], [all_drivetrains] and [all_engine_types] *)
Definition all_brands (df_plot : data_frame) : list str :=
  sorted (unique (map Brand df_plot)).

Definition all_drivetrains (df_plot : data_frame) : list str :=
  sorted (unique (map Drivetrain df_plot)).

Definition all_engine_types (df_plot : data_frame) : list str :=
  sorted (unique (map EngineType df_plot)).

(** The values offered by a dropdown: "ALL", then the sorted values. *)
Definition option_values (values : list str) : list str := ALL :: values.

End Options.

Import Options.

(* ====================================================================== *)
(** * Chart data: the traces and the figure of [update_visualization]     *)
(* ====================================================================== *)

Module Chart.

Definition NA : str := lit "NA".
Definition FI : str := lit "FI".
Definition RWD : str := lit "RWD".
Definition AWD : str := lit "AWD".
Definition FWD : str := lit "FWD".

(** [legend_order]: engine type and drivetrain of the six groups. *)
Definition legend_order : list (str * str) :=
  [(NA, RWD); (FI, RWD); (NA, AWD); (FI, AWD); (NA, FWD); (FI, FWD)].

(** [drivetrain_colors_simple] *)
Definition drivetrain_colors_simple : list (str * str) :=
  [(RWD, lit "rgb(255,0,0)");
   (AWD, lit "rgb(0,100,255)");
   (FWD, lit "rgb(0,255,0)")].

(** [f"{drivetrain} {engine_type}"] *)
Definition legend_name (engine_type drivetrain : str) : str :=
  drivetrain ++ " "%char :: engine_type.

(** The order of two rows under
    [sort_values(['Brand_X_simple', 'Time_sec'])]: by slot, then by time; a
    row without a slot comes last. *)
Definition row_le (order : list str) (a b : row) : bool :=
  match Brand_X order a, Brand_X order b with
  | Some i, Some j =>
      (i <? j)%nat || ((i =? j)%nat && Qle_bool (Time_sec a) (Time_sec b))
  | Some _, None => true
  | None, Some _ => false
  | None, None => Qle_bool (Time_sec a) (Time_sec b)
  end.

Fixpoint insert_row (order : list str) (r : row) (l : data_frame)
    : data_frame :=
  match l with
  | [] => [r]
  | y :: rest =>
      if row_le order r y then r :: l else y :: insert_row order r rest
  end.

(** [df_sorted]: the sort on several columns is stable. *)
Definition sort_rows (order : list str) (filtered_df : data_frame)
    : data_frame :=
  fold_right (insert_row order) [] filtered_df.

Inductive trace_mode := Markers | Text.

(** A scatter trace of one point: the arguments of [go.Scatter] that vary.
    The hover text is left out; it is made of columns that the rows of this
    model do not carry.  [trace_x = None] is a NaN position. *)
Record trace := {
  trace_x : option float;
  trace_y : float;
  mode : trace_mode;
  text : option str;
  marker_color : option str;
  marker_line_width : option nat;
  marker_line_color : option str;
  name : option str;
  showlegend : bool;
  legendgroup : str
}.

(** [row['Brand_X_simple']] as a number. *)
Definition x_pos (order : list str) (r : row) : option float :=
  option_map (fun i => inject_Z (Z.of_nat i)) (Brand_X order r).

(** The dot marker of a row. *)
Definition marker_trace (order : list str) (engine_type drivetrain : str)
    (text_color : str) (is_first : bool) (r : row) : trace :=
  {| trace_x := x_pos order r;
     trace_y := Time_sec r;
     mode := Markers;
     text := None;
     marker_color :=
       Some (if str_eqb engine_type NA then text_color
             else lit "rgba(0,0,0,0)");
     marker_line_width :=
       Some (if str_eqb engine_type FI then 2%nat else 0%nat);
     marker_line_color :=
       if str_eqb engine_type FI then Some text_color else None;
     name := Some (legend_name engine_type drivetrain);
     showlegend := is_first;
     legendgroup := legend_name engine_type drivetrain |}.

(** The text label of a row, a tenth of a slot to the right. *)
Definition text_trace (order : list str) (engine_type drivetrain : str)
    (r : row) : trace :=
  {| trace_x := option_map (fun x => fadd x (1 # 10)%Q) (x_pos order r);
     trace_y := Time_sec r;
     mode := Text;
     text := Some (label_text r);
     marker_color := None;
     marker_line_width := None;
     marker_line_color := None;
     name := None;
     showlegend := false;
     legendgroup := legend_name engine_type drivetrain |}.

(** The loop over the rows of one group; [None] is the [KeyError] of a
    drivetrain without a colour. *)
Fixpoint row_traces (order : list str) (engine_type drivetrain : str)
    (is_first : bool) (rows : data_frame) : option (list trace) :=
  match rows with
  | [] => Some []
  | r :: rest =>
      match lookup drivetrain drivetrain_colors_simple with
      | None => None
      | Some text_color =>
          match row_traces order engine_type drivetrain false rest with
          | None => None
          | Some ts =>
              Some (marker_trace order engine_type drivetrain text_color
                      is_first r
                    :: text_trace order engine_type drivetrain r :: ts)
          end
      end
  end.

(** The rows of one group. *)
Definition df_subset (df_sorted : data_frame) (engine_type drivetrain : str)
    : data_frame :=
  filter (fun r => str_eqb (EngineType r) engine_type
                   && str_eqb (Drivetrain r) drivetrain) df_sorted.

(** The loop over [legend_order]; a group without rows is passed over. *)
Fixpoint group_traces (order : list str) (df_sorted : data_frame)
    (groups : list (str * str)) : option (list trace) :=
  match groups with
  | [] => Some []
  | (engine_type, drivetrain) :: rest =>
      let subset := df_subset df_sorted engine_type drivetrain in
      let here :=
        if (length subset =? 0)%nat then Some []
        else row_traces order engine_type drivetrain true subset in
      match here, group_traces order df_sorted rest with
      | Some ts, Some ts' => Some (ts ++ ts')
      | _, _ => None
      end
  end.

(** The x axis: tick values, tick texts and range. *)
Record x_axis := {
  x_tickvals : list nat;
  x_ticktext : list str;
  x_range : float * float
}.

Record figure := {
  vlines : list nat;
  traces : list trace;
  yaxis : option (list float * list str);
  xaxis : option x_axis;
  width : float
}.

(** The figure built for the filtered frame. *)
Definition build_figure (filtered_df : data_frame) : option figure :=
  let lay := derive_layout filtered_df in
  let order := brand_order_simple lay in
  let separators := seq 0 (length order) in
  if (0 <? length filtered_df)%nat then
    let df_sorted := sort_rows order filtered_df in
    match group_traces order df_sorted legend_order with
    | None => None
    | Some ts =>
        let x_max :=
          fadd (fadd (inject_Z (Z.of_nat (length order) - 1))
                     (max_brand_width lay)) (1 # 2)%Q in
        Some {| vlines := separators;
                traces := ts;
                yaxis := y_axis filtered_df;
                xaxis := Some {| x_tickvals := seq 0 (length order);
                                 x_ticktext := order;
                                 x_range := ((- (1 # 2))%Q, x_max) |};
                width := responsive_width lay |}
    end
  else
    Some {| vlines := separators;
            traces := [];
            yaxis := None;
            xaxis := None;
            width := responsive_width lay |}.

(** [update_visualization]: the figure and the figures of the statistics
    text. *)
Definition update_visualization (df_plot : data_frame)
    (selected_brands selected_drivetrain : value)
    (selected_engine model_chassis_search : option str)
    : option (figure * stats) :=
  let filtered_df :=
    apply_filters df_plot selected_brands selected_drivetrain
                  selected_engine model_chassis_search in
  match build_figure filtered_df with
  | Some fig => Some (fig, summarize filtered_df)
  | None => None
  end.

(** The row belongs to the group [g]. *)
Definition in_group (g : str * str) (r : row) : bool :=
  str_eqb (EngineType r) (fst g) && str_eqb (Drivetrain r) (snd g).

(** The row belongs to one of the six groups of the legend. *)
Definition in_legend (r : row) : bool :=
  existsb (fun g => in_group g r) legend_order.

(** The trace shows the row [r] of the group [g]: its time, at its slot or
    a tenth of a slot to the right, under the name of the group. *)
Definition shows_row (order : list str) (g : str * str) (r : row)
    (t : trace) : Prop :=
  trace_y t = Time_sec r /\
  legendgroup t = legend_name (fst g) (snd g) /\
  (trace_x t = x_pos order r \/
   trace_x t = option_map (fun x => fadd x (1 # 10)%Q) (x_pos order r)).

(** The row is of one of the six kinds that the chart draws: engine type
    NA or FI, drivetrain RWD, AWD or FWD. *)
Definition in_six_groups (r : row) : bool :=
  (str_eqb (EngineType r) (lit "NA") || str_eqb (EngineType r) (lit "FI"))
  && (str_eqb (Drivetrain r) (lit "RWD") || str_eqb (Drivetrain r) (lit "AWD")
      || str_eqb (Drivetrain r) (lit "FWD")).

(** The colour that stands for a drivetrain. *)
Definition colour_of (drivetrain colour : str) : Prop :=
  (drivetrain = lit "RWD" /\ colour = lit "rgb(255,0,0)") \/
  (drivetrain = lit "AWD" /\ colour = lit "rgb(0,100,255)") \/
  (drivetrain = lit "FWD" /\ colour = lit "rgb(0,255,0)").

(** What the chart is to show of the row [r] as its dot: a trace in marker
    mode at the slot of the brand and the time of the row, named
    "drivetrain engine" and in the legend group of that name, without text;
    the dot of an NA row is filled with the colour of the drivetrain and has
    no outline, the dot of an FI row is transparent with an outline of
    width 2 in that colour. *)
Definition marker_of (order : list str) (r : row) (t : trace) : Prop :=
  mode t = Markers /\
  (exists i : nat, nth_error order i = Some (Brand r) /\
                   trace_x t = Some (inject_Z (Z.of_nat i))) /\
  trace_y t = Time_sec r /\
  text t = None /\
  name t = Some (Drivetrain r ++ " "%char :: EngineType r) /\
  legendgroup t = Drivetrain r ++ " "%char :: EngineType r /\
  exists colour : str,
    colour_of (Drivetrain r) colour /\
    (EngineType r = lit "NA" ->
     marker_color t = Some colour /\ marker_line_width t = Some 0%nat /\
     marker_line_color t = None) /\
    (EngineType r = lit "FI" ->
     marker_color t = Some (lit "rgba(0,0,0,0)") /\
     marker_line_width t = Some 2%nat /\
     marker_line_color t = Some colour).

(** What the chart is to show of the row [r] as its label: a trace in text
    mode a tenth of a slot to the right of the dot, at the time of the row,
    with the text "model chassis", in the legend group of the row but
    without a name and never in the legend. *)
Definition label_of (order : list str) (r : row) (t : trace) : Prop :=
  mode t = Text /\
  (exists (i : nat) (x : float),
     nth_error order i = Some (Brand r) /\ trace_x t = Some x /\
     (x == inject_Z (Z.of_nat i) + (1 # 10))%Q) /\
  trace_y t = Time_sec r /\
  text t = Some (Model r ++ " "%char :: ChassisCode r) /\
  name t = None /\
  showlegend t = false /\
  legendgroup t = Drivetrain r ++ " "%char :: EngineType r.

(** The trace is one of the two that the loop adds for the row [r] of the
    group [g], [c] being the colour of the group. *)
Definition drawn_as (order : list str) (g : str * str) (c : str) (r : row)
    (t : trace) : Prop :=
  (exists is_first : bool,
     t = marker_trace order (fst g) (snd g) c is_first r) \/
  t = text_trace order (fst g) (snd g) r.

End Chart.

Import Chart.

(* ====================================================================== *)
(** * Properties                                                          *)
(* ====================================================================== *)

(* ---------------------------------------------------------------------- *)
(** ** Facts on strings                                                    *)
(* ---------------------------------------------------------------------- *)

Lemma str_eqb_eq (a b : str) : str_eqb a b = true <-> a = b.
Proof.
  unfold str_eqb. destruct (str_eq_dec a b); split; congruence.
Qed.

Lemma str_eqb_refl (a : str) : str_eqb a a = true.
Proof. now apply str_eqb_eq. Qed.

Lemma str_eqb_neq (a b : str) : str_eqb a b = false <-> a <> b.
Proof.
  unfold str_eqb. destruct (str_eq_dec a b); split; congruence.
Qed.

Lemma mem_In (x : str) (l : list str) : mem x l = true <-> In x l.
Proof.
  unfold mem. rewrite existsb_exists. split.
  - intros [y [Hy E]]. apply str_eqb_eq in E. now subst.
  - intros H. exists x. split; [assumption | apply str_eqb_refl].
Qed.

Lemma mem_not_In (x : str) (l : list str) : mem x l = false <-> ~ In x l.
Proof.
  rewrite <- mem_In. destruct (mem x l); split; congruence.
Qed.

Lemma code_inj (x y : ascii) : code x = code y -> x = y.
Proof.
  unfold code. intros H.
  rewrite <- (ascii_N_embedding x), <- (ascii_N_embedding y). now rewrite H.
Qed.

Lemma str_compare_eq (a b : str) : str_compare a b = Eq <-> a = b.
Proof.
  revert b. induction a as [|x a IH]; intros [|y b]; simpl;
    try (split; congruence).
  destruct (N.compare_spec (code x) (code y)) as [E|L|G].
  - apply code_inj in E. subst y. rewrite IH. split; congruence.
  - split; [discriminate|]. intros E. inversion E; subst. lia.
  - split; [discriminate|]. intros E. inversion E; subst. lia.
Qed.

Lemma str_compare_antisym (a b : str) :
  str_compare b a = CompOpp (str_compare a b).
Proof.
  revert b. induction a as [|x a IH]; intros [|y b]; simpl; try reflexivity.
  rewrite (N.compare_antisym (code x) (code y)).
  destruct (N.compare (code x) (code y)); simpl; auto.
Qed.

Lemma str_lt_trans (a b c : str) : str_lt a b -> str_lt b c -> str_lt a c.
Proof.
  unfold str_lt. revert b c.
  induction a as [|x a IH]; intros [|y b] [|z c]; simpl; try congruence.
  destruct (N.compare_spec (code x) (code y)) as [E1|L1|G1]; try discriminate;
    destruct (N.compare_spec (code y) (code z)) as [E2|L2|G2];
    try discriminate; intros H1 H2.
  - rewrite E1, E2, N.compare_refl. eauto.
  - rewrite E1. now apply N.compare_lt_iff in L2 as ->.
  - rewrite <- E2. now apply N.compare_lt_iff in L1 as ->.
  - assert (L : (code x < code z)%N) by lia.
    now apply N.compare_lt_iff in L as ->.
Qed.

Lemma str_lt_irrefl (a : str) : ~ str_lt a a.
Proof.
  unfold str_lt. intros H.
  assert (E : str_compare a a = Eq) by now apply str_compare_eq.
  congruence.
Qed.

Lemma str_lt_gt (a b : str) : str_compare a b = Gt <-> str_lt b a.
Proof.
  unfold str_lt. rewrite (str_compare_antisym a b).
  destruct (str_compare a b); simpl; split; congruence.
Qed.

(* ---------------------------------------------------------------------- *)
(** ** The dropdown callbacks                                              *)
(* ---------------------------------------------------------------------- *)

Section DropdownFacts.

Lemma update_drivetrain_is_update_brand (v : value) :
  update_drivetrain_dropdown v = update_brand_dropdown v.
Proof. reflexivity. Qed.

Lemma not_In_filter_ALL (l : list str) :
  ~ In ALL (filter (fun b => negb (str_eqb b ALL)) l).
Proof.
  intros H. apply filter_In in H as [_ H].
  now rewrite str_eqb_refl in H.
Qed.

Lemma list_eqb_eq (l l' : list str) : list_eqb l l' = true <-> l = l'.
Proof.
  unfold list_eqb. destruct (list_eq_dec str_eq_dec l l'); split; congruence.
Qed.

(** What the reducer answers, case by case. *)
Lemma update_brand_dropdown_cases (v : value) :
  match update_brand_dropdown v with
  | One s => v = One s \/ s = ALL
  | Many l => ~ In ALL l
  | NoValue => False
  end.
Proof.
  destruct v as [|s|l]; simpl; auto.
  destruct ((1 <? length l)%nat && mem ALL l) eqn:E.
  - apply not_In_filter_ALL.
  - destruct (list_eqb l [ALL]) eqn:E1; [now right|].
    destruct (length l =? 0)%nat eqn:E2; [now right|].
    intros H. pose proof (proj2 (mem_In ALL l) H) as HM.
    rewrite HM, andb_true_r in E.
    apply Nat.ltb_ge in E. apply Nat.eqb_neq in E2.
    destruct l as [|x [|y l]]; simpl in E, E2; try lia.
    destruct H as [H|[]]. subst x.
    assert (E3 : list_eqb [ALL] [ALL] = true) by now apply list_eqb_eq.
    congruence.
Qed.

End DropdownFacts.

(** C7, as the code has it: the reducer never shows "ALL" next to a concrete
    value; when the raw selection holds "ALL" and at least one concrete value,
    in whatever order they were chosen, "ALL" is removed and the concrete
    values stay; a raw selection of "ALL" alone, an empty one and a missing
    one all become "ALL".  The same holds for the drivetrain reducer. *)
Theorem dropdown_never_mixes_ALL (v : value) :
  ~ mixed (update_brand_dropdown v) /\
  (forall l, In ALL l -> (exists x, In x l /\ x <> ALL) ->
     update_brand_dropdown (Many l)
     = Many (filter (fun b => negb (str_eqb b ALL)) l) /\
     (forall x, In x (active (update_brand_dropdown (Many l)))
                <-> In x l /\ x <> ALL)) /\
  update_brand_dropdown (Many [ALL]) = One ALL /\
  update_brand_dropdown (Many []) = One ALL /\
  update_brand_dropdown NoValue = One ALL /\
  update_drivetrain_dropdown v = update_brand_dropdown v.
Proof.
  split; [|split; [|repeat split]].
  - intros [HA [x [Hx Hne]]].
    pose proof (update_brand_dropdown_cases v) as C.
    destruct (update_brand_dropdown v) as [|s|l]; simpl in *; try tauto.
    destruct HA as [HA|[]]; destruct Hx as [Hx|[]]; congruence.
  - intros l HA [x [Hx Hne]].
    assert (E : update_brand_dropdown (Many l)
                = Many (filter (fun b => negb (str_eqb b ALL)) l)).
    { assert (L : (1 < length l)%nat).
      { destruct l as [|a [|b l]]; simpl in *; try lia; try tauto.
        destruct HA as [HA|[]], Hx as [Hx|[]]; congruence. }
      apply Nat.ltb_lt in L. apply mem_In in HA.
      simpl. now rewrite L, HA. }
    split; [exact E|].
    intros y. rewrite E. simpl. rewrite filter_In, negb_true_iff, str_eqb_neq.
    tauto.
Qed.

(** C7 as stated fails: with a concrete value selected, choosing "ALL" does
    not drop the concrete value; it is "ALL" that goes. *)
Lemma dropdown_ALL_does_not_drop_concrete :
  update_brand_dropdown (Many [lit "Honda"; ALL]) = Many [lit "Honda"] /\
  ~ selecting_ALL_drops_concrete update_brand_dropdown.
Proof.
  split; [reflexivity|].
  intros H. specialize (H [lit "Honda"]).
  assert (E : active (update_brand_dropdown (Many ([lit "Honda"] ++ [ALL])))
              = [lit "Honda"]) by reflexivity.
  rewrite E in H. assert (C : [lit "Honda"] = [ALL]).
  { apply H; [discriminate|]. intros [X|[]]. discriminate X. }
  discriminate C.
Qed.

(* ---------------------------------------------------------------------- *)
(** ** The filter engine                                                   *)
(* ---------------------------------------------------------------------- *)

Section FilterFacts.

Lemma select_isin_ALL_in (col : row -> str) (l : list str)
    (df : data_frame) :
  In ALL l -> select_isin col (Many l) df = df.
Proof.
  intros H. unfold select_isin. simpl.
  apply mem_In in H. rewrite H. now rewrite andb_false_r.
Qed.

Lemma select_isin_ALL (col : row -> str) (df : data_frame) :
  select_isin col (One ALL) df = df.
Proof. reflexivity. Qed.

(** The loop returns [True] exactly when some term passes its test. *)
Lemma matches_loop_spec (ml cl : str) (mw terms : list str) :
  matches_loop ml cl mw terms = true <->
  exists term, In term terms /\
    (((1 < length (split_ws term))%nat /\ term = ml) \/
     ((length (split_ws term) <= 1)%nat /\ (In term mw \/ term = cl))).
Proof.
  induction terms as [|term rest IH]; simpl.
  - split; [discriminate | intros [t [[] _]]].
  - destruct (1 <? length (split_ws term))%nat eqn:W.
    + apply Nat.ltb_lt in W.
      destruct (str_eqb term ml) eqn:E.
      * apply str_eqb_eq in E. split; [|reflexivity].
        intros _. exists term. split; [now left|]. left. now split.
      * apply str_eqb_neq in E. rewrite IH. split.
        -- intros [t [Ht P]]. exists t. split; [now right | exact P].
        -- intros [t [[Ht|Ht] P]]; [|now exists t].
           subst t. destruct P as [[_ P]|[P _]]; [contradiction | lia].
    + apply Nat.ltb_ge in W.
      destruct (mem term mw || str_eqb term cl) eqn:E.
      * split; [|reflexivity]. intros _. exists term. split; [now left|].
        right. split; [exact W|].
        apply orb_true_iff in E as [E|E];
          [left; now apply mem_In | right; now apply str_eqb_eq].
      * apply orb_false_iff in E as [E1 E2].
        apply mem_not_In in E1. apply str_eqb_neq in E2.
        rewrite IH. split.
        -- intros [t [Ht P]]. exists t. split; [now right | exact P].
        -- intros [t [[Ht|Ht] P]]; [|now exists t].
           subst t. destruct P as [[P _]|[_ [P|P]]]; [lia | | ]; contradiction.
Qed.

Lemma matches_any_term_spec (terms : list str) (r : row) :
  matches_any_term terms (Model r) (ChassisCode r) = true <->
  exists term, In term terms /\ term_matches term r.
Proof. unfold matches_any_term, term_matches. apply matches_loop_spec. Qed.

Lemma strip_nil : strip [] = [].
Proof. reflexivity. Qed.

End FilterFacts.

(** C9: a brand or drivetrain list that holds "ALL" anywhere, also next to
    concrete values, switches the criterion off: every row passes, and the
    whole filter answers as it does for "ALL" alone. *)
Theorem ALL_anywhere_skips_criterion (l : list str) (df : data_frame)
    (other : value) (engine text : option str) :
  In ALL l ->
  select_isin Brand (Many l) df = df /\
  select_isin Drivetrain (Many l) df = df /\
  apply_filters df (Many l) other engine text
  = apply_filters df (One ALL) other engine text /\
  apply_filters df other (Many l) engine text
  = apply_filters df other (One ALL) engine text.
Proof.
  intros H. unfold apply_filters.
  rewrite !select_isin_ALL_in by exact H.
  rewrite !select_isin_ALL. repeat split; reflexivity.
Qed.

(** The text filter as the code has it: a missing, empty or blank search
    text keeps every row; otherwise a row is kept exactly when one of the
    terms passes the test of the loop, a term of more than one word by being
    the lower-cased model name, and any other term by being a word of the
    lower-cased model name or the lower-cased chassis code. *)
Lemma text_filter_rule (text : option str)
    (df : data_frame) :
  (blank text -> select_text text df = df) /\
  (forall t, text = Some t -> ~ blank text ->
     forall r, In r (select_text text df) <->
               In r df /\
               exists term, In term (search_terms t) /\ term_matches term r).
Proof.
  split.
  - destruct text as [t|]; simpl; [|reflexivity].
    intros ->. now rewrite andb_false_r.
  - intros t -> NB r. simpl in *.
    assert (G : negb (is_nil t) && negb (is_nil (strip t)) = true).
    { destruct t as [|c t]; [now elim NB|]. simpl.
      destruct (strip (c :: t)); [now elim NB | reflexivity]. }
    rewrite G, filter_In, matches_any_term_spec. reflexivity.
Qed.

Lemma ALL_anywhere_skips_criterion_witness :
  In ALL [lit "Honda"; ALL] /\
  select_isin Brand (Many [lit "Honda"; ALL]) garage = garage /\
  select_isin Drivetrain (Many [lit "Honda"; ALL]) garage = garage /\
  apply_filters garage (Many [lit "Honda"; ALL]) (Many [lit "FWD"])
    (Some ALL) None
  = apply_filters garage (One ALL) (Many [lit "FWD"]) (Some ALL) None /\
  apply_filters garage (Many [lit "FWD"]) (Many [lit "Honda"; ALL])
    (Some ALL) None
  = apply_filters garage (Many [lit "FWD"]) (One ALL) (Some ALL) None.
Proof.
  split.
  - right. left. reflexivity.
  - apply (@ALL_anywhere_skips_criterion [lit "Honda"; ALL] garage
             (Many [lit "FWD"]) (Some ALL) None).
    right. left. reflexivity.
Defined.

(** C1, on the input where the code departs from it.  The search text
    " Supra ," has two terms, "supra" and the empty term that the trailing
    comma leaves.  Of the three rows Supra A90, Civic Type R FL5 and Civic
    with a blank chassis code, the filter keeps the first, which the term
    "supra" names, and also the third, which no term names: the empty term is
    neither a term of several words nor a single word, but the loop sends it
    down the single-word branch, where it equals the empty chassis code. *)
Theorem text_filter_empty_term_keeps_blank_chassis :
  search_terms (lit " Supra ,") = [lit "supra"; []] /\
  select_text (Some (lit " Supra ,")) [supra; civic; no_chassis]
  = [supra; no_chassis] /\
  split_ws (lower (Model no_chassis)) = [lit "civic"] /\
  lower (ChassisCode no_chassis) = [] /\
  split_ws [] = [] /\
  ~ (exists term, In term (search_terms (lit " Supra ,")) /\
                  spec_term_matches term no_chassis).
Proof.
  split; [reflexivity|]. split; [reflexivity|]. split; [reflexivity|].
  split; [reflexivity|]. split; [reflexivity|].
  change (search_terms (lit " Supra ,")) with [lit "supra"; []].
  intros [term [Ht M]].
  destruct Ht as [<-|[<-|[]]]; unfold spec_term_matches in M;
    vm_compute in M.
  - destruct M as [[M _]|[_ [[M|[]]|M]]]; [lia | discriminate M | discriminate M].
  - destruct M as [[M _]|[M _]]; [lia | discriminate M].
Qed.

(* ---------------------------------------------------------------------- *)
(** ** The time codec                                                      *)
(* ---------------------------------------------------------------------- *)

Section DigitFacts.

Lemma isdigit_cases (c : ascii) : isdigit c = true -> In c ten_digits.
Proof.
  destruct c as [[] [] [] [] [] [] [] []]; vm_compute; intros H;
    try discriminate H; tauto.
Qed.

(** Go through the ten digits that the hypothesis [H : isdigit c = true]
    leaves for [c], closing each case by computation. *)
Ltac each_digit H :=
  apply isdigit_cases in H; unfold ten_digits in H; simpl in H;
  repeat (destruct H as [<-|H]; [reflexivity|]); destruct H.

Lemma isdigit_not_space (c : ascii) : isdigit c = true -> isspace c = false.
Proof. intros H. each_digit H. Qed.

Lemma digit_val_range (c : ascii) :
  isdigit c = true -> 0 <= digit_val c < 10.
Proof.
  intros H. apply isdigit_cases in H. unfold ten_digits in H. simpl in H.
  repeat (destruct H as [<-|H]; [vm_compute; split; congruence|]).
  destruct H.
Qed.

Lemma digit_char_val (c : ascii) :
  isdigit c = true -> ascii_of_N (48 + Z.to_N (digit_val c)) = c.
Proof. intros H. each_digit H. Qed.

Lemma int_of_digits_snoc (ds : str) (c : ascii) :
  int_of_digits (ds ++ [c]) = 10 * int_of_digits ds + digit_val c.
Proof. unfold int_of_digits. now rewrite fold_left_app. Qed.

Lemma int_of_digits_range (ds : str) :
  forallb isdigit ds = true ->
  0 <= int_of_digits ds < 10 ^ Z.of_nat (length ds).
Proof.
  induction ds as [|c ds IH] using rev_ind; intros H.
  - vm_compute. split; congruence.
  - rewrite forallb_app in H. apply andb_true_iff in H as [H1 H2].
    simpl in H2. rewrite andb_true_r in H2.
    specialize (IH H1). pose proof (digit_val_range c H2) as D.
    rewrite int_of_digits_snoc, length_app. simpl length.
    rewrite Nat2Z.inj_add, Z.pow_add_r by lia.
    change (10 ^ Z.of_nat 1) with 10. lia.
Qed.

Lemma int_of_digits_app (a b : str) :
  int_of_digits (a ++ b)
  = int_of_digits a * 10 ^ Z.of_nat (length b) + int_of_digits b.
Proof.
  induction b as [|c b IH] using rev_ind.
  - rewrite app_nil_r. simpl. change (int_of_digits []) with 0. lia.
  - rewrite app_assoc, !int_of_digits_snoc, IH, length_app. simpl length.
    rewrite Nat2Z.inj_add, Z.pow_add_r by lia.
    change (10 ^ Z.of_nat 1) with 10. lia.
Qed.

(** Printing the digits of a number read from [ds] gives [ds] back. *)
Lemma fixed_digits_int_of_digits (ds : str) :
  forallb isdigit ds = true ->
  fixed_digits (length ds) (int_of_digits ds) = ds.
Proof.
  induction ds as [|c ds IH] using rev_ind; intros H; [reflexivity|].
  rewrite forallb_app in H. apply andb_true_iff in H as [H1 H2].
  simpl in H2. rewrite andb_true_r in H2.
  pose proof (digit_val_range c H2) as D.
  rewrite length_app, Nat.add_comm. simpl.
  rewrite int_of_digits_snoc.
  replace ((10 * int_of_digits ds + digit_val c) / 10) with (int_of_digits ds)
    by (apply Z.div_unique with (r := digit_val c); lia).
  replace ((10 * int_of_digits ds + digit_val c) mod 10) with (digit_val c)
    by (apply Z.mod_unique with (q := int_of_digits ds); lia).
  rewrite (IH H1). f_equal. f_equal. now apply digit_char_val.
Qed.

(** One or two digits, read and printed with [02d], are the digits filled
    with a zero. *)
Lemma format_02d_int_of_digits (ds : str) :
  forallb isdigit ds = true ->
  (1 <= length ds <= 2)%nat ->
  format_02d (int_of_digits ds) = zero_pad 2 ds.
Proof.
  intros H L. destruct ds as [|a [|b [|c ds]]]; simpl in L; try lia.
  - simpl in H. rewrite andb_true_r in H. each_digit H.
  - simpl in H. rewrite andb_true_r in H. apply andb_true_iff in H as [Ha Hb].
    apply isdigit_cases in Ha, Hb. unfold ten_digits in Ha, Hb.
    simpl in Ha, Hb.
    repeat (destruct Ha as [<-|Ha];
            [repeat (destruct Hb as [<-|Hb]; [reflexivity|]); destruct Hb|]).
    destruct Ha.
Qed.

End DigitFacts.

Section ParseFacts.

Lemma span_digits (ds rest : str) :
  forallb isdigit ds = true ->
  match rest with [] => True | c :: _ => isdigit c = false end ->
  span isdigit (ds ++ rest) = (ds, rest).
Proof.
  intros H R. induction ds as [|d ds IH]; simpl.
  - destruct rest as [|c rest]; [reflexivity | simpl; now rewrite R].
  - simpl in H. apply andb_true_iff in H as [Hd H].
    now rewrite Hd, (IH H).
Qed.

Lemma no_space_digits (ds : str) :
  forallb isdigit ds = true ->
  forallb (fun c => negb (isspace c)) ds = true.
Proof.
  intros H. apply forallb_forall. intros c Hc.
  rewrite forallb_forall in H. now rewrite (isdigit_not_space c (H c Hc)).
Qed.

Lemma lstrip_no_space (s : str) :
  forallb (fun c => negb (isspace c)) s = true -> lstrip s = s.
Proof.
  destruct s as [|c s]; simpl; [reflexivity|].
  intros H. apply andb_true_iff in H as [H _].
  apply negb_true_iff in H. now rewrite H.
Qed.

(** A text without whitespace is its own [strip()]. *)
Lemma strip_no_space (s : str) :
  forallb (fun c => negb (isspace c)) s = true -> strip s = s.
Proof.
  intros H. unfold strip, rstrip. rewrite (lstrip_no_space s H).
  rewrite lstrip_no_space; [apply rev_involutive|].
  apply forallb_forall. intros c Hc. apply in_rev in Hc.
  rewrite forallb_forall in H. now apply H.
Qed.

Lemma match_seconds_with_fraction (S F : str) :
  forallb isdigit S = true -> (1 <= length S <= 2)%nat ->
  forallb isdigit F = true -> F <> [] ->
  match_seconds (S ++ "."%char :: F) = true.
Proof.
  intros HS L HF NF. unfold match_seconds.
  rewrite (span_digits S ("."%char :: F) HS eq_refl).
  destruct L as [L1 L2]. apply Nat.leb_le in L1, L2. rewrite L1, L2, HF.
  destruct F; [contradiction | reflexivity].
Qed.

Lemma decimal_value (S F : str) :
  (decimal S F == inject_Z (int_of_digits (S ++ F))
                  / inject_Z (10 ^ Z.of_nat (length F)))%Q.
Proof.
  unfold decimal. rewrite Qred_correct.
  rewrite (Qmake_Qdiv (int_of_digits (S ++ F))).
  rewrite Z2Pos.id by (apply Z.pow_pos_nonneg; lia). reflexivity.
Qed.

Lemma float_of_decimal_below (q : Q) :
  (q < inject_Z float_overflow_bound)%Q -> float_of_decimal q = Returns q.
Proof.
  intros H. unfold float_of_decimal.
  destruct (Qle_bool (inject_Z float_overflow_bound) q) eqn:E;
    [|reflexivity].
  apply Qle_bool_iff in E. exfalso. apply (Qlt_not_le _ _ H E).
Qed.

(** A number with at most 308 digits before the point is within the float
    range, whatever its fraction. *)
Lemma decimal_below (S F : str) :
  forallb isdigit S = true -> forallb isdigit F = true ->
  (length S <= 308)%nat ->
  (decimal S F < inject_Z float_overflow_bound)%Q.
Proof.
  intros HS HF L. rewrite decimal_value.
  assert (HSF : forallb isdigit (S ++ F) = true)
    by (rewrite forallb_app, HS, HF; reflexivity).
  pose proof (int_of_digits_range (S ++ F) HSF) as R.
  rewrite length_app, Nat2Z.inj_add, Z.pow_add_r in R by lia.
  set (d := 10 ^ Z.of_nat (length F)) in *.
  assert (D : 0 < d) by (apply Z.pow_pos_nonneg; lia).
  assert (P : 10 ^ Z.of_nat (length S) <= 10 ^ 308)
    by (apply Z.pow_le_mono_r; lia).
  assert (B : 10 ^ 308 < float_overflow_bound) by reflexivity.
  apply Qlt_shift_div_r.
  - change 0%Q with (inject_Z 0). now rewrite <- Zlt_Qlt.
  - rewrite <- inject_Z_mult, <- Zlt_Qlt. nia.
Qed.

Lemma py_float_with_fraction (S F : str) :
  forallb isdigit S = true -> (1 <= length S <= 308)%nat ->
  forallb isdigit F = true ->
  py_float (S ++ "."%char :: F) = Returns (decimal S F).
Proof.
  intros HS LS HF. unfold py_float.
  rewrite (span_digits S ("."%char :: F) HS eq_refl).
  rewrite HF, (float_of_decimal_below _ (decimal_below S F HS HF (proj2 LS))).
  destruct S; [simpl in LS; lia | reflexivity].
Qed.

Lemma float_of_int_in_range (n : Z) :
  0 <= n < float_overflow_bound -> float_of_int n = Returns (inject_Z n).
Proof.
  intros H. unfold float_of_int.
  rewrite Z.abs_eq by lia. destruct (Z.ltb_spec n float_overflow_bound); [reflexivity | lia].
Qed.

(** An integer below 2^53 is a double. *)
Lemma nearest_double_small (n : Z) :
  0 <= n < 2 ^ 53 -> nearest_double n = n.
Proof.
  intros H. unfold nearest_double.
  assert (L : Z.log2 n - 52 <= 0).
  { destruct (Z.eq_dec n 0) as [->|N]; [simpl; lia|].
    assert (Z.log2 n < 53) by (apply Z.log2_lt_pow2; lia). lia. }
  apply Z.leb_le in L. now rewrite L.
Qed.

(** The minutes form [M:S.F], parsed. *)
Lemma parse_minutes_form (M S F : str) :
  forallb isdigit M = true -> M <> [] ->
  forallb isdigit S = true -> (1 <= length S <= 2)%nat ->
  forallb isdigit F = true -> F <> [] ->
  (length M <= int_max_str_digits)%nat ->
  int_of_digits M < 2 ^ 53 ->
  parse_time_to_seconds (Some (M ++ ":"%char :: S ++ "."%char :: F))
  = Returns (Some (fadd (fmul (inject_Z (int_of_digits M)) (60 # 1)%Q)
                        (decimal S F))).
Proof.
  intros HM NM HS LS HF NF LM B. unfold parse_time_to_seconds.
  rewrite strip_no_space.
  2:{ rewrite forallb_app, (no_space_digits M HM). simpl.
      rewrite forallb_app, (no_space_digits S HS). simpl.
      apply (no_space_digits F HF). }
  unfold match_strict.
  rewrite (span_digits M (":"%char :: S ++ "."%char :: F) HM eq_refl).
  destruct M as [|m M]; [contradiction|].
  rewrite (match_seconds_with_fraction S F HS LS HF NF). simpl andb. cbv iota beta.
  unfold py_int. apply Nat.leb_le in LM. rewrite LM. cbn [bind].
  rewrite py_float_with_fraction; auto; [|lia].
  pose proof (int_of_digits_range (m :: M) HM) as R.
  assert (B53 : 2 ^ 53 * 60 < float_overflow_bound) by reflexivity.
  rewrite float_of_int_in_range by lia. cbn [bind].
  rewrite nearest_double_small by lia.
  destruct (Z.leb_spec float_overflow_bound (int_of_digits (m :: M) * 60));
    [lia | reflexivity].
Qed.

End ParseFacts.

Section FormatFacts.

Lemma round_half_even_comp (q q' : Q) :
  (q == q')%Q -> round_half_even q = round_half_even q'.
Proof.
  intros H. unfold round_half_even.
  rewrite (Qfloor_comp q q' H).
  assert (E : (q - inject_Z (Qfloor q') == q' - inject_Z (Qfloor q'))%Q)
    by now rewrite H.
  now rewrite (Qcompare_comp _ _ E (1 # 2)%Q (1 # 2)%Q (Qeq_refl _)).
Qed.

Lemma round_half_even_inject_Z (z : Z) : round_half_even (inject_Z z) = z.
Proof.
  unfold round_half_even. rewrite Qfloor_Z.
  assert (L : Qcompare (inject_Z z - inject_Z z)%Q (1 # 2)%Q = Lt).
  { apply Qlt_alt.
    assert (E : (inject_Z z - inject_Z z == 0)%Q) by ring.
    rewrite E. reflexivity. }
  now rewrite L.
Qed.

Lemma zero_pad_app (w : nat) (x y : str) :
  zero_pad (w + length y) (x ++ y) = zero_pad w x ++ y.
Proof.
  unfold zero_pad. rewrite length_app, <- app_assoc.
  now replace (w + length y - (length x + length y))%nat
    with (w - length x)%nat by lia.
Qed.

Lemma floordiv_60 (v : Q) (t : Z) :
  (v == t # 1000)%Q -> floordiv v (60 # 1)%Q = t / 60000.
Proof.
  intros H. unfold floordiv.
  assert (E : (v / (60 # 1) == t # 60000)%Q).
  { rewrite H. unfold Qeq, Qdiv, Qmult, Qinv. cbn [Qnum Qden]. lia. }
  now rewrite (Qfloor_comp _ _ E).
Qed.

End FormatFacts.

(** C10: the minutes form has no range check on its seconds field, and the
    text [M:S.F] with a seconds field of 60 or more is parsed to
    [minutes * 60 + seconds] as long as the minutes field has at most 14
    digits, so that [minutes * 60] is a whole number below 2^53 and exact in
    a float; "1:99.5" gives 159.5.  It does not hold for every such text: with
    309 nines as minutes the call raises [OverflowError], by the unguarded
    [minutes * 60.0] that also breaks C3. *)
Theorem parse_time_no_range_check_on_seconds :
  parse_time_to_seconds (Some (repeat "9"%char 309 ++ lit ":99.5"))
  = Raises OverflowError /\
  parse_time_to_seconds (Some (lit "1:99.5")) = Returns (Some (319 # 2)%Q) /\
  forall M S F : str,
    forallb isdigit M = true -> (1 <= length M <= 14)%nat ->
    forallb isdigit S = true -> (1 <= length S <= 2)%nat ->
    forallb isdigit F = true -> F <> [] ->
    60 <= int_of_digits S ->
    exists v : float,
      parse_time_to_seconds (Some (M ++ ":"%char :: S ++ "."%char :: F))
      = Returns (Some v) /\
      (v == inject_Z (int_of_digits M) * (60 # 1) + decimal S F)%Q /\
      (60 # 1 <= decimal S F)%Q /\
      int_of_digits M * 60 < 2 ^ 53.
Proof.
  split; [vm_compute; reflexivity|]. split; [reflexivity|].
  intros M S F HM LM HS LS HF NF R.
  pose proof (int_of_digits_range M HM) as RM.
  assert (BM : int_of_digits M < 10 ^ 14).
  { destruct RM as [_ RM]. eapply Z.lt_le_trans; [exact RM|].
    apply Z.pow_le_mono_r; lia. }
  eexists. split.
  { apply parse_minutes_form; auto.
    - destruct M; simpl in LM; [lia | discriminate].
    - unfold int_max_str_digits. lia.
    - assert (B : 10 ^ 14 < 2 ^ 53) by reflexivity. lia. }
  split; [|split].
  - unfold fadd, fmul. now rewrite !Qred_correct.
  - rewrite decimal_value, int_of_digits_app.
    pose proof (int_of_digits_range F HF) as RF.
    set (d := 10 ^ Z.of_nat (length F)) in *.
    assert (D : 0 < d) by (apply Z.pow_pos_nonneg; lia).
    apply Qle_shift_div_l.
    + change 0%Q with (inject_Z 0). now rewrite <- Zlt_Qlt.
    + change (60 # 1)%Q with (inject_Z 60).
      rewrite <- inject_Z_mult, <- Zle_Qle. nia.
  - assert (B : 10 ^ 14 * 60 < 2 ^ 53) by reflexivity. lia.
Qed.

Section RoundTripFacts.

(** Formatting the value of a time of [m] minutes and [k] thousandths of a
    second, [k] below one minute. *)
Lemma seconds_to_duration_of_thousandths (v : float) (m k : Z) :
  0 <= m -> 0 <= k < 60000 ->
  (v == (60000 * m + k) # 1000)%Q ->
  seconds_to_duration (Some v) 3
  = format_02d m ++ ":"%char ::
    zero_pad 2 (str_of_N (Z.to_N (k / 1000))) ++ "."%char ::
    fixed_digits 3 (k mod 1000).
Proof.
  intros Hm Hk Hv. unfold seconds_to_duration. simpl Nat.eqb. cbv iota.
  assert (Fl : floordiv v (60 # 1)%Q = m).
  { rewrite (floordiv_60 v (60000 * m + k) Hv).
    symmetry. apply Z.div_unique with (r := k); lia. }
  rewrite Fl. f_equal. f_equal.
  assert (R : (fmod v (60 # 1) * inject_Z (10 ^ Z.of_nat 3) == inject_Z k)%Q).
  { unfold fmod, fsub, fmul. rewrite Fl, !Qred_correct, Hv.
    change (10 ^ Z.of_nat 3) with 1000.
    unfold Qeq, Qminus, Qplus, Qmult, Qopp, inject_Z.
    cbn [Qnum Qden]. lia. }
  unfold format_fixed.
  rewrite (round_half_even_comp _ _ R), round_half_even_inject_Z.
  change (10 ^ Z.of_nat 3) with 1000.
  assert (L : length ("."%char :: fixed_digits 3 (k mod 1000)) = 4%nat)
    by reflexivity.
  change 6%nat with (2 + 4)%nat. rewrite <- L at 1.
  apply zero_pad_app.
Qed.

Lemma format_02d_nonneg (z : Z) :
  0 <= z -> format_02d z = zero_pad 2 (str_of_N (Z.to_N z)).
Proof.
  intros H. unfold format_02d.
  destruct (Z.ltb_spec z 0); [lia | reflexivity].
Qed.

Lemma small_below_overflow_bound : 100 < 2 ^ 53.
Proof. reflexivity. Qed.

End RoundTripFacts.

(** C4: for a time text [M:S.F] with one or two minute digits, one or two
    second digits that read less than 60 and exactly three fraction digits,
    parsing and then formatting with three decimals gives the normal form of
    the text: minutes and seconds filled with zeros to two digits, the
    fraction unchanged.  A text that is all of the shape MM:SS.sss comes back
    as it is. *)
Theorem format_parse_round_trip (M S F : str) :
  forallb isdigit M = true -> (1 <= length M <= 2)%nat ->
  forallb isdigit S = true -> (1 <= length S <= 2)%nat ->
  forallb isdigit F = true -> length F = 3%nat ->
  int_of_digits S < 60 ->
  exists v : float,
    parse_time_to_seconds (Some (M ++ ":"%char :: S ++ "."%char :: F))
    = Returns (Some v) /\
    seconds_to_duration (Some v) 3
    = zero_pad 2 M ++ ":"%char :: zero_pad 2 S ++ "."%char :: F /\
    (length M = 2%nat -> length S = 2%nat ->
     seconds_to_duration (Some v) 3 = M ++ ":"%char :: S ++ "."%char :: F).
Proof.
  intros HM LM HS LS HF LF R.
  pose proof (int_of_digits_range M HM) as RM.
  pose proof (int_of_digits_range S HS) as RS.
  pose proof (int_of_digits_range F HF) as RF.
  rewrite LF in RF. change (10 ^ Z.of_nat 3) with 1000 in RF.
  assert (BM : int_of_digits M < 100).
  { destruct RM as [_ RM]. eapply Z.lt_le_trans; [exact RM|].
    change 100 with (10 ^ 2). apply Z.pow_le_mono_r; lia. }
  eexists. split.
  { apply parse_minutes_form; auto.
    - destruct M; simpl in LM; [lia | discriminate].
    - destruct F; [discriminate | discriminate].
    - unfold int_max_str_digits. lia.
    - pose proof small_below_overflow_bound. lia. }
  set (v := fadd _ _).
  assert (E : seconds_to_duration (Some v) 3
              = zero_pad 2 M ++ ":"%char :: zero_pad 2 S ++ "."%char :: F).
  { rewrite (seconds_to_duration_of_thousandths v (int_of_digits M)
               (1000 * int_of_digits S + int_of_digits F)); try lia.
    - rewrite (format_02d_int_of_digits M HM LM).
      replace ((1000 * int_of_digits S + int_of_digits F) / 1000)
        with (int_of_digits S)
        by (apply Z.div_unique with (r := int_of_digits F); lia).
      replace ((1000 * int_of_digits S + int_of_digits F) mod 1000)
        with (int_of_digits F)
        by (apply Z.mod_unique with (q := int_of_digits S); lia).
      rewrite <- (format_02d_nonneg (int_of_digits S)) by lia.
      rewrite (format_02d_int_of_digits S HS LS).
      rewrite <- LF at 1. now rewrite (fixed_digits_int_of_digits F HF).
    - unfold v, fadd, fmul. rewrite !Qred_correct, decimal_value.
      rewrite int_of_digits_app, LF.
      change (10 ^ Z.of_nat 3) with 1000.
      unfold Qeq, Qdiv, Qplus, Qmult, Qinv, inject_Z.
      cbn [Qnum Qden]. lia. }
  split; [exact E|].
  intros L2M L2S. rewrite E. unfold zero_pad. rewrite L2M, L2S. reflexivity.
Qed.

Lemma format_parse_round_trip_witness :
  (exists v : float,
     parse_time_to_seconds (Some (lit "01:39.289")) = Returns (Some v) /\
     seconds_to_duration (Some v) 3 = lit "01:39.289" /\
     (length (lit "01") = 2%nat -> length (lit "39") = 2%nat ->
      seconds_to_duration (Some v) 3 = lit "01:39.289")) /\
  parse_time_to_seconds (Some (lit "01:39.289"))
  = Returns (Some (99289 # 1000)%Q) /\
  seconds_to_duration (Some (99289 # 1000)%Q) 3 = lit "01:39.289".
Proof.
  split; [|split; reflexivity].
  apply (format_parse_round_trip (lit "01") (lit "39") (lit "289"));
    try reflexivity; simpl; lia.
Defined.

Section TotalityFacts.

Lemma float_of_decimal_returns (q : Q) :
  float_of_decimal q = Returns q \/ float_of_decimal q = ReturnsInf.
Proof.
  unfold float_of_decimal.
  destruct (Qle_bool (inject_Z float_overflow_bound) q); auto.
Qed.

(** [float] accepts every numeral: it returns a number or an infinity. *)
Lemma py_float_numeral (t : str) :
  numeral t -> (exists v, py_float t = Returns v) \/ py_float t = ReturnsInf.
Proof.
  intros [ip [fr [N [Hi [Hf [->| ->]]]]]]; unfold py_float.
  - rewrite <- (app_nil_r ip), (span_digits ip [] Hi I).
    destruct ip; [contradiction|].
    destruct (float_of_decimal_returns (decimal (a :: ip) [])) as [->| ->];
      [left; eexists; reflexivity | now right].
  - rewrite (span_digits ip ("."%char :: fr) Hi eq_refl).
    destruct ip; [contradiction|]. rewrite Hf.
    change (Ascii.eqb "." "." && true) with true. cbv iota.
    destruct (float_of_decimal_returns (decimal (a :: ip) fr)) as [->| ->];
      [left; eexists; reflexivity | now right].
Qed.

Lemma span_app (p : ascii -> bool) (s : str) :
  s = fst (span p s) ++ snd (span p s) /\ forallb p (fst (span p s)) = true.
Proof.
  induction s as [|c s [E F]]; simpl; [auto|].
  destruct (p c) eqn:C; [|auto].
  destruct (span p s) as [a b]. simpl in *. rewrite C, F.
  split; [now rewrite <- E | reflexivity].
Qed.

(** What [match_seconds] accepts is a numeral. *)
Lemma match_seconds_numeral (s : str) :
  match_seconds s = true -> numeral s.
Proof.
  unfold match_seconds. destruct (span_app isdigit s) as [E F].
  destruct (span isdigit s) as [ip rest]. simpl in E, F.
  intros H. apply andb_true_iff in H as [H R].
  apply andb_true_iff in H as [L1 _]. apply Nat.leb_le in L1.
  assert (N : ip <> []) by (destruct ip; simpl in L1; [lia | discriminate]).
  destruct rest as [|c fr].
  - exists ip, []. rewrite app_nil_r in E. auto.
  - apply andb_true_iff in R as [R Hf]. apply andb_true_iff in R as [R _].
    apply Ascii.eqb_eq in R. subst c. exists ip, fr. auto.
Qed.

Lemma match_strict_numeral (s sec : str) (g : option str) :
  match_strict s = Some (g, sec) -> numeral sec.
Proof.
  unfold match_strict. destruct (span isdigit s) as [ds rest].
  destruct ds as [|d ds].
  - destruct (match_seconds s) eqn:E; [|discriminate].
    intros H. injection H as _ <-. now apply match_seconds_numeral.
  - destruct rest as [|c rest'].
    + destruct (match_seconds s) eqn:E; [|discriminate].
      intros H. injection H as _ <-. now apply match_seconds_numeral.
    + destruct (Ascii.eqb c ":" && match_seconds rest') eqn:E.
      * intros H. injection H as _ <-.
        apply andb_true_iff in E as [_ E]. now apply match_seconds_numeral.
      * destruct (match_seconds s) eqn:E2; [|discriminate].
        intros H. injection H as _ <-. now apply match_seconds_numeral.
Qed.

Lemma match_strict_minutes (s sec M : str) :
  match_strict s = Some (Some M, sec) -> forallb isdigit M = true.
Proof.
  unfold match_strict. destruct (span_app isdigit s) as [_ F].
  destruct (span isdigit s) as [ds rest]. simpl in F.
  destruct ds as [|d ds].
  - destruct (match_seconds s); discriminate.
  - destruct rest as [|c rest'].
    + destruct (match_seconds s); discriminate.
    + destruct (Ascii.eqb c ":" && match_seconds rest').
      * intros H. now injection H as <- _.
      * destruct (match_seconds s); discriminate.
Qed.

(** Every match of the scan is a numeral. *)
Lemma findall_from_numeral (s : str) (st : scan) :
  scan_ok st -> forall tok, In tok (findall_from st s) -> numeral tok.
Proof.
  revert st. induction s as [|c s IH]; intros st Ok tok H.
  - destruct st as [|t|t]; simpl in H.
    + destruct H.
    + destruct H as [<-|[]]. destruct Ok as [N D].
      exists (rev t), []. auto.
    + destruct H as [<-|[]]. destruct Ok as [ip [fr [E [N [Di Df]]]]].
      exists ip, fr. auto.
  - destruct st as [|t|t]; simpl in H.
    + destruct (isdigit c) eqn:D.
      * apply (IH (InInt [c])); [|exact H]. simpl. split; [discriminate|].
        now rewrite D.
      * now apply (IH Outside).
    + destruct Ok as [N Dt]. destruct (isdigit c) eqn:D.
      * apply (IH (InInt (c :: t))); [|exact H]. simpl. split.
        -- intros E. now apply app_eq_nil in E as [_ E].
        -- rewrite forallb_app, Dt. simpl. now rewrite D.
      * destruct (Ascii.eqb c ".") eqn:P.
        -- apply Ascii.eqb_eq in P. subst c.
           apply (IH (InFrac ("."%char :: t))); [|exact H].
           exists (rev t), []. simpl. auto.
        -- destruct H as [<-|H]; [|now apply (IH Outside)].
           exists (rev t), []. auto.
    + destruct Ok as [ip [fr [E [N [Di Df]]]]]. destruct (isdigit c) eqn:D.
      * apply (IH (InFrac (c :: t))); [|exact H].
        exists ip, (fr ++ [c]). simpl. rewrite E, <- app_assoc. simpl.
        rewrite forallb_app, Df. simpl. rewrite D. auto.
      * destruct H as [<-|H]; [|now apply (IH Outside)].
        exists ip, fr. auto.
Qed.

(** [parse_time_to_seconds] raises in two cases only, both on a text of the
    minutes form: [ValueError] when the minutes field has more digits than
    [int] accepts, and [OverflowError] when it has not but reads a number
    beyond the float range.  On every other input it returns. *)
Lemma parse_time_raises_only_for_huge_minutes (t : option str) (e : exn) :
  parse_time_to_seconds t = Raises e <->
  exists (s M sec : str),
    t = Some s /\ match_strict (strip s) = Some (Some M, sec) /\
    ((e = ValueError /\ (4300 < length M)%nat) \/
     (e = OverflowError /\ (length M <= 4300)%nat /\
      2 ^ 1024 - 2 ^ 970 <= int_of_digits M)).
Proof.
  split.
  - destruct t as [s|]; simpl; [|discriminate].
    destruct (match_strict (strip s)) as [[g sec]|] eqn:E.
    + destruct g as [M|].
      2:{ cbn [bind].
          destruct (py_float_numeral sec (match_strict_numeral _ _ _ E))
            as [[v ->]| ->]; cbn; discriminate. }
      unfold py_int, int_max_str_digits.
      destruct (Nat.leb_spec (length M) 4300) as [L|L]; cbn [bind].
      * pose proof (int_of_digits_range M (match_strict_minutes _ _ _ E)) as R.
        assert (K : float_of_int (int_of_digits M) = Raises e ->
                    e = OverflowError /\
                    2 ^ 1024 - 2 ^ 970 <= int_of_digits M).
        { unfold float_of_int.
          destruct (Z.ltb_spec (Z.abs (int_of_digits M)) float_overflow_bound)
            as [B|B]; [discriminate|].
          intros H. injection H as <-. split; [reflexivity|].
          unfold float_overflow_bound in B. lia. }
        intros H.
        assert (F : float_of_int (int_of_digits M) = Raises e).
        { destruct (py_float_numeral sec (match_strict_numeral _ _ _ E))
            as [[v Ev]|Ev]; rewrite Ev in H;
            destruct (float_of_int (int_of_digits M)) as [a|e0|];
            cbn [bind] in H;
            first [ discriminate H
                  | injection H as ->; reflexivity
                  | destruct (float_overflow_bound <=? _) in H;
                    discriminate H ]. }
        destruct (K F) as [-> B].
        exists s, M, sec. split; [reflexivity|]. split; [exact E|].
        right. auto.
      * intros H. injection H as <-.
        exists s, M, sec. split; [reflexivity|]. split; [exact E|].
        left. split; [reflexivity | exact L].
    + destruct (findall_numbers (strip s)) as [|num [|]] eqn:F;
        try discriminate.
      assert (N : numeral num).
      { apply (findall_from_numeral (strip s) Outside I).
        fold (findall_numbers (strip s)). rewrite F. now left. }
      destruct (py_float_numeral num N) as [[v ->]| ->]; discriminate.
  - intros [s [M [sec [-> [E C]]]]]. simpl. rewrite E.
    unfold py_int, int_max_str_digits.
    destruct C as [[-> L]|[-> [L B]]].
    + destruct (Nat.leb_spec (length M) 4300); [lia | reflexivity].
    + destruct (Nat.leb_spec (length M) 4300); [|lia]. cbn [bind].
      pose proof (int_of_digits_range M (match_strict_minutes _ _ _ E)) as R.
      assert (F : float_of_int (int_of_digits M) = Raises OverflowError).
      { unfold float_of_int.
        destruct (Z.ltb_spec (Z.abs (int_of_digits M)) float_overflow_bound)
          as [B'|B']; [|reflexivity].
        unfold float_overflow_bound in B'. lia. }
      destruct (py_float_numeral sec (match_strict_numeral _ _ _ E))
        as [[v ->]| ->]; now rewrite F.
Qed.

End TotalityFacts.

(** C3, the input on which the code departs from it: a time text whose
    minutes field is too large for a float is not answered with an absent
    value; [minutes * 60.0] raises [OverflowError]. *)
Theorem parse_time_raises_on_huge_minutes :
  parse_time_to_seconds (Some (repeat "9"%char 309 ++ lit ":00"))
  = Raises OverflowError.
Proof. vm_compute. reflexivity. Qed.

(** [seconds_to_duration] at both precisions, and on a missing value. *)
Lemma seconds_to_duration_examples :
  seconds_to_duration (Some (99289 # 1000)%Q) 3 = lit "01:39.289" /\
  seconds_to_duration (Some (99289 # 1000)%Q) 1 = lit "01:39.3" /\
  seconds_to_duration (Some (11 # 2)%Q) 3 = lit "00:05.500" /\
  seconds_to_duration None 3 = lit "".
Proof. repeat split; reflexivity. Qed.

(** The values the specification lists for [parse_time_to_seconds]. *)
Lemma parse_time_examples :
  parse_time_to_seconds (Some (lit "1:05.5")) = Returns (Some (131 # 2)%Q) /\
  parse_time_to_seconds (Some (lit "5.5")) = Returns (Some (11 # 2)%Q) /\
  parse_time_to_seconds (Some (lit "")) = Returns None /\
  parse_time_to_seconds None = Returns None /\
  parse_time_to_seconds (Some (lit "abc")) = Returns None /\
  parse_time_to_seconds (Some (lit "lap 12.5 s")) = Returns (Some (25 # 2)%Q) /\
  parse_time_to_seconds (Some (lit "1:2:3")) = Returns None.
Proof. repeat split; reflexivity. Qed.

(** Where the result is an infinity: a number text beyond the float range,
    and minutes that a float can hold but whose product with 60 it
    cannot. *)
Lemma parse_time_infinities :
  parse_time_to_seconds (Some (repeat "9"%char 400)) = ReturnsInf /\
  parse_time_to_seconds (Some (repeat "9"%char 308 ++ lit ":00"))
  = ReturnsInf /\
  parse_time_to_seconds (Some (repeat "9"%char 308)) <> ReturnsInf.
Proof.
  split; [vm_compute; reflexivity|]. split; [vm_compute; reflexivity|].
  vm_compute. discriminate.
Qed.

(* ---------------------------------------------------------------------- *)
(** ** Minima of series                                                    *)
(* ---------------------------------------------------------------------- *)

Section SeriesFacts.

Lemma flt_lt (a b : float) : flt a b = true <-> (a < b)%Q.
Proof.
  unfold flt. rewrite negb_true_iff. split.
  - intros H. apply Qnot_le_lt. intros L.
    apply Qle_bool_iff in L. congruence.
  - intros H. destruct (Qle_bool b a) eqn:E; [|reflexivity].
    apply Qle_bool_iff in E. exfalso. now apply (Qlt_not_le a b).
Qed.

Lemma flt_ge (a b : float) : flt a b = false <-> (b <= a)%Q.
Proof.
  unfold flt. rewrite negb_false_iff. apply Qle_bool_iff.
Qed.

Lemma fmin_cases (a b : float) :
  (fmin a b = a /\ (a <= b)%Q) \/ (fmin a b = b /\ (b < a)%Q).
Proof.
  unfold fmin. destruct (flt b a) eqn:E.
  - right. split; [reflexivity | now apply flt_lt].
  - left. split; [reflexivity | now apply flt_ge].
Qed.

Lemma fmax_cases (a b : float) :
  (fmax a b = a /\ (b <= a)%Q) \/ (fmax a b = b /\ (a < b)%Q).
Proof.
  unfold fmax. destruct (flt a b) eqn:E.
  - right. split; [reflexivity | now apply flt_lt].
  - left. split; [reflexivity | now apply flt_ge].
Qed.

Lemma series_min_snoc (l : list float) (x : float) :
  series_min (l ++ [x])
  = Some (match series_min l with Some m => fmin m x | None => x end).
Proof.
  destruct l as [|t ts]; [reflexivity|].
  simpl. now rewrite fold_left_app.
Qed.

Lemma series_max_snoc (l : list float) (x : float) :
  series_max (l ++ [x])
  = Some (match series_max l with Some m => fmax m x | None => x end).
Proof.
  destruct l as [|t ts]; [reflexivity|].
  simpl. now rewrite fold_left_app.
Qed.

(** The minimum of a series is one of its values and bounds them all. *)
Lemma series_min_spec (l : list float) (m : float) :
  series_min l = Some m -> In m l /\ forall x, In x l -> (m <= x)%Q.
Proof.
  revert m. induction l as [|x l IH] using rev_ind; intros m H.
  - discriminate H.
  - rewrite series_min_snoc in H. injection H as <-.
    destruct (series_min l) as [m'|] eqn:E.
    + destruct (IH m' eq_refl) as [I B].
      destruct (fmin_cases m' x) as [[-> L]|[-> L]]; split.
      * apply in_or_app. now left.
      * intros y Hy. apply in_app_or in Hy as [Hy|[<-|[]]]; auto.
      * apply in_or_app. right. now left.
      * intros y Hy. apply in_app_or in Hy as [Hy|[<-|[]]].
        -- apply Qlt_le_weak. eapply Qlt_le_trans; [exact L | now apply B].
        -- apply Qle_refl.
    + destruct l; [|discriminate E]. split; [now left|].
      intros y [<-|[]]. apply Qle_refl.
Qed.

Lemma series_max_spec (l : list float) (m : float) :
  series_max l = Some m -> In m l /\ forall x, In x l -> (x <= m)%Q.
Proof.
  revert m. induction l as [|x l IH] using rev_ind; intros m H.
  - discriminate H.
  - rewrite series_max_snoc in H. injection H as <-.
    destruct (series_max l) as [m'|] eqn:E.
    + destruct (IH m' eq_refl) as [I B].
      destruct (fmax_cases m' x) as [[-> L]|[-> L]]; split.
      * apply in_or_app. now left.
      * intros y Hy. apply in_app_or in Hy as [Hy|[<-|[]]]; auto.
      * apply in_or_app. right. now left.
      * intros y Hy. apply in_app_or in Hy as [Hy|[<-|[]]].
        -- apply Qlt_le_weak. eapply Qle_lt_trans; [now apply B | exact L].
        -- apply Qle_refl.
    + destruct l; [|discriminate E]. split; [now left|].
      intros y [<-|[]]. apply Qle_refl.
Qed.

Lemma series_min_None (l : list float) : series_min l = None <-> l = [].
Proof. destruct l; simpl; split; congruence. Qed.

End SeriesFacts.

(* ---------------------------------------------------------------------- *)
(** ** Grouping by brand                                                   *)
(* ---------------------------------------------------------------------- *)

Section GroupFacts.

Lemma lookup_below_keys {V} (b : str) (d : list (str * V)) :
  Forall (str_lt b) (map fst d) -> lookup b d = None.
Proof.
  induction d as [|[k v] d IH]; simpl; intros H; [reflexivity|].
  inversion H as [|? ? Hk Hd]; subst.
  destruct (str_eqb b k) eqn:E.
  - apply str_eqb_eq in E. subst k. now apply str_lt_irrefl in Hk.
  - now apply IH.
Qed.

Lemma lookup_In {V} (b : str) (v : V) (d : list (str * V)) :
  lookup b d = Some v -> In (b, v) d.
Proof.
  induction d as [|[k w] d IH]; simpl; [discriminate|].
  destruct (str_eqb b k) eqn:E.
  - apply str_eqb_eq in E. subst k. intros H. injection H as ->. now left.
  - intros H. right. now apply IH.
Qed.

Lemma lookup_None_keys {V} (b : str) (d : list (str * V)) :
  lookup b d = None <-> ~ In b (map fst d).
Proof.
  induction d as [|[k w] d IH]; simpl; [tauto|].
  destruct (str_eqb b k) eqn:E.
  - apply str_eqb_eq in E. subst k. split; [discriminate | tauto].
  - apply str_eqb_neq in E. rewrite IH. split; [|tauto].
    intros H [K|K]; [congruence | tauto].
Qed.

Lemma In_lookup {V} (b : str) (v : V) (d : list (str * V)) :
  NoDup (map fst d) -> In (b, v) d -> lookup b d = Some v.
Proof.
  induction d as [|[k w] d IH]; simpl; intros N H; [destruct H|].
  inversion N as [|? ? Nk Nd]; subst.
  destruct H as [H|H].
  - injection H as -> ->. now rewrite str_eqb_refl.
  - destruct (str_eqb b k) eqn:E; [|now apply IH].
    apply str_eqb_eq in E. subst k. elim Nk.
    change b with (fst (b, v)). now apply in_map.
Qed.

Lemma str_lt_NoDup (l : list str) : StronglySorted str_lt l -> NoDup l.
Proof.
  induction 1 as [|a l S IH F]; constructor; [|exact IH].
  intros H. rewrite Forall_forall in F.
  now apply (str_lt_irrefl a), F.
Qed.

Lemma insert_group_keys (b : str) (t : float) (g : list (str * float)) :
  forall k, In k (map fst (insert_group b t g)) -> k = b \/ In k (map fst g).
Proof.
  induction g as [|[k' m] g IH]; simpl; intros k H.
  - destruct H as [<-|[]]. now left.
  - destruct (str_compare b k') eqn:C; simpl in H.
    + tauto.
    + destruct H as [<-|H]; tauto.
    + destruct H as [<-|H]; [tauto|]. apply IH in H. tauto.
Qed.

(** What [insert_group] does to the groups: the key order is kept and only
    the group of the new row changes. *)
Lemma insert_group_spec (b : str) (t : float) (g : list (str * float)) :
  keys_ascending g ->
  keys_ascending (insert_group b t g) /\
  forall k, lookup k (insert_group b t g)
            = if str_eqb k b
              then Some (match lookup b g with
                         | Some m => fmin m t
                         | None => t
                         end)
              else lookup k g.
Proof.
  unfold keys_ascending.
  induction g as [|[k' m] g IH]; simpl; intros S.
  - split; [repeat constructor|]. intros k. now destruct (str_eqb k b).
  - inversion S as [|? ? S' F]; subst.
    destruct (str_compare b k') eqn:C.
    + apply str_compare_eq in C. subst k'. rewrite str_eqb_refl.
      split; [exact S|]. intros k. simpl.
      destruct (str_eqb k b) eqn:E; reflexivity.
    + assert (Fb : Forall (str_lt b) (k' :: map fst g)).
      { constructor; [exact C|].
        rewrite Forall_forall in F |- *. intros x Hx.
        eapply str_lt_trans; [exact C | now apply F]. }
      split; [simpl; now constructor|].
      intros k. simpl.
      assert (N : lookup b ((k', m) :: g) = None)
        by now apply lookup_below_keys.
      simpl in N. rewrite N.
      destruct (str_eqb k b) eqn:E; reflexivity.
    + apply str_lt_gt in C.
      assert (NE : str_eqb b k' = false).
      { apply str_eqb_neq. intros ->. now apply str_lt_irrefl in C. }
      rewrite NE. destruct (IH S') as [S2 L2]. split.
      * simpl. constructor; [exact S2|].
        rewrite Forall_forall in F |- *. intros x Hx.
        apply insert_group_keys in Hx as [->|Hx]; [exact C | now apply F].
      * intros k. simpl. rewrite L2.
        destruct (str_eqb k k') eqn:E1; [|reflexivity].
        apply str_eqb_eq in E1. subst k.
        rewrite (proj2 (str_eqb_neq k' b)); [reflexivity|].
        intros ->. now apply str_lt_irrefl in C.
Qed.

Lemma groupby_min_snoc (df : data_frame) (r : row) :
  groupby_min (df ++ [r])
  = insert_group (Brand r) (Time_sec r) (groupby_min df).
Proof. unfold groupby_min. now rewrite fold_left_app. Qed.

(** The grouped series: ascending keys, and under each brand the minimum of
    the times of its rows. *)
Lemma groupby_min_spec (df : data_frame) :
  keys_ascending (groupby_min df) /\
  forall b, lookup b (groupby_min df)
            = series_min (map Time_sec
                            (filter (fun r => str_eqb (Brand r) b) df)).
Proof.
  induction df as [|r df [S L]] using rev_ind.
  - split; [constructor | reflexivity].
  - rewrite groupby_min_snoc.
    destruct (insert_group_spec (Brand r) (Time_sec r) (groupby_min df) S)
      as [S2 L2].
    split; [exact S2|]. intros b. rewrite L2, filter_app, map_app. simpl.
    destruct (str_eqb b (Brand r)) eqn:E.
    + apply str_eqb_eq in E. subst b. rewrite str_eqb_refl. simpl.
      now rewrite series_min_snoc, L.
    + apply str_eqb_neq in E.
      rewrite (proj2 (str_eqb_neq (Brand r) b)) by congruence.
      simpl. now rewrite app_nil_r, L.
Qed.

Lemma filter_brand_nonempty (df : data_frame) (b : str) :
  filter (fun r => str_eqb (Brand r) b) df <> [] <->
  exists r, In r df /\ Brand r = b.
Proof.
  split.
  - destruct (filter _ df) as [|r l] eqn:E; [congruence|]. intros _.
    assert (H : In r (filter (fun r => str_eqb (Brand r) b) df))
      by (rewrite E; now left).
    apply filter_In in H as [H1 H2]. apply str_eqb_eq in H2. now exists r.
  - intros [r [H1 H2]] E.
    assert (H : In r (filter (fun r => str_eqb (Brand r) b) df)).
    { apply filter_In. split; [exact H1 | now apply str_eqb_eq]. }
    now rewrite E in H.
Qed.

(** The group keys are the brands of the frame. *)
Lemma groupby_min_keys (df : data_frame) (b : str) :
  In b (map fst (groupby_min df)) <-> exists r, In r df /\ Brand r = b.
Proof.
  destruct (groupby_min_spec df) as [_ L].
  rewrite <- filter_brand_nonempty. specialize (L b).
  destruct (In_dec str_eq_dec b (map fst (groupby_min df))) as [I|N].
  - split; [|tauto]. intros _ E.
    apply lookup_None_keys in I; [exact I|]. rewrite L, E. reflexivity.
  - split; [tauto|]. intros H. exfalso. apply H.
    apply lookup_None_keys in N. rewrite L in N.
    apply series_min_None in N. now apply map_eq_nil in N.
Qed.

(** The value grouped under a brand is its fastest time. *)
Lemma groupby_min_value (df : data_frame) (b : str) (m : float) :
  In (b, m) (groupby_min df) -> m = fastest_time df b.
Proof.
  destruct (groupby_min_spec df) as [S L]. intros H.
  apply In_lookup in H; [|now apply str_lt_NoDup].
  unfold fastest_time. rewrite <- L, H. reflexivity.
Qed.

(** The fastest time of a brand that has rows is the time of one of them and
    no row of the brand is faster. *)
Lemma fastest_time_spec (df : data_frame) (b : str) :
  (exists r, In r df /\ Brand r = b) ->
  (exists r, In r df /\ Brand r = b /\ Time_sec r = fastest_time df b) /\
  (forall r, In r df -> Brand r = b ->
             (fastest_time df b <= Time_sec r)%Q).
Proof.
  intros H. apply filter_brand_nonempty in H. unfold fastest_time.
  destruct (series_min _) as [m|] eqn:E.
  - apply series_min_spec in E as [I B]. split.
    + apply in_map_iff in I as [r [Hr I]].
      apply filter_In in I as [I1 I2]. apply str_eqb_eq in I2.
      now exists r.
    + intros r Hr Hb. apply B, in_map, filter_In.
      split; [exact Hr | now apply str_eqb_eq].
  - apply series_min_None in E. apply map_eq_nil in E. contradiction.
Qed.

End GroupFacts.

(* ---------------------------------------------------------------------- *)
(** ** Sorting the grouped series                                          *)
(* ---------------------------------------------------------------------- *)

Section SortFacts.

Lemma insert_by_value_perm (x : str * float) (l : list (str * float)) :
  Permutation (insert_by_value x l) (x :: l).
Proof.
  induction l as [|y l IH]; simpl; [reflexivity|].
  destruct (Qle_bool (snd x) (snd y)); [reflexivity|].
  rewrite IH. apply perm_swap.
Qed.

Lemma sort_values_perm (g : list (str * float)) :
  Permutation (sort_values g) g.
Proof.
  induction g as [|x g IH]; simpl; [reflexivity|].
  rewrite insert_by_value_perm. now constructor.
Qed.

Lemma insert_by_value_ascending (x : str * float) (l : list (str * float)) :
  ascending l -> ascending (insert_by_value x l).
Proof.
  unfold ascending. induction l as [|y l IH]; simpl; intros S.
  - repeat constructor.
  - inversion S as [|? ? S' B]; subst.
    destruct (Qle_bool (snd x) (snd y)) eqn:E.
    + apply Qle_bool_iff in E.
      constructor; [exact S|]. constructor; [exact E|].
      rewrite Forall_forall in B |- *. intros z Hz.
      eapply Qle_trans; [exact E | now apply B].
    + assert (YX : (snd y <= snd x)%Q).
      { apply Qlt_le_weak, Qnot_le_lt. intros L. apply Qle_bool_iff in L.
        congruence. }
      constructor; [now apply IH|].
      rewrite Forall_forall in B |- *. intros z Hz.
      apply (Permutation_in _ (insert_by_value_perm x l)) in Hz.
      destruct Hz as [<-|Hz]; [exact YX | now apply B].
Qed.

(** The routine of the model meets the contract of [sort_values]. *)
Lemma sort_values_sorts_by_value : sorts_by_value sort_values.
Proof.
  intros g. split; [apply sort_values_perm|].
  induction g as [|x g IH]; simpl; [constructor|].
  now apply insert_by_value_ascending.
Qed.

(** Reading the names off a sorted series keeps the order, the values being
    the fastest times. *)
Lemma names_of_sorted (df : data_frame)
    (R : str * float -> str * float -> Prop) (l : list (str * float)) :
  (forall e, In e l -> snd e = fastest_time df (fst e)) ->
  StronglySorted R l ->
  StronglySorted
    (fun b b' => R (b, fastest_time df b) (b', fastest_time df b'))
    (map fst l).
Proof.
  intros V S. induction S as [|x l S IH F]; simpl; constructor.
  - apply IH. intros e He. apply V. now right.
  - rewrite Forall_forall in F |- *. intros b Hb.
    apply in_map_iff in Hb as [y [<- Hy]].
    rewrite <- (V x (or_introl eq_refl)), <- (V y (or_intror Hy)).
    destruct x, y. now apply F.
Qed.

End SortFacts.

(** What holds of the brand order under any sorting routine that returns
    its argument rearranged in ascending order of the values, stable or
    not. *)
Section AnySort.

Variable sort : list (str * float) -> list (str * float).
Hypothesis sort_perm : forall g, Permutation (sort g) g.

Lemma brand_order_with_perm (df : data_frame) :
  Permutation (brand_order_with sort df) (map fst (groupby_min df)).
Proof. unfold brand_order_with. apply Permutation_map, sort_perm. Qed.

Lemma brand_order_with_In (df : data_frame) (b : str) :
  In b (brand_order_with sort df) <-> exists r, In r df /\ Brand r = b.
Proof.
  rewrite <- groupby_min_keys. split; intros H.
  - now apply (Permutation_in _ (brand_order_with_perm df)).
  - now apply (Permutation_in _ (Permutation_sym (brand_order_with_perm df))).
Qed.

Lemma brand_order_with_NoDup (df : data_frame) :
  NoDup (brand_order_with sort df).
Proof.
  apply (Permutation_NoDup (Permutation_sym (brand_order_with_perm df))).
  apply str_lt_NoDup. apply (groupby_min_spec df).
Qed.

Lemma brand_order_with_values (df : data_frame) (e : str * float) :
  In e (sort (groupby_min df)) -> snd e = fastest_time df (fst e).
Proof.
  intros H. destruct e as [b m]. simpl. apply groupby_min_value.
  now apply (Permutation_in _ (sort_perm (groupby_min df))).
Qed.

Hypothesis sort_ascending : forall g, ascending (sort g).

(** Fastest first, whatever the routine does with ties. *)
Lemma brand_order_with_fastest_first (df : data_frame) :
  StronglySorted
    (fun b b' => (fastest_time df b <= fastest_time df b')%Q)
    (brand_order_with sort df).
Proof.
  unfold brand_order_with.
  apply (names_of_sorted df (fun x y => (snd x <= snd y)%Q)).
  - apply brand_order_with_values.
  - apply sort_ascending.
Qed.

(** The example of the specification: BrandA is last, and BrandB and BrandC,
    equally fast, come before it in an order that the contract leaves
    open. *)
Lemma brand_order_with_three_brands :
  exists x y,
    brand_order_with sort three_brands = [x; y; lit "BrandA"] /\
    ((x = lit "BrandB" /\ y = lit "BrandC") \/
     (x = lit "BrandC" /\ y = lit "BrandB")).
Proof.
  unfold brand_order_with.
  set (A := (lit "BrandA", (61 # 1)%Q)).
  set (B := (lit "BrandB", (582 # 10)%Q)).
  set (C := (lit "BrandC", (582 # 10)%Q)).
  change (groupby_min three_brands) with [A; B; C].
  pose proof (sort_perm [A; B; C]) as P.
  pose proof (sort_ascending [A; B; C]) as S.
  destruct (sort [A; B; C]) as [|a [|b [|c [|d l]]]];
    try (apply Permutation_length in P; discriminate P).
  assert (N : NoDup [a; b; c]).
  { apply (Permutation_NoDup (Permutation_sym P)).
    repeat constructor; simpl; intuition discriminate. }
  assert (Ia : In a [A; B; C]) by (apply (Permutation_in _ P); simpl; auto).
  assert (Ib : In b [A; B; C]) by (apply (Permutation_in _ P); simpl; auto).
  assert (Ic : In c [A; B; C]) by (apply (Permutation_in _ P); simpl; auto).
  inversion N as [|? ? Na N']; subst. inversion N' as [|? ? Nb _]; subst.
  inversion S as [|? ? S' Fa]; subst. inversion S' as [|? ? _ Fb]; subst.
  inversion Fa as [|? ? Lab Fa']; subst. inversion Fa' as [|? ? Lac _]; subst.
  inversion Fb as [|? ? Lbc _]; subst.
  apply Qle_bool_iff in Lab, Lac, Lbc.
  simpl in Na, Nb.
  destruct Ia as [<-|[<-|[<-|[]]]]; destruct Ib as [<-|[<-|[<-|[]]]];
    destruct Ic as [<-|[<-|[<-|[]]]];
    try (exfalso; tauto);
    try discriminate Lab; try discriminate Lac; try discriminate Lbc.
  - exists (lit "BrandB"), (lit "BrandC"). split; [reflexivity | now left].
  - exists (lit "BrandC"), (lit "BrandB"). split; [reflexivity | now right].
Qed.

End AnySort.

Section OrderFacts.

Lemma brand_order_In (df : data_frame) (b : str) :
  In b (brand_order df) <-> exists r, In r df /\ Brand r = b.
Proof. apply brand_order_with_In, sort_values_perm. Qed.

Lemma brand_order_NoDup (df : data_frame) : NoDup (brand_order df).
Proof. apply brand_order_with_NoDup, sort_values_perm. Qed.

(** The dictionary of positions gives every brand its place in the list. *)
Lemma lookup_combine_seq (l : list str) (s i : nat) (b : str) :
  NoDup l -> nth_error l i = Some b ->
  lookup b (combine l (seq s (length l))) = Some (s + i)%nat.
Proof.
  revert s i. induction l as [|x l IH]; intros s i N H.
  - destruct i; discriminate H.
  - inversion N as [|? ? Nx Nl]; subst. simpl.
    destruct i as [|i]; simpl in H.
    + injection H as ->. rewrite str_eqb_refl. f_equal. lia.
    + destruct (str_eqb b x) eqn:E.
      * apply str_eqb_eq in E. subst x. elim Nx.
        eapply nth_error_In; eauto.
      * rewrite (IH (S s) i Nl H). f_equal. lia.
Qed.

End OrderFacts.

(** C2, as the code has it.  Whatever routine does the sorting, as long as
    it returns the series rearranged in ascending order of the values, the
    brand order lists every brand of the frame once, each brand standing for
    the fastest time of its rows, and no brand comes after a slower one;
    every brand gets as its slot its position in that order, counted from 0,
    and so does every row through its brand.  The order among equally fast
    brands is left open: in the example of the specification BrandB and
    BrandC come first, in either order, and BrandA last. *)
Theorem brand_order_fastest_first
    (sort : list (str * float) -> list (str * float)) (df : data_frame) :
  sorts_by_value sort ->
  let order := brand_order_with sort df in
  NoDup order /\
  (forall b, In b order <-> exists r, In r df /\ Brand r = b) /\
  (forall b, In b order ->
     (exists r, In r df /\ Brand r = b /\ Time_sec r = fastest_time df b) /\
     (forall r, In r df -> Brand r = b ->
                (fastest_time df b <= Time_sec r)%Q)) /\
  StronglySorted
    (fun b b' => (fastest_time df b <= fastest_time df b')%Q) order /\
  (forall i b, nth_error order i = Some b ->
               lookup b (brand_position order) = Some i) /\
  (forall r, In r df ->
     exists i, Brand_X order r = Some i /\
               nth_error order i = Some (Brand r)) /\
  (exists x y,
     brand_order_with sort three_brands = [x; y; lit "BrandA"] /\
     ((x = lit "BrandB" /\ y = lit "BrandC") \/
      (x = lit "BrandC" /\ y = lit "BrandB"))).
Proof.
  intros C order.
  assert (Pm : forall g, Permutation (sort g) g) by (intros g; apply C).
  assert (As : forall g, ascending (sort g)) by (intros g; apply C).
  assert (N : NoDup order) by now apply brand_order_with_NoDup.
  assert (I : forall b, In b order <-> exists r, In r df /\ Brand r = b)
    by (intros b; now apply brand_order_with_In).
  assert (P : forall i b, nth_error order i = Some b ->
                          lookup b (brand_position order) = Some i).
  { intros i b H. unfold brand_position.
    now rewrite (lookup_combine_seq order 0 i b N H). }
  split; [exact N|]. split; [exact I|].
  split; [intros b Hb; now apply fastest_time_spec, I|].
  split; [now apply brand_order_with_fastest_first|].
  split; [exact P|].
  split; [|now apply brand_order_with_three_brands].
  intros r Hr.
  assert (Ib : In (Brand r) order) by (apply I; now exists r).
  apply In_nth_error in Ib as [i Hi]. exists i.
  split; [now apply P | exact Hi].
Qed.

Lemma brand_order_fastest_first_witness :
  sorts_by_value sort_values /\
  let order := brand_order_with sort_values garage in
  NoDup order /\
  (forall b, In b order <-> exists r, In r garage /\ Brand r = b) /\
  (forall b, In b order ->
     (exists r, In r garage /\ Brand r = b /\
                Time_sec r = fastest_time garage b) /\
     (forall r, In r garage -> Brand r = b ->
                (fastest_time garage b <= Time_sec r)%Q)) /\
  StronglySorted
    (fun b b' => (fastest_time garage b <= fastest_time garage b')%Q)
    order /\
  (forall i b, nth_error order i = Some b ->
               lookup b (brand_position order) = Some i) /\
  (forall r, In r garage ->
     exists i, Brand_X order r = Some i /\
               nth_error order i = Some (Brand r)) /\
  (exists x y,
     brand_order_with sort_values three_brands = [x; y; lit "BrandA"] /\
     ((x = lit "BrandB" /\ y = lit "BrandC") \/
      (x = lit "BrandC" /\ y = lit "BrandB"))).
Proof.
  split; [exact sort_values_sorts_by_value|].
  apply (brand_order_fastest_first sort_values garage
           sort_values_sorts_by_value).
Defined.

(** C2 as stated fails.  With Toyota and Honda equally fast, a stable sort
    over the Record Store order gives Toyota, Honda when Toyota is listed
    first and Honda, Toyota when Honda is.  The code cannot do so: the
    grouping hands both stores to the sort as the same series, keyed in
    ascending order of the names, so that no sorting routine whatever gives
    the store order in both cases. *)
Lemma brand_order_ties_not_in_store_order :
  groupby_min toyota_first = groupby_min honda_first /\
  spec_brand_order toyota_first = [lit "Toyota"; lit "Honda"] /\
  spec_brand_order honda_first = [lit "Honda"; lit "Toyota"] /\
  ~ (exists sort : list (str * float) -> list (str * float),
       brand_order_with sort toyota_first = spec_brand_order toyota_first /\
       brand_order_with sort honda_first = spec_brand_order honda_first).
Proof.
  split; [reflexivity|]. split; [reflexivity|]. split; [reflexivity|].
  intros [sort [H1 H2]].
  assert (E : brand_order_with sort toyota_first
              = brand_order_with sort honda_first) by reflexivity.
  rewrite H1, H2 in E. discriminate E.
Qed.

(* ---------------------------------------------------------------------- *)
(** ** Label widths and the chart width                                    *)
(* ---------------------------------------------------------------------- *)

Section WidthFacts.

Lemma list_max_In_le (l : list nat) (n : nat) :
  In n l -> (n <= list_max l)%nat.
Proof.
  intros H.
  assert (F : Forall (fun k => (k <= list_max l)%nat) l)
    by now apply list_max_le.
  rewrite Forall_forall in F. now apply F.
Qed.

Lemma list_max_attained (l : list nat) : l <> [] -> In (list_max l) l.
Proof.
  induction l as [|x l IH]; [congruence|]. intros _. simpl.
  destruct l as [|y l].
  - left. simpl. lia.
  - destruct (Nat.max_spec x (list_max (y :: l))) as [[_ ->]|[_ ->]].
    + right. apply IH. discriminate.
    + now left.
Qed.

Lemma lookup_map_key {V} (f : str -> V) (l : list str) (b : str) :
  In b l -> lookup b (map (fun k => (k, f k)) l) = Some (f b).
Proof.
  induction l as [|x l IH]; simpl; [tauto|].
  destruct (str_eqb b x) eqn:E.
  - apply str_eqb_eq in E. now subst x.
  - apply str_eqb_neq in E. intros [H|H]; [congruence | now apply IH].
Qed.

(** The width noted for a brand is the length of the longest label among its
    rows. *)
Lemma brand_max_text_width_spec (df : data_frame) (b : str) :
  In b (brand_order df) ->
  exists Wb : nat,
    lookup b (brand_max_text_width df (brand_order df)) = Some Wb /\
    (forall r, In r df -> Brand r = b -> (length (label_text r) <= Wb)%nat) /\
    (exists r, In r df /\ Brand r = b /\ length (label_text r) = Wb).
Proof.
  intros Hb. eexists. split; [|split].
  - unfold brand_max_text_width.
    apply (lookup_map_key
             (fun brand =>
                list_max (map (fun r => length (label_text r))
                            (filter (fun r => str_eqb (Brand r) brand) df)))).
    exact Hb.
  - intros r Hr E. apply list_max_In_le.
    apply (in_map (fun r => length (label_text r))).
    apply filter_In. split; [exact Hr | now apply str_eqb_eq].
  - apply brand_order_In, filter_brand_nonempty in Hb.
    assert (N : map (fun r => length (label_text r))
                  (filter (fun r => str_eqb (Brand r) b) df) <> []).
    { intros E. now apply map_eq_nil in E. }
    apply list_max_attained, in_map_iff in N as [r [E I]].
    apply filter_In in I as [I1 I2]. apply str_eqb_eq in I2.
    now exists r.
Qed.

(** The greatest of the widths noted for the brands is the length of the
    longest label of the frame. *)
Lemma widest_label (df : data_frame) :
  list_max (map snd (brand_max_text_width df (brand_order df)))
  = list_max (map (fun r => length (label_text r)) df).
Proof.
  apply Nat.le_antisymm; apply list_max_le, Forall_forall; intros n Hn.
  - apply in_map_iff in Hn as [[b w] [<- Hn]]. simpl.
    unfold brand_max_text_width in Hn.
    apply in_map_iff in Hn as [b' [E Hb]]. injection E as -> <-.
    apply list_max_le, Forall_forall. intros n Hn.
    apply in_map_iff in Hn as [r [<- Hr]]. apply filter_In in Hr as [Hr _].
    apply list_max_In_le. now apply (in_map (fun r => length (label_text r))).
  - apply in_map_iff in Hn as [r [<- Hr]].
    assert (Hb : In (Brand r) (brand_order df))
      by (apply brand_order_In; now exists r).
    destruct (brand_max_text_width_spec df (Brand r) Hb) as [Wb [L [B _]]].
    apply Nat.le_trans with Wb; [now apply B|].
    apply list_max_In_le. apply lookup_In in L.
    change Wb with (snd (Brand r, Wb)). now apply in_map.
Qed.

Lemma py_max_Qmax (a b : float) : (py_max a b == Qmax a b)%Q.
Proof.
  unfold py_max. destruct (flt a b) eqn:E.
  - apply flt_lt in E. symmetry. apply Q.max_r. now apply Qlt_le_weak.
  - apply flt_ge in E. symmetry. now apply Q.max_l.
Qed.

Lemma py_min_Qmin (a b : float) : (py_min a b == Qmin a b)%Q.
Proof.
  unfold py_min. destruct (flt b a) eqn:E.
  - apply flt_lt in E. symmetry. apply Q.min_r. now apply Qlt_le_weak.
  - apply flt_ge in E. symmetry. now apply Q.min_l.
Qed.

Lemma clamp_bounds (x : Q) :
  (900 # 1 <= clamp (900 # 1) (1600 # 1) x <= 1600 # 1)%Q.
Proof.
  unfold clamp. split; [|apply Q.le_min_l].
  apply Q.min_glb; [discriminate | apply Q.le_max_l].
Qed.

Lemma brand_count (df : data_frame) :
  length (brand_order df) = nunique (map Brand df).
Proof.
  unfold nunique. apply Permutation_length, NoDup_Permutation.
  - apply brand_order_NoDup.
  - apply NoDup_nodup.
  - intros b. rewrite brand_order_In, nodup_In, in_map_iff.
    split; intros [r H]; exists r; tauto.
Qed.

End WidthFacts.

(** The layout in terms of [label_text]: the empty frame, the widest label
    and the clamped width. *)
Lemma layout_widths (df : data_frame) :
  let lay := derive_layout df in
  (df = [] ->
   lay = {| brand_order_simple := [];
            max_brand_width := 0%Q;
            responsive_width := (900 # 1)%Q |}) /\
  (df <> [] ->
   exists W : nat,
     (forall r, In r df -> (length (label_text r) <= W)%nat) /\
     (exists r, In r df /\ length (label_text r) = W) /\
     (forall b, In b (brand_order df) ->
        exists Wb : nat,
          lookup b (brand_max_text_width df (brand_order df)) = Some Wb /\
          (Wb <= W)%nat /\
          (forall r, In r df -> Brand r = b ->
                     (length (label_text r) <= Wb)%nat) /\
          (exists r, In r df /\ Brand r = b /\
                     length (label_text r) = Wb)) /\
     (max_brand_width lay == inject_Z (Z.of_nat W) * (8 # 100))%Q /\
     (responsive_width lay
      == clamp (900 # 1) (1600 # 1)
           (inject_Z (Z.of_nat (length (brand_order df)) * 100 + 500)
            + inject_Z (Z.of_nat W) * (8 # 100) * (200 # 1)))%Q /\
     length (brand_order df) = nunique (map Brand df)) /\
  (900 # 1 <= responsive_width lay <= 1600 # 1)%Q.
Proof.
  intros lay. split; [intros ->; reflexivity|].
  assert (R : df <> [] ->
    (responsive_width lay
     == clamp (900 # 1) (1600 # 1)
          (inject_Z (Z.of_nat (length (brand_order df)) * 100 + 500)
           + inject_Z (Z.of_nat
                         (list_max (map (fun r => length (label_text r)) df)))
             * (8 # 100) * (200 # 1)))%Q /\
    (max_brand_width lay
     == inject_Z (Z.of_nat
                    (list_max (map (fun r => length (label_text r)) df)))
        * (8 # 100))%Q).
  { intros NE. unfold lay, derive_layout.
    destruct df as [|r0 df0] eqn:Edf; [contradiction|]. rewrite <- Edf.
    assert (L : (0 <? length df)%nat = true) by now rewrite Edf.
    rewrite L.
    assert (NW : is_nil (brand_max_text_width df (brand_order df)) = false).
    { assert (I : In (Brand r0) (brand_order df)).
      { apply brand_order_In. exists r0. rewrite Edf. split; [now left|reflexivity]. }
      unfold brand_max_text_width. destruct (brand_order df); [destruct I | reflexivity]. }
    rewrite NW. cbn [responsive_width max_brand_width].
    rewrite widest_label. unfold clamp.
    rewrite py_min_Qmin, py_max_Qmax. unfold fadd, fmul, char_width.
    rewrite !Qred_correct. split; reflexivity. }
  split.
  - intros NE. destruct (R NE) as [RW MW].
    exists (list_max (map (fun r => length (label_text r)) df)).
    split; [|split; [|split; [|split; [|split]]]].
    + intros r Hr. apply list_max_In_le.
      now apply (in_map (fun r => length (label_text r))).
    + assert (N : map (fun r => length (label_text r)) df <> []).
      { intros E. now apply map_eq_nil in E. }
      apply list_max_attained, in_map_iff in N as [r [E I]]. now exists r.
    + intros b Hb.
      destruct (brand_max_text_width_spec df b Hb) as [Wb [Lk [B A]]].
      exists Wb. split; [exact Lk|]. split; [|now split].
      destruct A as [r [Hr [_ <-]]]. apply list_max_In_le.
      now apply (in_map (fun r => length (label_text r))).
    + exact MW.
    + exact RW.
    + apply brand_count.
  - destruct df as [|r0 df0] eqn:Edf.
    + split; discriminate.
    + rewrite <- Edf in *.
      assert (NE : df <> []) by (rewrite Edf; discriminate).
      destruct (R NE) as [RW _].
      destruct (clamp_bounds
                  (inject_Z (Z.of_nat (length (brand_order df)) * 100 + 500)
                   + inject_Z (Z.of_nat
                       (list_max (map (fun r => length (label_text r)) df)))
                     * (8 # 100) * (200 # 1))) as [B1 B2].
      rewrite <- RW in B1, B2. now split.
Qed.

Lemma label_text_length (r : row) :
  length (label_text r)
  = (length (Model r) + 1 + length (ChassisCode r))%nat.
Proof. unfold label_text. rewrite length_app. simpl. lia. Qed.

(** C5: for an empty frame the layout is the empty brand order, label width
    0 and chart width 900.  For any other frame, with [W] the greatest
    length of a label "model chassis" (the characters of the model, one
    space and the characters of the chassis code), which is also the
    greatest of the widths noted brand by brand, the label width is
    [W * 0.08] and the chart width is
    [numBrands * 100 + 500 + W * 0.08 * 200] brought into the interval from
    900 to 1600, [numBrands] being the number of distinct brands.  In both
    cases the chart width lies between 900 and 1600. *)
Theorem chart_width_clamped (df : data_frame) :
  let lay := derive_layout df in
  (df = [] ->
   lay = {| brand_order_simple := [];
            max_brand_width := 0%Q;
            responsive_width := (900 # 1)%Q |}) /\
  (df <> [] ->
   exists W : nat,
     (forall r, In r df ->
        (length (Model r) + 1 + length (ChassisCode r) <= W)%nat) /\
     (exists r, In r df /\
                (length (Model r) + 1 + length (ChassisCode r))%nat = W) /\
     (forall b, In b (brand_order df) ->
        exists Wb : nat,
          lookup b (brand_max_text_width df (brand_order df)) = Some Wb /\
          (Wb <= W)%nat /\
          (forall r, In r df -> Brand r = b ->
             (length (Model r) + 1 + length (ChassisCode r) <= Wb)%nat) /\
          (exists r, In r df /\ Brand r = b /\
             (length (Model r) + 1 + length (ChassisCode r))%nat = Wb)) /\
     (max_brand_width lay == inject_Z (Z.of_nat W) * (8 # 100))%Q /\
     (responsive_width lay
      == Qmin (1600 # 1)
           (Qmax (900 # 1)
              (inject_Z (Z.of_nat (length (brand_order df)) * 100 + 500)
               + inject_Z (Z.of_nat W) * (8 # 100) * (200 # 1))))%Q /\
     length (brand_order df) = length (nodup str_eq_dec (map Brand df))) /\
  (900 # 1 <= responsive_width lay <= 1600 # 1)%Q.
Proof.
  intros lay. pose proof (layout_widths df) as H. cbv zeta in H.
  fold lay in H. destruct H as [E [NE B]].
  split; [exact E|]. split; [|exact B].
  intros N. destruct (NE N) as [W [U [A [PB [MW [RW CNT]]]]]].
  exists W. split; [|split; [|split; [|split; [|split]]]].
  - intros r Hr. rewrite <- label_text_length. now apply U.
  - destruct A as [r [Hr Er]]. exists r. split; [exact Hr|].
    now rewrite <- label_text_length.
  - intros b Hb. destruct (PB b Hb) as [Wb [Lk [Le [Ub [r [Hr [Eb Er]]]]]]].
    exists Wb. split; [exact Lk|]. split; [exact Le|]. split.
    + intros r' Hr' Eb'. rewrite <- label_text_length. now apply Ub.
    + exists r. split; [exact Hr|]. split; [exact Eb|].
      now rewrite <- label_text_length.
  - exact MW.
  - exact RW.
  - exact CNT.
Qed.

(* ---------------------------------------------------------------------- *)
(** ** The summary                                                         *)
(* ---------------------------------------------------------------------- *)

Section SummaryFacts.

(** [argmin_from] continues a scan: [pre] has been read, [best] at position
    [best_i] is its first least value, and [l] is still to read. *)
Lemma argmin_from_spec (l pre : list float) (best_i i : nat) (best : float) :
  length pre = i ->
  nth_error pre best_i = Some best ->
  (forall j x, (j < best_i)%nat -> nth_error pre j = Some x -> (best < x)%Q) ->
  (forall x, In x pre -> (best <= x)%Q) ->
  exists m,
    nth_error (pre ++ l) (argmin_from best_i best i l) = Some m /\
    (forall j x, (j < argmin_from best_i best i l)%nat ->
                 nth_error (pre ++ l) j = Some x -> (m < x)%Q) /\
    (forall x, In x (pre ++ l) -> (m <= x)%Q).
Proof.
  revert pre best_i i best.
  induction l as [|y l IH]; intros pre best_i i best Hlen Hbest Hstrict Hle.
  - simpl. rewrite app_nil_r. exists best. auto.
  - simpl.
    assert (Bi : (best_i < length pre)%nat)
      by (apply nth_error_Some; congruence).
    replace (pre ++ y :: l) with ((pre ++ [y]) ++ l)
      by (now rewrite <- app_assoc).
    destruct (flt y best) eqn:E.
    + apply flt_lt in E. apply IH.
      * rewrite length_app. simpl. lia.
      * rewrite nth_error_app2 by lia.
        replace (i - length pre)%nat with 0%nat by lia. reflexivity.
      * intros j x Hj Hx. rewrite nth_error_app1 in Hx by lia.
        apply nth_error_In in Hx.
        eapply Qlt_le_trans; [exact E | now apply Hle].
      * intros x Hx. apply in_app_or in Hx as [Hx|[<-|[]]].
        -- apply Qlt_le_weak. eapply Qlt_le_trans; [exact E | now apply Hle].
        -- apply Qle_refl.
    + apply flt_ge in E. apply IH.
      * rewrite length_app. simpl. lia.
      * now rewrite nth_error_app1 by lia.
      * intros j x Hj Hx. rewrite nth_error_app1 in Hx by lia.
        now apply (Hstrict j).
      * intros x Hx. apply in_app_or in Hx as [Hx|[<-|[]]]; auto.
Qed.

(** [idxmin] finds the first position of the least value. *)
Lemma idxmin_spec (series : list float) :
  series <> [] ->
  exists k m,
    idxmin series = Some k /\ nth_error series k = Some m /\
    (forall j x, (j < k)%nat -> nth_error series j = Some x -> (m < x)%Q) /\
    (forall x, In x series -> (m <= x)%Q).
Proof.
  destruct series as [|x rest]; [congruence|]. intros _.
  destruct (argmin_from_spec rest [x] 0 1 x) as [m [H1 [H2 H3]]].
  - reflexivity.
  - reflexivity.
  - intros j y Hj. lia.
  - intros y [<-|[]]. apply Qle_refl.
  - exists (argmin_from 0 x 1 rest), m. simpl. auto.
Qed.

End SummaryFacts.

(** C8: the summary counts the rows and the distinct brands of the frame
    and, for a frame that is not empty, returns the first row in frame order
    whose time is the least: the rows before it are strictly slower, the rows
    after it are not faster.  For the empty frame it returns the counts 0 and
    0 and no fastest row. *)
Theorem summary_counts_and_fastest (df : data_frame) :
  total_vehicles (summarize df) = length df /\
  (exists brands : list str,
     NoDup brands /\
     (forall b, In b brands <-> exists r, In r df /\ Brand r = b) /\
     total_brands (summarize df) = length brands) /\
  (df <> [] ->
   exists pre r post,
     fastest_row (summarize df) = Some r /\
     df = pre ++ r :: post /\
     (forall x, In x pre -> (Time_sec r < Time_sec x)%Q) /\
     (forall x, In x post -> (Time_sec r <= Time_sec x)%Q)) /\
  summarize [] = {| total_vehicles := 0; total_brands := 0;
                    fastest_row := None |}.
Proof.
  split; [|split; [|split; [|reflexivity]]].
  - unfold summarize. now destruct df.
  - exists (nodup str_eq_dec (map Brand df)).
    split; [apply NoDup_nodup|]. split.
    + intros b. rewrite nodup_In, in_map_iff.
      split; intros [r H]; exists r; tauto.
    + unfold summarize. now destruct df.
  - intros NE.
    assert (NS : map Time_sec df <> []).
    { intros E. now apply map_eq_nil in E. }
    destruct (idxmin_spec (map Time_sec df) NS) as [k [m [I [N [St Le]]]]].
    assert (L : (0 <? length df)%nat = true) by now destruct df.
    unfold summarize. rewrite L. cbn [fastest_row]. rewrite I.
    rewrite nth_error_map in N. destruct (nth_error df k) as [r|] eqn:Hr;
      [|discriminate N]. simpl in N. injection N as <-.
    destruct (nth_error_split df k Hr) as [pre [post [E Hlen]]].
    exists pre, r, post. split; [reflexivity|]. split; [exact E|]. split.
    + intros x Hx. apply In_nth_error in Hx as [j Hj].
      assert (Jk : (j < k)%nat).
      { rewrite <- Hlen. apply nth_error_Some. congruence. }
      apply (St j); [exact Jk|].
      rewrite nth_error_map, E, nth_error_app1 by lia. now rewrite Hj.
    + intros x Hx. apply Le, in_map. rewrite E.
      apply in_or_app. right. now right.
Qed.

(* ---------------------------------------------------------------------- *)
(** ** The ticks of the time axis                                          *)
(* ---------------------------------------------------------------------- *)

Section AxisFacts.

Lemma fadd_eq (a b : float) : (fadd a b == a + b)%Q.
Proof. apply Qred_correct. Qed.

Lemma fmul_eq (a b : float) : (fmul a b == a * b)%Q.
Proof. apply Qred_correct. Qed.

Lemma fsub_eq (a b : float) : (fsub a b == a - b)%Q.
Proof. apply Qred_correct. Qed.

Lemma insert_unique_In (x u : float) (l : list float) :
  In u (insert_unique x l) -> u = x \/ In u l.
Proof.
  induction l as [|y l IH]; simpl.
  - intros [<-|[]]. now left.
  - destruct (Qcompare x y); simpl; intros H.
    + now right.
    + destruct H as [<-|H]; tauto.
    + destruct H as [<-|H]; [tauto|]. apply IH in H. tauto.
Qed.

Lemma insert_unique_spec (x : float) (l : list float) :
  StronglySorted Qlt l ->
  StronglySorted Qlt (insert_unique x l) /\
  forall t, shows (insert_unique x l) t <-> ((x == t)%Q \/ shows l t).
Proof.
  unfold shows. induction l as [|y l IH]; simpl; intros S.
  - split; [repeat constructor|]. intros t. split.
    + intros [u [[<-|[]] E]]. now left.
    + intros [E|[u [[] _]]]. exists x. split; [now left | exact E].
  - inversion S as [|? ? S' F]; subst.
    destruct (Qcompare x y) eqn:C.
    + apply Qeq_alt in C. split; [exact S|]. intros t. split.
      * intros H. now right.
      * intros [E|H]; [|exact H]. exists y. split; [now left|].
        now rewrite <- C.
    + apply Qlt_alt in C. split.
      * constructor; [exact S|]. constructor; [exact C|].
        rewrite Forall_forall in F |- *. intros z Hz.
        eapply Qlt_trans; [exact C | now apply F].
      * intros t. split.
        -- intros [u [[<-|H] E]]; [now left|]. right. now exists u.
        -- intros [E|[u [H E]]].
           ++ exists x. split; [now left | exact E].
           ++ exists u. split; [now right | exact E].
    + apply Qgt_alt in C. destruct (IH S') as [S2 M2]. split.
      * constructor; [exact S2|].
        rewrite Forall_forall in F |- *. intros z Hz.
        apply insert_unique_In in Hz as [->|Hz]; [exact C | now apply F].
      * intros t. split.
        -- intros [u [[<-|H] E]].
           ++ right. exists y. split; [now left | exact E].
           ++ assert (K : exists u, In u (insert_unique x l) /\ (u == t)%Q)
                by now exists u.
              apply M2 in K as [K|[v [Hv K]]]; [now left|].
              right. exists v. split; [now right | exact K].
        -- intros [E|[u [[<-|H] E]]].
           ++ assert (K : exists u, In u (insert_unique x l) /\ (u == t)%Q)
                by (apply M2; now left).
              destruct K as [v [Hv K]]. exists v. split; [now right | exact K].
           ++ exists y. split; [now left | exact E].
           ++ assert (K : exists u, In u (insert_unique x l) /\ (u == t)%Q).
              { apply M2. right. now exists u. }
              destruct K as [v [Hv K]]. exists v. split; [now right | exact K].
Qed.

(** [sort_unique] keeps the values of its argument, in strictly ascending
    order. *)
Lemma sort_unique_spec (a : list float) :
  StronglySorted Qlt (sort_unique a) /\
  forall t, shows (sort_unique a) t <-> shows a t.
Proof.
  induction a as [|x a [S M]]; simpl.
  - split; [constructor | reflexivity].
  - destruct (insert_unique_spec x (sort_unique a) S) as [S2 M2].
    split; [exact S2|]. intros t. rewrite M2, M. unfold shows. split.
    + intros [E|[u [H E]]].
      * exists x. split; [now left | exact E].
      * exists u. split; [now right | exact E].
    + intros [u [[<-|H] E]]; [now left|]. right. now exists u.
Qed.

Lemma arange_In (start stop step u : float) :
  In u (arange start stop step) <->
  exists i : nat,
    (i < Z.to_nat (Qceiling ((stop - start) / step)%Q))%nat /\
    u = fadd start (fmul (inject_Z (Z.of_nat i)) step).
Proof.
  unfold arange. rewrite in_map_iff. split.
  - intros [i [E H]]. apply in_seq in H. exists i. split; [lia | now rewrite E].
  - intros [i [H E]]. exists i. split; [now rewrite E|]. apply in_seq. lia.
Qed.

(** The values of [arange] under the ticks are the grid points from the
    minimum on and below the maximum plus one interval. *)
Lemma arange_grid (m M t : float) :
  shows (arange
           (fmul (inject_Z (Qceiling (m / tick_interval)%Q)) tick_interval)
           (fadd M tick_interval) tick_interval) t <->
  (on_grid t /\ (m <= t)%Q /\ (t < M + tick_interval)%Q).
Proof.
  unfold shows, on_grid, tick_interval.
  set (c := Qceiling (m / (1 # 2))%Q).
  set (first := fmul (inject_Z c) (1 # 2)%Q).
  set (x := ((fadd M (1 # 2) - first) / (1 # 2))%Q).
  assert (Ec : c = Qceiling (m * 2)%Q).
  { unfold c. apply Qceiling_comp. field. }
  assert (Ef : (first == inject_Z c * (1 # 2))%Q) by apply fmul_eq.
  assert (Ex : (x == 2 * M + 1 - inject_Z c)%Q).
  { unfold x. rewrite fadd_eq, Ef. field. }
  assert (Cm : (m * 2 <= inject_Z c)%Q) by (rewrite Ec; apply Qle_ceiling).
  split.
  - intros [u [Hu E]]. apply arange_In in Hu as [i [Hi ->]].
    fold x in Hi. rewrite fadd_eq, fmul_eq, Ef in E.
    assert (I0 : (0 <= inject_Z (Z.of_nat i))%Q).
    { change 0%Q with (inject_Z 0). rewrite <- Zle_Qle. lia. }
    assert (I1 : (inject_Z (Z.of_nat i) < x)%Q).
    { apply Qle_lt_trans with (inject_Z (Qceiling x - 1)); [|apply Qceiling_lt].
      rewrite <- Zle_Qle. lia. }
    split; [|split].
    + exists (c + Z.of_nat i). rewrite inject_Z_plus, <- E. ring.
    + rewrite <- E. lra.
    + rewrite <- E. rewrite Ex in I1. lra.
  - intros [[k Ek] [Lo Hi]].
    assert (Ck : c <= k).
    { rewrite Ec, <- (Qceiling_Z k). apply Qceiling_resp_le. lra. }
    assert (Kx : (inject_Z (k - c) < x)%Q).
    { rewrite Ex. unfold Zminus. rewrite inject_Z_plus, inject_Z_opp. lra. }
    assert (Kn : k - c < Qceiling x).
    { rewrite Zlt_Qlt. eapply Qlt_le_trans; [exact Kx | apply Qle_ceiling]. }
    exists (fadd first (fmul (inject_Z (Z.of_nat (Z.to_nat (k - c)))) (1 # 2)%Q)).
    split.
    + apply arange_In. exists (Z.to_nat (k - c)). fold x. split; [lia | reflexivity].
    + rewrite fadd_eq, fmul_eq, Ef, Z2Nat.id by lia.
      unfold Zminus. rewrite inject_Z_plus, inject_Z_opp, Ek. ring.
Qed.

(** The ticks of the code. *)
Lemma tick_values_spec (m M : float) :
  StronglySorted Qlt (tick_values m M) /\ code_ticks (tick_values m M) m M.
Proof.
  unfold tick_values, code_ticks.
  match goal with |- context [sort_unique ?a] =>
    destruct (sort_unique_spec a) as [S H] end.
  split; [exact S|]. intros t. rewrite H, <- arange_grid. unfold shows.
  split.
  - intros [u [[<-|Hu] E]]; [left; now symmetry|]. right. now exists u.
  - intros [E|[u [Hu E]]].
    + exists m. split; [now left | now symmetry].
    + exists u. split; [now right | exact E].
Qed.

Lemma seconds_to_duration_not_empty (t : float) (d : nat) :
  seconds_to_duration (Some t) d <> [].
Proof.
  unfold seconds_to_duration. destruct (d =? 1)%nat; intros H;
    apply app_eq_nil in H as [_ H]; discriminate H.
Qed.

Lemma fmod_one (t : float) : (fmod t (1 # 1) == frac t)%Q.
Proof.
  unfold fmod, frac, floordiv. rewrite fsub_eq, fmul_eq.
  assert (E : (t / (1 # 1) == t)%Q) by field.
  rewrite (Qfloor_comp _ _ E). ring.
Qed.

(** Every tick gets its label by the rule. *)
Lemma tick_label_rule (m t : float) : label_rule m t (tick_label m t).
Proof.
  unfold label_rule, tick_label.
  destruct (Qeq_bool t m || flt (fmod t (1 # 1)%Q) (1 # 100)%Q) eqn:E.
  - split.
    + intros _. split; [reflexivity | apply seconds_to_duration_not_empty].
    + intros N. elim N. apply orb_true_iff in E as [E|E].
      * left. now apply Qeq_bool_iff.
      * right. apply flt_lt in E. now rewrite fmod_one in E.
  - split; [|reflexivity]. intros [H|H]; exfalso.
    + apply Qeq_bool_iff in H. rewrite H in E. discriminate E.
    + apply orb_false_iff in E as [_ E]. apply flt_ge in E.
      rewrite fmod_one in E. now apply (Qlt_not_le _ _ H).
Qed.

Lemma tick_labels_rule (m : float) (ticks : list float) :
  Forall2 (label_rule m) ticks (tick_labels m ticks).
Proof.
  induction ticks as [|t l IH]; simpl; constructor.
  - apply tick_label_rule.
  - exact IH.
Qed.

End AxisFacts.

(** C6, as the code has it: for a frame of lap times that is not empty, with
    [m] its least and [M] its greatest time, the ticks are [m] itself and the
    points
    of the half-second grid from [m] on that lie below [M + 0.5], so the grid
    runs to the first point that is not below [M]; they are listed once each
    in ascending order; the label of a tick is the time formatted with three
    decimals when the tick is [m] or its fractional part is below 0.01, and
    the empty string otherwise. *)
Theorem y_axis_ticks_and_labels (df : data_frame) :
  df <> [] ->
  (forall r, In r df -> lap_time (Time_sec r)) ->
  exists (m M : float) (ticks : list float) (labels : list str),
    y_axis df = Some (ticks, labels) /\
    (exists r, In r df /\ Time_sec r = m) /\
    (forall r, In r df -> (m <= Time_sec r)%Q) /\
    (exists r, In r df /\ Time_sec r = M) /\
    (forall r, In r df -> (Time_sec r <= M)%Q) /\
    code_ticks ticks m M /\
    StronglySorted Qlt ticks /\
    Forall2 (label_rule m) ticks labels.
Proof.
  intros NE _. unfold y_axis, time_min, time_max.
  assert (NS : map Time_sec df <> []).
  { intros E. now apply map_eq_nil in E. }
  destruct (series_min (map Time_sec df)) as [m|] eqn:Em;
    [|now apply series_min_None in Em].
  destruct (series_max (map Time_sec df)) as [M|] eqn:EM;
    [|destruct (map Time_sec df); [congruence | discriminate EM]].
  apply series_min_spec in Em as [Im Bm].
  apply series_max_spec in EM as [IM BM].
  exists m, M, (tick_values m M), (tick_labels m (tick_values m M)).
  destruct (tick_values_spec m M) as [S C].
  split; [reflexivity|].
  split; [apply in_map_iff in Im as [r [E H]]; now exists r|].
  split; [intros r Hr; now apply Bm, in_map|].
  split; [apply in_map_iff in IM as [r [E H]]; now exists r|].
  split; [intros r Hr; now apply BM, in_map|].
  split; [exact C|]. split; [exact S|].
  apply tick_labels_rule.
Qed.

Lemma y_axis_ticks_and_labels_witness :
  two_laps <> [] /\
  (forall r, In r two_laps -> lap_time (Time_sec r)) /\
  exists (m M : float) (ticks : list float) (labels : list str),
    y_axis two_laps = Some (ticks, labels) /\
    (exists r, In r two_laps /\ Time_sec r = m) /\
    (forall r, In r two_laps -> (m <= Time_sec r)%Q) /\
    (exists r, In r two_laps /\ Time_sec r = M) /\
    (forall r, In r two_laps -> (Time_sec r <= M)%Q) /\
    code_ticks ticks m M /\
    StronglySorted Qlt ticks /\
    Forall2 (label_rule m) ticks labels.
Proof.
  assert (L : forall r, In r two_laps -> lap_time (Time_sec r)).
  { intros r [<-|[<-|[]]].
    - exists 58200. split; [lia | reflexivity].
    - exists 61200. split; [lia | reflexivity]. }
  split; [discriminate|]. split; [exact L|].
  apply (y_axis_ticks_and_labels two_laps); [discriminate | exact L].
Defined.

(** C6 as stated fails: for laps of 58.2 s and 61.2 s the axis has a tick at
    61.5 s, which is neither the minimum nor a grid point up to the
    maximum. *)
Lemma ticks_run_past_the_maximum :
  exists (ticks : list float) (labels : list str),
    y_axis two_laps = Some (ticks, labels) /\
    shows ticks (123 # 2)%Q /\
    ~ spec_ticks ticks (582 # 10)%Q (612 # 10)%Q.
Proof.
  eexists. eexists. split; [reflexivity|].
  assert (Sh : shows (tick_values (582 # 10)%Q (612 # 10)%Q) (123 # 2)%Q).
  { exists (123 # 2)%Q. split; [|reflexivity].
    vm_compute. repeat (first [left; reflexivity | right]). }
  split; [exact Sh|].
  intros H. apply H in Sh as [E|[_ [_ L]]].
  - discriminate E.
  - apply L. reflexivity.
Qed.

(* ====================================================================== *)
(** * Further properties of the callbacks                                 *)
(* ====================================================================== *)

(* ---------------------------------------------------------------------- *)
(** ** The dropdown reducers                                               *)
(* ---------------------------------------------------------------------- *)

(** The reducer keeps the concrete values of a selection exactly: a value
    other than "ALL" is active after the call if and only if it was active
    before. *)
Theorem dropdown_keeps_concrete_values (v : value) (x : str) :
  x <> ALL ->
  (In x (active (update_brand_dropdown v)) <-> In x (active v)).
Proof.
  intros NE. destruct v as [|s|l]; simpl.
  - split; [intros [H|[]]; congruence | tauto].
  - reflexivity.
  - destruct ((1 <? length l)%nat && mem ALL l).
    + simpl. rewrite filter_In, negb_true_iff, str_eqb_neq. tauto.
    + destruct (list_eqb l [ALL]) eqn:E.
      * apply list_eqb_eq in E. subst l. simpl. tauto.
      * destruct (length l =? 0)%nat eqn:E0.
        -- apply Nat.eqb_eq in E0. destruct l; [|discriminate E0].
           simpl. split; [intros [H|[]]; congruence | tauto].
        -- reflexivity.
Qed.

Lemma dropdown_keeps_concrete_values_witness :
  lit "Honda" <> ALL /\
  (In (lit "Honda") (active (update_brand_dropdown (Many [ALL; lit "Honda"])))
   <-> In (lit "Honda") (active (Many [ALL; lit "Honda"]))).
Proof.
  split; [discriminate|].
  apply (dropdown_keeps_concrete_values (Many [ALL; lit "Honda"]) (lit "Honda")).
  discriminate.
Defined.

(** On a selection without repeated entries the reducer settles in one step:
    applied to its own answer it changes nothing, so the callback, whose
    output is its own input, comes to rest. *)
Theorem dropdown_settles_in_one_step (v : value) :
  NoDup (active v) ->
  update_brand_dropdown (update_brand_dropdown v) = update_brand_dropdown v.
Proof.
  intros N. destruct v as [|s|l]; try reflexivity.
  simpl in N. simpl.
  destruct ((1 <? length l)%nat && mem ALL l) eqn:E.
  - apply andb_true_iff in E as [L A].
    apply Nat.ltb_lt in L. apply mem_In in A.
    set (l' := filter (fun b => negb (str_eqb b ALL)) l).
    assert (NA : mem ALL l' = false)
      by (apply mem_not_In, not_In_filter_ALL).
    assert (NE : l' <> []).
    { destruct l as [|a [|b l0]]; simpl in L; try lia.
      inversion N as [|? ? Na N']; subst.
      destruct (str_eq_dec a ALL) as [->|Ha].
      - destruct (str_eq_dec b ALL) as [->|Hb].
        + elim Na. now left.
        + intros F.
          assert (I : In b l').
          { apply filter_In. split; [right; now left|].
            now apply negb_true_iff, str_eqb_neq. }
          now rewrite F in I.
      - intros F.
        assert (I : In a l').
        { apply filter_In. split; [now left|].
          now apply negb_true_iff, str_eqb_neq. }
        now rewrite F in I. }
    simpl. fold l'. rewrite NA, andb_false_r.
    destruct (list_eqb l' [ALL]) eqn:E1.
    + apply list_eqb_eq in E1. apply mem_not_In in NA. elim NA.
      rewrite E1. now left.
    + destruct l'; [contradiction | reflexivity].
  - destruct (list_eqb l [ALL]) eqn:E1; [reflexivity|].
    destruct (length l =? 0)%nat eqn:E0; [reflexivity|].
    simpl. now rewrite E, E1, E0.
Qed.

Lemma dropdown_settles_in_one_step_witness :
  NoDup (active (Many [ALL; lit "Honda"; lit "Toyota"])) /\
  update_brand_dropdown
    (update_brand_dropdown (Many [ALL; lit "Honda"; lit "Toyota"]))
  = update_brand_dropdown (Many [ALL; lit "Honda"; lit "Toyota"]).
Proof.
  assert (N : NoDup (active (Many [ALL; lit "Honda"; lit "Toyota"]))).
  { simpl. repeat constructor; simpl; intros H;
      repeat (destruct H as [H|H]; [discriminate H|]); destruct H. }
  split; [exact N|].
  apply (dropdown_settles_in_one_step
           (Many [ALL; lit "Honda"; lit "Toyota"]) N).
Defined.

(* ---------------------------------------------------------------------- *)
(** ** The filter engine, row by row                                       *)
(* ---------------------------------------------------------------------- *)

Section RowWise.

Lemma filter_all (p : row -> bool) (df : data_frame) :
  (forall r, In r df -> p r = true) -> filter p df = df.
Proof.
  induction df as [|r df IH]; simpl; intros H; [reflexivity|].
  rewrite (H r (or_introl eq_refl)). f_equal. apply IH. intros x Hx.
  apply H. now right.
Qed.

Lemma filter_filter (p q : row -> bool) (df : data_frame) :
  filter p (filter q df) = filter (fun r => q r && p r) df.
Proof.
  induction df as [|r df IH]; simpl; [reflexivity|].
  destruct (q r); simpl; [destruct (p r)|]; now rewrite IH.
Qed.

(** Every criterion tests the rows one by one. *)
Lemma select_isin_row_wise (col : row -> str) (selected : value) :
  exists p, forall df, select_isin col selected df = filter p df.
Proof.
  unfold select_isin.
  destruct (truthy selected && negb (ALL_in selected || is_ALL selected)).
  - eexists. intros df. reflexivity.
  - exists (fun _ => true). intros df. symmetry. now apply filter_all.
Qed.

Lemma select_engine_row_wise (selected_engine : option str) :
  exists p, forall df, select_engine selected_engine df = filter p df.
Proof.
  unfold select_engine. destruct selected_engine as [e|].
  - destruct (negb (str_eqb e ALL)).
    + eexists. intros df. reflexivity.
    + exists (fun _ => true). intros df. symmetry. now apply filter_all.
  - eexists. intros df. reflexivity.
Qed.

Lemma select_text_row_wise (text : option str) :
  exists p, forall df, select_text text df = filter p df.
Proof.
  unfold select_text. destruct text as [t|].
  - destruct (negb (is_nil t) && negb (is_nil (strip t))).
    + eexists. intros df. reflexivity.
    + exists (fun _ => true). intros df. symmetry. now apply filter_all.
  - exists (fun _ => true). intros df. symmetry. now apply filter_all.
Qed.

Lemma apply_filters_row_wise (brands drivetrains : value)
    (engine text : option str) :
  exists p, forall df,
    apply_filters df brands drivetrains engine text = filter p df.
Proof.
  destruct (select_isin_row_wise Brand brands) as [p1 H1].
  destruct (select_isin_row_wise Drivetrain drivetrains) as [p2 H2].
  destruct (select_engine_row_wise engine) as [p3 H3].
  destruct (select_text_row_wise text) as [p4 H4].
  eexists. intros df. unfold apply_filters.
  rewrite H1, H2, H3, H4, !filter_filter. reflexivity.
Qed.

End RowWise.

(** The four criteria combine with logical AND: a row passes the whole
    filter exactly when it passes the brand, the drivetrain, the engine and
    the text criterion, each applied to the frame on its own. *)
Theorem apply_filters_is_conjunction (df : data_frame)
    (brands drivetrains : value) (engine text : option str) (r : row) :
  In r (apply_filters df brands drivetrains engine text) <->
  In r (select_isin Brand brands df) /\
  In r (select_isin Drivetrain drivetrains df) /\
  In r (select_engine engine df) /\
  In r (select_text text df).
Proof.
  destruct (select_isin_row_wise Brand brands) as [p1 H1].
  destruct (select_isin_row_wise Drivetrain drivetrains) as [p2 H2].
  destruct (select_engine_row_wise engine) as [p3 H3].
  destruct (select_text_row_wise text) as [p4 H4].
  unfold apply_filters. rewrite !H4, !H3, !H2, !H1, !filter_In. tauto.
Qed.

(** The filter judges every row by itself and keeps the order of the frame:
    filtering two frames laid end to end gives the two filtered frames laid
    end to end. *)
Theorem apply_filters_app (df1 df2 : data_frame)
    (brands drivetrains : value) (engine text : option str) :
  apply_filters (df1 ++ df2) brands drivetrains engine text
  = apply_filters df1 brands drivetrains engine text
    ++ apply_filters df2 brands drivetrains engine text.
Proof.
  destruct (apply_filters_row_wise brands drivetrains engine text) as [p H].
  rewrite !H. apply filter_app.
Qed.

(** Filtering a filtered frame again with the same selection changes
    nothing. *)
Theorem apply_filters_idempotent (df : data_frame)
    (brands drivetrains : value) (engine text : option str) :
  apply_filters (apply_filters df brands drivetrains engine text)
                brands drivetrains engine text
  = apply_filters df brands drivetrains engine text.
Proof.
  destruct (apply_filters_row_wise brands drivetrains engine text) as [p H].
  rewrite !H. apply filter_all. intros r Hr. now apply filter_In in Hr.
Qed.

(* ---------------------------------------------------------------------- *)
(** ** The search text: commas and letter case                             *)
(* ---------------------------------------------------------------------- *)

Section SearchTextFacts.

Lemma split_by_not_nil (p : ascii -> bool) (s : str) : split_by p s <> [].
Proof.
  destruct s as [|c s]; simpl; [discriminate|].
  destruct (p c); [discriminate|]. destruct (split_by p s); discriminate.
Qed.

(** Cutting at a separator cuts the text on each side of it. *)
Lemma split_by_app (p : ascii -> bool) (a b : str) (c : ascii) :
  p c = true ->
  split_by p (a ++ c :: b) = split_by p a ++ split_by p b.
Proof.
  intros Hc. induction a as [|x a IH]; simpl.
  - now rewrite Hc.
  - destruct (p x); [now rewrite IH|]. rewrite IH.
    pose proof (split_by_not_nil p a) as N.
    destruct (split_by p a) as [|w ws]; [contradiction | reflexivity].
Qed.

Lemma search_terms_comma (a b : str) :
  search_terms (a ++ ","%char :: b) = search_terms a ++ search_terms b.
Proof.
  unfold search_terms, split_on.
  rewrite (split_by_app (Ascii.eqb ",") a b ","%char eq_refl).
  apply map_app.
Qed.

Lemma lstrip_nil (s : str) : lstrip s = [] -> forallb isspace s = true.
Proof.
  induction s as [|c s IH]; simpl; [reflexivity|].
  destruct (isspace c); [exact IH | discriminate].
Qed.

Lemma lstrip_head (s : str) :
  match lstrip s with
  | [] => True
  | c :: _ => isspace c = false
  end.
Proof.
  induction s as [|c s IH]; simpl; [exact I|].
  destruct (isspace c) eqn:E; [exact IH | exact E].
Qed.

(** Only a text made of whitespace strips to nothing. *)
Lemma strip_nil_all_space (s : str) :
  strip s = [] -> forallb isspace s = true.
Proof.
  unfold strip, rstrip. intros H.
  assert (H1 : lstrip (rev (lstrip s)) = []).
  { rewrite <- (rev_involutive (lstrip (rev (lstrip s)))), H. reflexivity. }
  apply lstrip_nil in H1.
  assert (H2 : lstrip s = []).
  { pose proof (lstrip_head s) as Hd.
    destruct (lstrip s) as [|c t]; [reflexivity|]. exfalso.
    rewrite forallb_forall in H1.
    assert (I : In c (rev (c :: t))) by (apply -> in_rev; now left).
    rewrite (H1 c I) in Hd. discriminate Hd. }
  now apply lstrip_nil.
Qed.

Lemma text_guard (t : str) :
  negb (is_nil t) && negb (is_nil (strip t)) = negb (is_nil (strip t)).
Proof. destruct t; reflexivity. Qed.

Lemma comma_not_blank (a b : str) : strip (a ++ ","%char :: b) <> [].
Proof.
  intros H. apply strip_nil_all_space in H.
  rewrite forallb_app in H. apply andb_true_iff in H as [_ H].
  simpl in H. discriminate H.
Qed.

Lemma select_text_not_blank (t : str) (df : data_frame) (r : row) :
  strip t <> [] ->
  (In r (select_text (Some t) df) <->
   In r df /\
   matches_any_term (search_terms t) (Model r) (ChassisCode r) = true).
Proof.
  intros NB. simpl. rewrite text_guard.
  destruct (strip t); [contradiction|]. simpl. apply filter_In.
Qed.

Lemma matches_any_term_app (ts ts' : list str) (model chassis : str) :
  matches_any_term (ts ++ ts') model chassis
  = matches_any_term ts model chassis || matches_any_term ts' model chassis.
Proof.
  unfold matches_any_term.
  induction ts as [|t ts IH]; simpl; [reflexivity|].
  destruct (1 <? length (split_ws t))%nat.
  - destruct (str_eqb t (lower model)); [reflexivity | exact IH].
  - destruct (mem t (split_ws (lower model)) || str_eqb t (lower chassis));
      [reflexivity | exact IH].
Qed.

End SearchTextFacts.

(** The comma is an OR: for two search texts that are not blank, the rows
    kept for "a,b" are the rows kept for a together with the rows kept for
    b. *)
Theorem search_comma_is_union (a b : str) (df : data_frame) (r : row) :
  strip a <> [] -> strip b <> [] ->
  (In r (select_text (Some (a ++ ","%char :: b)) df) <->
   In r (select_text (Some a) df) \/ In r (select_text (Some b) df)).
Proof.
  intros Na Nb.
  rewrite (select_text_not_blank (a ++ ","%char :: b) df r
             (comma_not_blank a b)).
  rewrite (select_text_not_blank a df r Na), (select_text_not_blank b df r Nb).
  rewrite search_terms_comma, matches_any_term_app, orb_true_iff. tauto.
Qed.

Lemma search_comma_is_union_witness :
  strip (lit "supra") <> [] /\ strip (lit "R35") <> [] /\
  (In gtr (select_text (Some (lit "supra,R35")) garage) <->
   In gtr (select_text (Some (lit "supra")) garage) \/
   In gtr (select_text (Some (lit "R35")) garage)).
Proof.
  split; [discriminate|]. split; [discriminate|].
  apply (search_comma_is_union (lit "supra") (lit "R35") garage gtr);
    discriminate.
Defined.

Section LetterCaseFacts.

Lemma isspace_lower_char (c : ascii) : isspace (lower_char c) = isspace c.
Proof. destruct c as [[] [] [] [] [] [] [] []]; reflexivity. Qed.

Lemma comma_lower_char (c : ascii) :
  Ascii.eqb "," (lower_char c) = Ascii.eqb "," c.
Proof. destruct c as [[] [] [] [] [] [] [] []]; reflexivity. Qed.

Lemma lower_char_twice (c : ascii) : lower_char (lower_char c) = lower_char c.
Proof. destruct c as [[] [] [] [] [] [] [] []]; reflexivity. Qed.

Lemma lower_twice (s : str) : lower (lower s) = lower s.
Proof.
  unfold lower. rewrite map_map. apply map_ext. apply lower_char_twice.
Qed.

Lemma lstrip_lower (s : str) : lstrip (lower s) = lower (lstrip s).
Proof.
  induction s as [|c s IH]; simpl; [reflexivity|].
  rewrite isspace_lower_char. destruct (isspace c); [exact IH | reflexivity].
Qed.

Lemma strip_lower (s : str) : strip (lower s) = lower (strip s).
Proof.
  unfold strip, rstrip. rewrite lstrip_lower. unfold lower at 1.
  rewrite <- map_rev. fold (lower (rev (lstrip s))).
  rewrite lstrip_lower. unfold lower. now rewrite map_rev.
Qed.

Lemma split_on_comma_lower (s : str) :
  split_on "," (lower s) = map lower (split_on "," s).
Proof.
  unfold split_on, lower.
  induction s as [|c s IH]; cbn [split_by map]; [reflexivity|].
  rewrite comma_lower_char. destruct (Ascii.eqb "," c).
  - now rewrite IH.
  - rewrite IH. destruct (split_by (Ascii.eqb ",") s); reflexivity.
Qed.

Lemma search_terms_lower (t : str) : search_terms (lower t) = search_terms t.
Proof.
  unfold search_terms. rewrite split_on_comma_lower, map_map.
  apply map_ext. intros term. now rewrite strip_lower, lower_twice.
Qed.

End LetterCaseFacts.

(** The letter case of the search text does not matter: two search texts
    that differ only in case keep the same rows. *)
Theorem search_text_ignores_case (t t' : str) (df : data_frame) :
  lower t = lower t' ->
  select_text (Some t) df = select_text (Some t') df.
Proof.
  intros E.
  assert (L : forall u, select_text (Some (lower u)) df
                        = select_text (Some u) df).
  { intros u. simpl. rewrite !text_guard, strip_lower, search_terms_lower.
    destruct (strip u); reflexivity. }
  now rewrite <- (L t), <- (L t'), E.
Qed.

Lemma search_text_ignores_case_witness :
  lower (lit "CIVIC Type r") = lower (lit "civic type R") /\
  select_text (Some (lit "CIVIC Type r")) garage
  = select_text (Some (lit "civic type R")) garage.
Proof.
  split; [reflexivity|].
  apply (search_text_ignores_case (lit "CIVIC Type r") (lit "civic type R")
           garage).
  reflexivity.
Defined.

(* ---------------------------------------------------------------------- *)
(** ** The options of the dropdowns                                        *)
(* ---------------------------------------------------------------------- *)

Section OptionFacts.

Lemma unique_from (l seen : list str) :
  let result :=
    fold_left (fun seen v => if mem v seen then seen else seen ++ [v])
              l seen in
  (NoDup seen -> NoDup result) /\
  forall x, In x result <-> In x seen \/ In x l.
Proof.
  revert seen. induction l as [|v l IH]; intros seen; simpl.
  - split; [auto | tauto].
  - destruct (mem v seen) eqn:E.
    + destruct (IH seen) as [N I]. split; [exact N|].
      intros x. rewrite I. apply mem_In in E.
      split; [tauto|]. intros [H|[<-|H]]; tauto.
    + destruct (IH (seen ++ [v])) as [N I]. apply mem_not_In in E. split.
      * intros Ns. apply N. apply NoDup_app; [exact Ns | repeat constructor; tauto|].
        intros x Hx [<-|[]]. contradiction.
      * intros x. rewrite I, in_app_iff. simpl. tauto.
Qed.

Lemma unique_spec (l : list str) :
  NoDup (unique l) /\ forall x, In x (unique l) <-> In x l.
Proof.
  destruct (unique_from l []) as [N I]. split.
  - apply N. constructor.
  - intros x. unfold unique. rewrite I. simpl. tauto.
Qed.

Lemma insert_str_perm (x : str) (l : list str) :
  Permutation (insert_str x l) (x :: l).
Proof.
  induction l as [|y l IH]; simpl; [reflexivity|].
  destruct (str_compare x y); try reflexivity.
  rewrite IH. apply perm_swap.
Qed.

Lemma sorted_perm (l : list str) : Permutation (sorted l) l.
Proof.
  induction l as [|x l IH]; simpl; [reflexivity|].
  rewrite insert_str_perm. now constructor.
Qed.

Lemma insert_str_sorted (x : str) (l : list str) :
  StronglySorted str_lt l -> ~ In x l ->
  StronglySorted str_lt (insert_str x l).
Proof.
  induction l as [|y l IH]; simpl; intros S N.
  - repeat constructor.
  - inversion S as [|? ? S' F]; subst.
    destruct (str_compare x y) eqn:C.
    + apply str_compare_eq in C. subst y. elim N. now left.
    + constructor; [exact S|]. constructor; [exact C|].
      rewrite Forall_forall in F |- *. intros z Hz.
      eapply str_lt_trans; [exact C | now apply F].
    + apply str_lt_gt in C. constructor.
      * apply IH; [exact S' | tauto].
      * rewrite Forall_forall in F |- *. intros z Hz.
        apply (Permutation_in _ (insert_str_perm x l)) in Hz.
        destruct Hz as [<-|Hz]; [exact C | now apply F].
Qed.

Lemma sorted_strictly (l : list str) :
  NoDup l -> StronglySorted str_lt (sorted l).
Proof.
  induction 1 as [|x l Nx N IH]; simpl; [constructor|].
  apply insert_str_sorted; [exact IH|]. intros H. apply Nx.
  now apply (Permutation_in _ (sorted_perm l)).
Qed.

(** The options built from a column: in strictly ascending order, and the
    values of the column. *)
Lemma column_options (col : row -> str) (df : data_frame) :
  StronglySorted str_lt (sorted (unique (map col df))) /\
  forall v, In v (sorted (unique (map col df))) <->
            exists r, In r df /\ col r = v.
Proof.
  destruct (unique_spec (map col df)) as [N I]. split.
  - now apply sorted_strictly.
  - intros v. split; intros H.
    + apply (Permutation_in _ (sorted_perm _)), I, in_map_iff in H.
      destruct H as [r [E H]]. now exists r.
    + destruct H as [r [H E]].
      apply (Permutation_in _ (Permutation_sym (sorted_perm _))), I.
      apply in_map_iff. now exists r.
Qed.

Lemma select_every_value (col : row -> str) (df : data_frame) :
  select_isin col (Many (sorted (unique (map col df)))) df = df.
Proof.
  unfold select_isin.
  destruct (truthy _ && negb (ALL_in _ || is_ALL _)); [|reflexivity].
  apply filter_all. intros r Hr. simpl. apply mem_In.
  apply (column_options col df). now exists r.
Qed.

End OptionFacts.

(** The brand, drivetrain and engine options are listed in strictly
    ascending order, so without repeats, and they are exactly the values that
    occur in the plotted rows. *)
Theorem dropdown_options_sorted_and_complete (df_plot : data_frame) :
  (StronglySorted str_lt (all_brands df_plot) /\
   forall b, In b (all_brands df_plot) <->
             exists r, In r df_plot /\ Brand r = b) /\
  (StronglySorted str_lt (all_drivetrains df_plot) /\
   forall d, In d (all_drivetrains df_plot) <->
             exists r, In r df_plot /\ Drivetrain r = d) /\
  (StronglySorted str_lt (all_engine_types df_plot) /\
   forall e, In e (all_engine_types df_plot) <->
             exists r, In r df_plot /\ EngineType r = e).
Proof.
  repeat split; try apply (column_options _ df_plot);
    intros H; now apply (column_options _ df_plot).
Qed.

(** Selecting every brand on offer, or every drivetrain on offer, filters
    nothing: it keeps the frame as "ALL" does. *)
Theorem selecting_every_option_keeps_all (df_plot : data_frame) :
  select_isin Brand (Many (all_brands df_plot)) df_plot = df_plot /\
  select_isin Drivetrain (Many (all_drivetrains df_plot)) df_plot = df_plot.
Proof. split; apply select_every_value. Qed.

(* ---------------------------------------------------------------------- *)
(** ** Slots and ticks                                                     *)
(* ---------------------------------------------------------------------- *)

Section SlotFacts.

Lemma slot_of_row (df : data_frame) (r : row) :
  In r df ->
  exists i, Brand_X (brand_order df) r = Some i /\
            nth_error (brand_order df) i = Some (Brand r).
Proof.
  intros Hr.
  assert (I : In (Brand r) (brand_order df))
    by (apply brand_order_In; now exists r).
  apply In_nth_error in I as [i Hi]. exists i. split; [|exact Hi].
  unfold Brand_X, brand_position.
  now rewrite (lookup_combine_seq (brand_order df) 0 i (Brand r)
                 (brand_order_NoDup df) Hi).
Qed.

End SlotFacts.

(** Every row of the frame has a slot, the slots are the numbers below the
    number of brands, and two rows share a slot exactly when they have the
    same brand. *)
Theorem slots_identify_brands (df : data_frame) (r r' : row) :
  In r df -> In r' df ->
  (exists i, Brand_X (brand_order df) r = Some i /\
             (i < length (brand_order df))%nat) /\
  (Brand_X (brand_order df) r = Brand_X (brand_order df) r' <->
   Brand r = Brand r').
Proof.
  intros Hr Hr'.
  destruct (slot_of_row df r Hr) as [i [Hi Ni]].
  destruct (slot_of_row df r' Hr') as [j [Hj Nj]].
  split.
  - exists i. split; [exact Hi|]. apply nth_error_Some. congruence.
  - split.
    + rewrite Hi, Hj. intros E. injection E as ->. congruence.
    + intros E. unfold Brand_X. now rewrite E.
Qed.

Lemma slots_identify_brands_witness :
  In civic garage /\ In gtr garage /\
  (exists i, Brand_X (brand_order garage) civic = Some i /\
             (i < length (brand_order garage))%nat) /\
  (Brand_X (brand_order garage) civic = Brand_X (brand_order garage) gtr <->
   Brand civic = Brand gtr).
Proof.
  assert (H1 : In civic garage) by (left; reflexivity).
  assert (H2 : In gtr garage) by (right; right; left; reflexivity).
  split; [exact H1|]. split; [exact H2|].
  apply (slots_identify_brands garage civic gtr H1 H2).
Defined.

(** The ticks bracket the displayed lap times: the first tick is the least
    time, no tick lies below it or reaches the greatest time plus half a
    second, some tick is not below the greatest time, and every tick has its
    label. *)
Theorem ticks_bracket_the_times (df : data_frame) :
  df <> [] ->
  (forall r, In r df -> lap_time (Time_sec r)) ->
  exists (m M : float) (first : float) (rest : list float)
         (labels : list str),
    time_min df = Some m /\ time_max df = Some M /\
    y_axis df = Some (first :: rest, labels) /\
    (first == m)%Q /\
    (forall t, In t (first :: rest) -> (m <= t)%Q /\ (t < M + (1 # 2))%Q) /\
    (exists T, In T (first :: rest) /\ (M <= T)%Q) /\
    length labels = length (first :: rest).
Proof.
  intros NE _. unfold y_axis.
  assert (NS : map Time_sec df <> []).
  { intros E. now apply map_eq_nil in E. }
  unfold time_min, time_max.
  destruct (series_min (map Time_sec df)) as [m|] eqn:Em;
    [|now apply series_min_None in Em].
  destruct (series_max (map Time_sec df)) as [M|] eqn:EM;
    [|destruct (map Time_sec df); [congruence | discriminate EM]].
  apply series_min_spec in Em as [Im Bm].
  apply series_max_spec in EM as [IM BM].
  assert (mM : (m <= M)%Q) by now apply Bm.
  destruct (tick_values_spec m M) as [S C].
  assert (R : forall t, In t (tick_values m M) ->
                        (m <= t)%Q /\ (t < M + (1 # 2))%Q).
  { intros t Ht.
    assert (Sh : shows (tick_values m M) t) by (exists t; split; [exact Ht | reflexivity]).
    apply C in Sh as [E|[_ [L U]]].
    - rewrite E. split; [apply Qle_refl | lra].
    - unfold tick_interval in U. now split. }
  assert (Sm : shows (tick_values m M) m) by (apply C; left; reflexivity).
  destruct (tick_values m M) as [|first rest] eqn:ET.
  { destruct Sm as [u [[] _]]. }
  exists m, M, first, rest, (tick_labels m (first :: rest)).
  split; [reflexivity|]. split; [reflexivity|]. split; [reflexivity|].
  split; [|split; [exact R|split]].
  - destruct Sm as [u [[<-|Hu] E]]; [exact E|].
    inversion S as [|? ? _ F]; subst. rewrite Forall_forall in F.
    pose proof (F u Hu) as L. destruct (R first (or_introl eq_refl)) as [L2 _].
    rewrite E in L. exfalso. apply (Qlt_not_le _ _ L L2).
  - set (k := Qceiling (M * 2)%Q).
    assert (K1 : (M * 2 <= inject_Z k)%Q) by apply Qle_ceiling.
    assert (K2 : (inject_Z k < M * 2 + 1)%Q).
    { pose proof (Qceiling_lt (M * 2)%Q) as H. fold k in H.
      unfold Zminus in H. rewrite inject_Z_plus, inject_Z_opp in H.
      change (inject_Z 1) with 1%Q in H. lra. }
    assert (Sh : shows (first :: rest) (inject_Z k * (1 # 2))%Q).
    { apply C. right. split; [exists k; reflexivity|].
      unfold tick_interval. split; lra. }
    destruct Sh as [T [HT E]]. exists T. split; [exact HT|]. rewrite E. lra.
  - unfold tick_labels. apply length_map.
Qed.

Lemma ticks_bracket_the_times_witness :
  two_laps <> [] /\
  (forall r, In r two_laps -> lap_time (Time_sec r)) /\
  exists (m M : float) (first : float) (rest : list float)
         (labels : list str),
    time_min two_laps = Some m /\ time_max two_laps = Some M /\
    y_axis two_laps = Some (first :: rest, labels) /\
    (first == m)%Q /\
    (forall t, In t (first :: rest) -> (m <= t)%Q /\ (t < M + (1 # 2))%Q) /\
    (exists T, In T (first :: rest) /\ (M <= T)%Q) /\
    length labels = length (first :: rest).
Proof.
  assert (L : forall r, In r two_laps -> lap_time (Time_sec r)).
  { intros r [<-|[<-|[]]].
    - exists 58200. split; [lia | reflexivity].
    - exists 61200. split; [lia | reflexivity]. }
  split; [discriminate|]. split; [exact L|].
  apply (ticks_bracket_the_times two_laps); [discriminate | exact L].
Defined.

(* ---------------------------------------------------------------------- *)
(** ** One number in a text without other digits                           *)
(* ---------------------------------------------------------------------- *)

Section SingleNumberFacts.

Lemma digit_free_head (s : str) :
  digit_free s -> match s with [] => True | c :: _ => isdigit c = false end.
Proof.
  destruct s as [|c s]; [auto|]. unfold digit_free. simpl. intros H.
  apply andb_true_iff in H as [H _]. now apply negb_true_iff in H.
Qed.

Lemma digit_free_tail (c : ascii) (s : str) :
  digit_free (c :: s) -> digit_free s.
Proof.
  unfold digit_free. simpl. intros H. now apply andb_true_iff in H as [_ H].
Qed.

Lemma digits_and_digit_free (s : str) :
  forallb isdigit s = true -> digit_free s -> s = [].
Proof.
  destruct s as [|c s]; [reflexivity|]. simpl. intros H F.
  apply andb_true_iff in H as [H _]. apply digit_free_head in F. congruence.
Qed.

Lemma lstrip_In (s : str) (c : ascii) : In c (lstrip s) -> In c s.
Proof.
  induction s as [|x s IH]; simpl; [tauto|].
  destruct (isspace x); [intros H; right; now apply IH | tauto].
Qed.

Lemma lstrip_digit_free (s : str) : digit_free s -> digit_free (lstrip s).
Proof.
  unfold digit_free. rewrite !forallb_forall. intros H c Hc.
  now apply H, lstrip_In.
Qed.

Lemma rstrip_digit_free (s : str) : digit_free s -> digit_free (rstrip s).
Proof.
  unfold digit_free, rstrip. rewrite !forallb_forall. intros H c Hc.
  apply H. apply in_rev in Hc. apply lstrip_In in Hc. now apply in_rev.
Qed.

Lemma lstrip_app (a b : str) :
  match b with [] => False | c :: _ => isspace c = false end ->
  lstrip (a ++ b) = lstrip a ++ b.
Proof.
  intros Hb. induction a as [|x a IH]; simpl.
  - destruct b as [|c b]; [destruct Hb|]. simpl. now rewrite Hb.
  - destruct (isspace x); [exact IH | reflexivity].
Qed.

(** Stripping a text that has a part without whitespace in its middle
    strips what stands before and after that part. *)
Lemma strip_around (pre n post : str) :
  n <> [] -> forallb (fun c => negb (isspace c)) n = true ->
  strip (pre ++ n ++ post) = lstrip pre ++ n ++ rstrip post.
Proof.
  intros NE NS. unfold strip.
  assert (H1 : lstrip (pre ++ n ++ post) = lstrip pre ++ n ++ post).
  { apply lstrip_app. destruct n as [|c n]; [contradiction|]. simpl in *.
    apply andb_true_iff in NS as [NS _]. now apply negb_true_iff in NS. }
  rewrite H1. unfold rstrip at 1.
  rewrite !rev_app_distr, <- app_assoc.
  rewrite lstrip_app.
  - rewrite !rev_app_distr, !rev_involutive, <- app_assoc. reflexivity.
  - destruct (rev n) as [|c r] eqn:E.
    + apply (f_equal (@rev ascii)) in E. rewrite rev_involutive in E.
      simpl in E. contradiction.
    + simpl. rewrite forallb_forall in NS.
      assert (I : In c n) by (apply in_rev; rewrite E; now left).
      now apply negb_true_iff, NS.
Qed.

Lemma findall_skip (pre s : str) :
  digit_free pre ->
  findall_from Outside (pre ++ s) = findall_from Outside s.
Proof.
  induction pre as [|c pre IH]; simpl; intros H; [reflexivity|].
  rewrite (digit_free_head _ H). apply IH. now apply digit_free_tail in H.
Qed.

Lemma findall_nothing (post : str) :
  digit_free post -> findall_from Outside post = [].
Proof.
  intros H. rewrite <- (app_nil_r post). now rewrite findall_skip.
Qed.

Lemma findall_int_digits (D s tok : str) :
  forallb isdigit D = true ->
  findall_from (InInt tok) (D ++ s) = findall_from (InInt (rev D ++ tok)) s.
Proof.
  revert tok. induction D as [|d D IH]; simpl; intros tok H; [reflexivity|].
  apply andb_true_iff in H as [Hd H]. rewrite Hd, (IH _ H).
  now rewrite <- app_assoc.
Qed.

Lemma findall_frac_digits (F s tok : str) :
  forallb isdigit F = true ->
  findall_from (InFrac tok) (F ++ s) = findall_from (InFrac (rev F ++ tok)) s.
Proof.
  revert tok. induction F as [|d F IH]; simpl; intros tok H; [reflexivity|].
  apply andb_true_iff in H as [Hd H]. rewrite Hd, (IH _ H).
  now rewrite <- app_assoc.
Qed.

Lemma findall_frac_end (post tok : str) :
  digit_free post -> findall_from (InFrac tok) post = [rev tok].
Proof.
  intros H. destruct post as [|c post]; simpl; [reflexivity|].
  rewrite (digit_free_head _ H), findall_nothing; [reflexivity|].
  now apply digit_free_tail in H.
Qed.

Lemma findall_int_end (post tok : str) :
  digit_free post ->
  findall_from (InInt tok) post = [rev tok] \/
  findall_from (InInt tok) post = [rev tok ++ ["."%char]].
Proof.
  intros H. destruct post as [|c post]; simpl; [now left|].
  rewrite (digit_free_head _ H). apply digit_free_tail in H.
  destruct (Ascii.eqb c ".") eqn:E.
  - apply Ascii.eqb_eq in E. subst c. right. now rewrite findall_frac_end.
  - left. now rewrite findall_nothing.
Qed.

Lemma py_float_digits (D : str) :
  forallb isdigit D = true -> (1 <= length D <= 308)%nat ->
  py_float D = Returns (decimal D []).
Proof.
  intros H L. unfold py_float.
  pose proof (span_digits D [] H I) as E. rewrite app_nil_r in E.
  rewrite E, (float_of_decimal_below _ (decimal_below D [] H eq_refl (proj2 L))).
  destruct D; [simpl in L; lia | reflexivity].
Qed.

Lemma match_seconds_digit_free (s : str) :
  digit_free s -> match_seconds s = false.
Proof.
  intros H. unfold match_seconds.
  destruct s as [|c s]; simpl; [reflexivity|].
  now rewrite (digit_free_head _ H).
Qed.

(** A text that begins with a character that is no digit does not match the
    strict pattern. *)
Lemma match_strict_no_leading_digit (c : ascii) (s : str) :
  isdigit c = false -> match_strict (c :: s) = None.
Proof.
  intros H. unfold match_strict, match_seconds. simpl. now rewrite H.
Qed.

(** The scan finds the one number, with or without a point after it. *)
Lemma findall_one_integer (pre D post : str) :
  digit_free pre -> digit_free post ->
  forallb isdigit D = true -> D <> [] ->
  findall_numbers (pre ++ D ++ post) = [D] \/
  findall_numbers (pre ++ D ++ post) = [D ++ ["."%char]].
Proof.
  intros Hpre Hpost HD ND. unfold findall_numbers.
  rewrite (findall_skip pre _ Hpre).
  destruct D as [|d D]; [contradiction|]. simpl in HD.
  apply andb_true_iff in HD as [Hd HD]. simpl. rewrite Hd.
  rewrite (findall_int_digits D post [d] HD).
  destruct (findall_int_end post (rev D ++ [d]) Hpost) as [E|E];
    rewrite E, rev_app_distr, rev_involutive; simpl; auto.
Qed.

Lemma findall_one_decimal (pre D F post : str) :
  digit_free pre -> digit_free post ->
  forallb isdigit D = true -> D <> [] -> forallb isdigit F = true ->
  findall_numbers (pre ++ D ++ "."%char :: F ++ post)
  = [D ++ "."%char :: F].
Proof.
  intros Hpre Hpost HD ND HF. unfold findall_numbers.
  rewrite (findall_skip pre _ Hpre).
  destruct D as [|d D]; [contradiction|]. simpl in HD.
  apply andb_true_iff in HD as [Hd HD]. simpl. rewrite Hd.
  rewrite (findall_int_digits D _ [d] HD). simpl.
  rewrite (findall_frac_digits F post _ HF).
  rewrite (findall_frac_end post _ Hpost).
  rewrite rev_app_distr, rev_involutive. simpl.
  rewrite rev_app_distr, rev_involutive. simpl.
  now rewrite <- app_assoc.
Qed.

(** When the strict pattern matches such a text, it matches without a
    minutes group and the text is the number alone. *)
Lemma match_strict_one_integer (pre D post : str) :
  digit_free pre -> digit_free post ->
  forallb isdigit D = true -> D <> [] ->
  match_strict (pre ++ D ++ post) = None \/
  (match_strict (pre ++ D ++ post) = Some (None, D) /\
   pre ++ D ++ post = D).
Proof.
  intros Hpre Hpost HD ND.
  destruct pre as [|c pre].
  2:{ left. apply match_strict_no_leading_digit.
      apply (digit_free_head _ Hpre). }
  simpl. unfold match_strict.
  rewrite (span_digits D post HD (digit_free_head _ Hpost)).
  destruct D as [|d D]; [contradiction|].
  destruct post as [|c post].
  - destruct (match_seconds ((d :: D) ++ [])) eqn:E; [|now left].
    right. rewrite app_nil_r. split; reflexivity.
  - rewrite (match_seconds_digit_free post (digit_free_tail _ _ Hpost)).
    rewrite andb_false_r.
    unfold match_seconds.
    rewrite (span_digits (d :: D) (c :: post) HD (digit_free_head _ Hpost)).
    assert (Z : forallb isdigit post = true -> post = []).
    { intros H. apply digits_and_digit_free; [exact H|].
      now apply digit_free_tail in Hpost. }
    destruct (forallb isdigit post) eqn:FP.
    + rewrite (Z eq_refl). simpl. rewrite !andb_false_r. now left.
    + rewrite !andb_false_r. now left.
Qed.

Lemma match_strict_one_decimal (pre D F post : str) :
  digit_free pre -> digit_free post ->
  forallb isdigit D = true -> D <> [] -> forallb isdigit F = true ->
  match_strict (pre ++ D ++ "."%char :: F ++ post) = None \/
  (match_strict (pre ++ D ++ "."%char :: F ++ post)
   = Some (None, D ++ "."%char :: F) /\
   pre ++ D ++ "."%char :: F ++ post = D ++ "."%char :: F).
Proof.
  intros Hpre Hpost HD ND HF.
  destruct pre as [|c pre].
  2:{ left. apply match_strict_no_leading_digit.
      apply (digit_free_head _ Hpre). }
  simpl. unfold match_strict.
  rewrite (span_digits D ("."%char :: F ++ post) HD eq_refl).
  destruct D as [|d D]; [contradiction|].
  change (Ascii.eqb "." ":") with false. simpl andb. cbv iota.
  unfold match_seconds.
  rewrite (span_digits (d :: D) ("."%char :: F ++ post) HD eq_refl).
  destruct (forallb isdigit (F ++ post)) eqn:FP.
  - rewrite forallb_app in FP. apply andb_true_iff in FP as [_ FP].
    rewrite (digits_and_digit_free post FP Hpost), app_nil_r.
    destruct (_ && _); [right; split; reflexivity | now left].
  - rewrite !andb_false_r. now left.
Qed.

(** Without a minutes group the strict pattern gives the seconds as they
    are. *)
Lemma no_minutes_value (D F : str) :
  bind (float_of_int 0)
       (fun m =>
          if float_overflow_bound <=? nearest_double 0 * 60
          then ReturnsInf
          else Returns (Some (fadd (fmul m (60 # 1)%Q) (decimal D F))))
  = Returns (Some (decimal D F)).
Proof.
  rewrite (float_of_int_in_range 0) by (split; [lia | reflexivity]).
  change (float_overflow_bound <=? nearest_double 0 * 60) with false.
  simpl bind. do 2 f_equal. unfold fadd, fmul, decimal.
  apply Qred_complete. rewrite !Qred_correct. ring.
Qed.

End SingleNumberFacts.

(** A text that holds one number, in digits with or without a fraction, and
    no digit elsewhere is parsed to that number: whitespace, units, labels
    and a sign around the number are ignored (so "-5.5" gives 5.5).  The
    number has at most 308 digits before the point, which keeps it within
    the float range; the fraction may have any length. *)
Theorem parse_time_single_number (pre post D F : str) :
  digit_free pre -> digit_free post ->
  forallb isdigit D = true -> (1 <= length D <= 308)%nat ->
  forallb isdigit F = true ->
  parse_time_to_seconds (Some (pre ++ D ++ post))
  = Returns (Some (decimal D [])) /\
  parse_time_to_seconds (Some (pre ++ D ++ "."%char :: F ++ post))
  = Returns (Some (decimal D F)).
Proof.
  intros Hpre Hpost HD LD HF.
  assert (ND : D <> []) by (destruct D; simpl in LD; [lia | discriminate]).
  assert (SD : forallb (fun c => negb (isspace c)) D = true)
    by now apply no_space_digits.
  assert (Hpre' := lstrip_digit_free pre Hpre).
  assert (Hpost' := rstrip_digit_free post Hpost).
  split; unfold parse_time_to_seconds.
  - rewrite (strip_around pre D post ND SD).
    destruct (match_strict_one_integer (lstrip pre) D (rstrip post)
                Hpre' Hpost' HD ND) as [->|[-> _]].
    + destruct (findall_one_integer (lstrip pre) D (rstrip post)
                  Hpre' Hpost' HD ND) as [->| ->].
      * now rewrite (py_float_digits D HD LD).
      * now rewrite (py_float_with_fraction D [] HD LD eq_refl).
    + rewrite (py_float_digits D HD LD). apply no_minutes_value.
  - replace (pre ++ D ++ "."%char :: F ++ post)
      with (pre ++ (D ++ "."%char :: F) ++ post)
      by (now rewrite <- app_assoc).
    rewrite strip_around.
    2:{ destruct D; [contradiction | discriminate]. }
    2:{ rewrite forallb_app, SD. simpl. now apply no_space_digits. }
    rewrite <- app_assoc. simpl.
    destruct (match_strict_one_decimal (lstrip pre) D F (rstrip post)
                Hpre' Hpost' HD ND HF) as [->|[-> _]].
    + rewrite (findall_one_decimal (lstrip pre) D F (rstrip post)
                 Hpre' Hpost' HD ND HF).
      now rewrite (py_float_with_fraction D F HD LD HF).
    + rewrite (py_float_with_fraction D F HD LD HF). apply no_minutes_value.
Qed.

Lemma parse_time_single_number_witness :
  digit_free (lit " lap -") /\ digit_free (lit " s ") /\
  forallb isdigit (lit "105") = true /\
  (1 <= length (lit "105") <= 308)%nat /\
  forallb isdigit (lit "25") = true /\
  parse_time_to_seconds (Some (lit " lap -105 s "))
  = Returns (Some (decimal (lit "105") [])) /\
  parse_time_to_seconds (Some (lit " lap -105.25 s "))
  = Returns (Some (decimal (lit "105") (lit "25"))).
Proof.
  repeat (split; [first [reflexivity | simpl; lia]|]).
  apply (parse_time_single_number (lit " lap -") (lit " s ")
           (lit "105") (lit "25")); first [reflexivity | simpl; lia].
Defined.

(* ---------------------------------------------------------------------- *)
(** ** A remainder that rounds up to sixty                                 *)
(* ---------------------------------------------------------------------- *)

Section RoundingFacts.


End RoundingFacts.




(* ---------------------------------------------------------------------- *)
(** ** The traces                                                          *)
(* ---------------------------------------------------------------------- *)

Section TraceFacts.

Variable order : list str.

Lemma legend_colours (g : str * str) :
  In g legend_order ->
  exists c, lookup (snd g) drivetrain_colors_simple = Some c.
Proof.
  unfold legend_order. simpl.
  intros H. repeat (destruct H as [<-|H]; [eexists; reflexivity|]).
  destruct H.
Qed.

(** The traces of the rows of one group: two for each row, all under the
    name of the group, the first one alone in the legend. *)
Lemma row_traces_spec (g : str * str) (c : str) (rows : data_frame)
    (is_first : bool) :
  lookup (snd g) drivetrain_colors_simple = Some c ->
  exists ts,
    row_traces order (fst g) (snd g) is_first rows = Some ts /\
    length ts = (2 * length rows)%nat /\
    map legendgroup (filter showlegend ts)
    = (if is_first && negb (is_nil rows)
       then [legend_name (fst g) (snd g)] else []) /\
    forall t, In t ts -> exists r, In r rows /\ shows_row order g r t.
Proof.
  intros L. revert is_first.
  induction rows as [|r rows IH]; intros is_first; cbn [row_traces].
  - exists []. cbn [is_nil negb]. rewrite andb_false_r. repeat split.
    intros t [].
  - rewrite L. destruct (IH false) as [ts [E [Len [Leg Sh]]]]. rewrite E.
    eexists. split; [reflexivity|]. split; [simpl; lia|]. split.
    + cbn [andb] in Leg. cbn [is_nil negb]. rewrite andb_true_r.
      cbn [filter showlegend marker_trace text_trace].
      destruct is_first; cbn [map legendgroup]; now rewrite Leg.
    + intros t [<-|[<-|Ht]].
      * exists r. split; [now left|]. repeat split. now left.
      * exists r. split; [now left|]. repeat split. now right.
      * destruct (Sh t Ht) as [r' [Hr' S]]. exists r'. split; [now right|exact S].
Qed.

Lemma list_sum_cons (a : nat) (l : list nat) :
  list_sum (a :: l) = (a + list_sum l)%nat.
Proof. reflexivity. Qed.

(** The traces of several groups: the groups follow one another, a group
    without rows leaves nothing. *)
Lemma group_traces_spec (df_sorted : data_frame) (groups : list (str * str)) :
  (forall g, In g groups -> In g legend_order) ->
  exists ts,
    group_traces order df_sorted groups = Some ts /\
    length ts
    = (2 * list_sum (map (fun g => length (filter (in_group g) df_sorted))
                         groups))%nat /\
    map legendgroup (filter showlegend ts)
    = map (fun g => legend_name (fst g) (snd g))
          (filter (fun g => negb (is_nil (filter (in_group g) df_sorted)))
                  groups) /\
    forall t, In t ts ->
      exists g r, In g groups /\ In r df_sorted /\ in_group g r = true /\
                  shows_row order g r t.
Proof.
  induction groups as [|[et dt] groups IH]; intros Sub.
  - exists []. repeat split. intros t [].
  - destruct IH as [ts' [E' [Len' [Leg' Sh']]]].
    { intros g Hg. apply Sub. now right. }
    destruct (legend_colours (et, dt) (Sub _ (or_introl eq_refl))) as [c L].
    destruct (row_traces_spec (et, dt) c (filter (in_group (et, dt)) df_sorted)
                true L) as [ts [E [Len [Leg Sh]]]].
    cbn [fst snd] in E.
    cbn [group_traces]. unfold df_subset. fold (in_group (et, dt)).
    change (fun r => str_eqb (EngineType r) et && str_eqb (Drivetrain r) dt)
      with (in_group (et, dt)).
    rewrite E', E.
    destruct (filter (in_group (et, dt)) df_sorted) as [|r0 sub] eqn:F.
    + cbn [length Nat.eqb]. exists ts'. split; [reflexivity|].
      split; [cbn [map]; rewrite list_sum_cons, F; cbn [length]; lia|].
      split; [cbn [filter]; rewrite F; exact Leg'|].
      intros t Ht. destruct (Sh' t Ht) as [g [r [Hg H]]].
      exists g, r. split; [now right | exact H].
    + cbn [length Nat.eqb]. exists (ts ++ ts'). split; [reflexivity|].
      split; [|split].
      * rewrite length_app, Len, Len'. cbn [map]. rewrite list_sum_cons, F.
        cbn [length]. lia.
      * rewrite filter_app, map_app, Leg, Leg'. cbn [filter]. rewrite F.
        reflexivity.
      * intros t Ht. apply in_app_or in Ht as [Ht|Ht].
        -- destruct (Sh t Ht) as [r [Hr S]]. exists (et, dt), r.
           rewrite <- F in Hr. apply filter_In in Hr as [Hr1 Hr2].
           split; [now left|]. split; [exact Hr1|].
           split; [exact Hr2 | exact S].
        -- destruct (Sh' t Ht) as [g [r [Hg H]]].
           exists g, r. split; [now right | exact H].
Qed.

(** Each row of a group gets its two traces, and the group has no others. *)
Lemma row_traces_drawn (g : str * str) (c : str) (rows : data_frame)
    (is_first : bool) :
  lookup (snd g) drivetrain_colors_simple = Some c ->
  exists ts,
    row_traces order (fst g) (snd g) is_first rows = Some ts /\
    (forall t, In t ts -> exists r, In r rows /\ drawn_as order g c r t) /\
    (forall r, In r rows ->
       (exists f, In (marker_trace order (fst g) (snd g) c f r) ts) /\
       In (text_trace order (fst g) (snd g) r) ts).
Proof.
  intros L. revert is_first.
  induction rows as [|r rows IH]; intros is_first; cbn [row_traces].
  - exists []. split; [reflexivity|]. split; [intros t [] | intros r []].
  - rewrite L. destruct (IH false) as [ts [E [Snd Cmp]]]. rewrite E.
    eexists. split; [reflexivity|]. split.
    + intros t [<-|[<-|Ht]].
      * exists r. split; [now left|]. left. now exists is_first.
      * exists r. split; [now left|]. now right.
      * destruct (Snd t Ht) as [r' [Hr' D]]. exists r'.
        split; [now right | exact D].
    + intros r' [<-|Hr'].
      * split; [exists is_first; now left | right; now left].
      * destruct (Cmp r' Hr') as [[f Hf] Ht].
        split; [exists f; right; now right | right; now right].
Qed.

Lemma group_traces_drawn (df_sorted : data_frame)
    (groups : list (str * str)) :
  (forall g, In g groups -> In g legend_order) ->
  exists ts,
    group_traces order df_sorted groups = Some ts /\
    (forall t, In t ts ->
       exists g c r,
         In g groups /\ lookup (snd g) drivetrain_colors_simple = Some c /\
         In r df_sorted /\ in_group g r = true /\ drawn_as order g c r t) /\
    (forall g r, In g groups -> In r df_sorted -> in_group g r = true ->
       exists c,
         lookup (snd g) drivetrain_colors_simple = Some c /\
         (exists f, In (marker_trace order (fst g) (snd g) c f r) ts) /\
         In (text_trace order (fst g) (snd g) r) ts).
Proof.
  induction groups as [|[et dt] groups IH]; intros Sub.
  - exists []. split; [reflexivity|].
    split; [intros t [] | intros g r []].
  - destruct IH as [ts' [E' [Snd' Cmp']]].
    { intros g Hg. apply Sub. now right. }
    destruct (legend_colours (et, dt) (Sub _ (or_introl eq_refl))) as [c L].
    destruct (row_traces_drawn (et, dt) c
                (filter (in_group (et, dt)) df_sorted) true L)
      as [ts [E [Snd Cmp]]].
    cbn [fst snd] in E.
    cbn [group_traces]. unfold df_subset.
    change (fun r => str_eqb (EngineType r) et && str_eqb (Drivetrain r) dt)
      with (in_group (et, dt)).
    rewrite E', E.
    assert (X : (if (length (filter (in_group (et, dt)) df_sorted) =? 0)%nat
                 then Some [] else Some ts) = Some ts).
    { destruct (filter (in_group (et, dt)) df_sorted) eqn:F;
        [|reflexivity].
      cbn [row_traces] in E. now rewrite E. }
    rewrite X. exists (ts ++ ts'). split; [reflexivity|]. split.
    + intros t Ht. apply in_app_or in Ht as [Ht|Ht].
      * destruct (Snd t Ht) as [r [Hr D]].
        apply filter_In in Hr as [Hr1 Hr2].
        exists (et, dt), c, r. split; [now left|]. auto.
      * destruct (Snd' t Ht) as [g [c' [r [Hg H]]]].
        exists g, c', r. split; [now right | exact H].
    + intros g r [<-|Hg] Hr G.
      * exists c. split; [exact L|].
        destruct (Cmp r) as [[f Hf] Ht]; [apply filter_In; now split|].
        split; [exists f|]; apply in_or_app; now left.
      * destruct (Cmp' g r Hg Hr G) as [c' [L' [[f Hf] Ht]]].
        exists c'. split; [exact L'|].
        split; [exists f|]; apply in_or_app; now right.
Qed.

End TraceFacts.

Section CountFacts.

Lemma in_group_eq (g : str * str) (r : row) :
  in_group g r = true <-> g = (EngineType r, Drivetrain r).
Proof.
  unfold in_group. rewrite andb_true_iff, !str_eqb_eq.
  destruct g as [et dt]. simpl. split.
  - intros [-> ->]. reflexivity.
  - intros E. injection E as -> ->. auto.
Qed.

(** Rows are counted once: the sizes of the groups add up to the number of
    rows that belong to some group. *)
Lemma group_sizes (groups : list (str * str)) (l : data_frame) :
  NoDup groups ->
  list_sum (map (fun g => length (filter (in_group g) l)) groups)
  = length (filter (fun r => existsb (fun g => in_group g r) groups) l).
Proof.
  intros N. induction l as [|r l IH].
  - simpl. induction groups as [|g groups IHg]; [reflexivity|].
    simpl. apply IHg. now inversion N.
  - assert (S : forall gs, NoDup gs ->
      list_sum (map (fun g => length (filter (in_group g) (r :: l))) gs)
      = ((if existsb (fun g => in_group g r) gs then 1 else 0)
         + list_sum (map (fun g => length (filter (in_group g) l)) gs))%nat).
    { induction gs as [|g gs IHg]; intros Ng; [reflexivity|].
      inversion Ng as [|? ? Ng1 Ng2]; subst.
      cbn [map existsb]. rewrite !list_sum_cons, (IHg Ng2). cbn [filter].
      destruct (in_group g r) eqn:G.
      - assert (X : existsb (fun g0 => in_group g0 r) gs = false).
        { apply not_true_is_false. intros X.
          apply existsb_exists in X as [g' [Hg' G']].
          apply in_group_eq in G. apply in_group_eq in G'. congruence. }
        rewrite X. simpl. lia.
      - simpl. lia. }
    rewrite (S groups N), IH. cbn [filter].
    destruct (existsb (fun g => in_group g r) groups); reflexivity.
Qed.

Lemma legend_order_NoDup : NoDup legend_order.
Proof.
  unfold legend_order.
  repeat (constructor;
          [simpl; intros H;
           repeat (destruct H as [H|H]; [discriminate H|]); destruct H|]).
  constructor.
Qed.

Lemma insert_row_perm (order : list str) (r : row) (l : data_frame) :
  Permutation (insert_row order r l) (r :: l).
Proof.
  induction l as [|y l IH]; simpl; [reflexivity|].
  destruct (row_le order r y); [reflexivity|].
  rewrite IH. apply perm_swap.
Qed.

Lemma sort_rows_perm (order : list str) (df : data_frame) :
  Permutation (sort_rows order df) df.
Proof.
  induction df as [|r df IH]; simpl; [reflexivity|].
  rewrite insert_row_perm. now constructor.
Qed.

Lemma filter_perm (p : row -> bool) (l l' : data_frame) :
  Permutation l l' -> Permutation (filter p l) (filter p l').
Proof.
  induction 1 as [|x l l' P IH|x y l|l l' l'' P1 IH1 P2 IH2]; simpl.
  - reflexivity.
  - destruct (p x); [now constructor | exact IH].
  - destruct (p x), (p y); try reflexivity. apply perm_swap.
  - now rewrite IH1.
Qed.

End CountFacts.

Section FigureFacts.

Lemma order_of_layout (df : data_frame) :
  df <> [] -> brand_order_simple (derive_layout df) = brand_order df.
Proof.
  intros NE. unfold derive_layout. destruct df; [contradiction | reflexivity].
Qed.



(** The traces of the figure of a frame that is not empty. *)
Lemma build_figure_traces (df : data_frame) :
  df <> [] ->
  exists ts,
    group_traces (brand_order df) (sort_rows (brand_order df) df) legend_order
    = Some ts /\
    build_figure df
    = Some {| vlines := seq 0 (length (brand_order df));
              traces := ts;
              yaxis := y_axis df;
              xaxis :=
                Some {| x_tickvals := seq 0 (length (brand_order df));
                        x_ticktext := brand_order df;
                        x_range :=
                          ((- (1 # 2))%Q,
                           fadd (fadd (inject_Z
                                         (Z.of_nat (length (brand_order df))
                                          - 1))
                                      (max_brand_width (derive_layout df)))
                                (1 # 2)%Q) |};
              width := responsive_width (derive_layout df) |}.
Proof.
  intros NE.
  destruct (group_traces_spec (brand_order df)
              (sort_rows (brand_order df) df) legend_order) as [ts [E _]];
    [auto|].
  exists ts. split; [exact E|].
  unfold build_figure. rewrite (order_of_layout df NE), E.
  destruct df; [contradiction | reflexivity].
Qed.

Lemma max_brand_width_nonneg (df : data_frame) :
  (0 <= max_brand_width (derive_layout df))%Q.
Proof.
  unfold derive_layout. destruct (0 <? length df)%nat; simpl.
  - destruct (is_nil _); [apply Qle_refl|].
    rewrite fmul_eq. apply Qmult_le_0_compat; [|discriminate].
    change 0%Q with (inject_Z 0). rewrite <- Zle_Qle. lia.
  - apply Qle_refl.
Qed.

End FigureFacts.

Section DrawnFacts.

Lemma in_legend_six (r : row) : in_legend r = in_six_groups r.
Proof.
  unfold in_legend, in_six_groups, in_group, legend_order, NA, FI, RWD, AWD,
    FWD.
  cbn [existsb fst snd].
  destruct (str_eqb (EngineType r) (lit "NA")),
    (str_eqb (EngineType r) (lit "FI")),
    (str_eqb (Drivetrain r) (lit "RWD")),
    (str_eqb (Drivetrain r) (lit "AWD")),
    (str_eqb (Drivetrain r) (lit "FWD")); reflexivity.
Qed.

(** The dot that the loop adds for a row is the dot the chart is to show. *)
Lemma marker_trace_spec (df : data_frame) (g : str * str) (c : str)
    (f : bool) (r : row) :
  In g legend_order ->
  lookup (snd g) drivetrain_colors_simple = Some c ->
  In r df -> in_group g r = true ->
  marker_of (brand_order df) r
            (marker_trace (brand_order df) (fst g) (snd g) c f r).
Proof.
  intros Hg L Hr G. apply in_group_eq in G. subst g. cbn [fst snd] in *.
  destruct (slot_of_row df r Hr) as [i [Hi Ni]].
  unfold marker_of, marker_trace.
  cbn [mode trace_x trace_y text name legendgroup marker_color
       marker_line_width marker_line_color].
  split; [reflexivity|].
  split; [exists i; split; [exact Ni | unfold x_pos; now rewrite Hi]|].
  do 4 (split; [reflexivity|]).
  exists c.
  unfold legend_order, NA, FI, RWD, AWD, FWD in Hg. simpl in Hg.
  destruct Hg as [E|[E|[E|[E|[E|[E|[]]]]]]];
    injection E as E1 E2; rewrite <- E1, <- E2 in *;
    vm_compute in L; injection L as <-;
    (split; [unfold colour_of; auto 6|]);
    (split; intros X; [first [discriminate X | repeat split]
                      | first [discriminate X | repeat split]]).
Qed.

(** The label that the loop adds for a row is the label the chart is to
    show. *)
Lemma text_trace_spec (df : data_frame) (g : str * str) (r : row) :
  In r df -> in_group g r = true ->
  label_of (brand_order df) r
           (text_trace (brand_order df) (fst g) (snd g) r).
Proof.
  intros Hr G. apply in_group_eq in G. subst g. cbn [fst snd].
  destruct (slot_of_row df r Hr) as [i [Hi Ni]].
  unfold label_of, text_trace.
  cbn [mode trace_x trace_y text name legendgroup showlegend].
  split; [reflexivity|]. split; [|repeat split].
  exists i, (fadd (inject_Z (Z.of_nat i)) (1 # 10)%Q).
  split; [exact Ni|]. split; [|apply fadd_eq].
  unfold x_pos. now rewrite Hi.
Qed.

Lemma six_groups_of_legend (g : str * str) (r : row) :
  In g legend_order -> in_group g r = true -> in_six_groups r = true.
Proof.
  intros Hg G. rewrite <- in_legend_six. apply existsb_exists.
  now exists g.
Qed.

End DrawnFacts.

(** Building the figure never fails, and the figure draws the rows of the
    six kinds and no others.  Every row whose engine type is NA or FI and
    whose drivetrain is RWD, AWD or FWD has its dot and its label among the
    traces: the dot in marker mode at the slot of its brand and at its time,
    named "drivetrain engine", filled for NA and hollow for FI in the colour
    of the drivetrain; the label in text mode a tenth of a slot to the right,
    reading "model chassis".  There are two traces for each such row, every
    trace is the dot or the label of such a row, and a row of any other kind
    has no trace. *)
Theorem figure_draws_the_legend_rows (df : data_frame) :
  exists fig,
    build_figure df = Some fig /\
    length (traces fig) = (2 * length (filter in_six_groups df))%nat /\
    (forall r, In r df -> in_six_groups r = true ->
       exists m l,
         In m (traces fig) /\ In l (traces fig) /\
         marker_of (brand_order df) r m /\ label_of (brand_order df) r l) /\
    (forall t, In t (traces fig) ->
       exists r, In r df /\ in_six_groups r = true /\
                 (marker_of (brand_order df) r t \/
                  label_of (brand_order df) r t)).
Proof.
  destruct df as [|r0 df0] eqn:Edf.
  { eexists. split; [reflexivity|]. split; [reflexivity|].
    split; [intros r [] | intros t []]. }
  rewrite <- Edf. assert (NE : df <> []) by (rewrite Edf; discriminate).
  clear Edf.
  pose proof (sort_rows_perm (brand_order df) df) as Pm.
  destruct (group_traces_spec (brand_order df)
              (sort_rows (brand_order df) df) legend_order)
    as [ts [E [Len _]]]; [auto|].
  destruct (group_traces_drawn (brand_order df)
              (sort_rows (brand_order df) df) legend_order)
    as [ts1 [E1 [Snd Cmp]]]; [auto|].
  rewrite E in E1. injection E1 as <-.
  destruct (build_figure_traces df NE) as [ts' [E' B]].
  rewrite E in E'. injection E' as <-.
  eexists. split; [exact B|]. cbn [traces]. split; [|split].
  - rewrite Len, (group_sizes legend_order _ legend_order_NoDup).
    f_equal. rewrite (Permutation_length (filter_perm _ _ _ Pm)).
    f_equal. apply filter_ext. intros r. apply in_legend_six.
  - intros r Hr Six. rewrite <- in_legend_six in Six.
    apply existsb_exists in Six as [g [Hg G]].
    destruct (Cmp g r Hg) as [c [L [[f Hm] Hl]]];
      [now apply (Permutation_in _ (Permutation_sym Pm)) | exact G |].
    eexists. eexists. split; [exact Hm|]. split; [exact Hl|].
    split; [now apply marker_trace_spec | now apply text_trace_spec].
  - intros t Ht. destruct (Snd t Ht) as [g [c [r [Hg [L [Hr [G D]]]]]]].
    apply (Permutation_in _ Pm) in Hr.
    exists r. split; [exact Hr|].
    split; [now apply (six_groups_of_legend g)|].
    destruct D as [[f ->]| ->].
    + left. now apply marker_trace_spec.
    + right. now apply text_trace_spec.
Qed.


(** Every trace lies inside the range of the x axis, which has one tick and
    one separator line for each brand slot, labelled with the brands in
    their order. *)
Theorem traces_lie_inside_the_x_range (df : data_frame) :
  df <> [] ->
  exists fig ax,
    build_figure df = Some fig /\ xaxis fig = Some ax /\
    vlines fig = seq 0 (length (brand_order df)) /\
    x_tickvals ax = seq 0 (length (brand_order df)) /\
    x_ticktext ax = brand_order df /\
    forall t, In t (traces fig) ->
      exists x, trace_x t = Some x /\
                (fst (x_range ax) < x)%Q /\ (x < snd (x_range ax))%Q.
Proof.
  intros NE.
  destruct (group_traces_spec (brand_order df)
              (sort_rows (brand_order df) df) legend_order)
    as [ts [E [_ [_ Sh]]]]; [auto|].
  destruct (build_figure_traces df NE) as [ts' [E' B]].
  rewrite E in E'. injection E' as <-.
  eexists. eexists. split; [exact B|]. cbn [xaxis vlines traces].
  split; [reflexivity|]. cbn [x_tickvals x_ticktext x_range fst snd].
  repeat (split; [reflexivity|]).
  intros t Ht. destruct (Sh t Ht) as [g [r [_ [Hr [_ [_ [_ X]]]]]]].
  apply (Permutation_in _ (sort_rows_perm (brand_order df) df)) in Hr.
  destruct (slot_of_row df r Hr) as [i [Hi Ni]].
  assert (Li : (i < length (brand_order df))%nat)
    by (apply nth_error_Some; congruence).
  pose proof (max_brand_width_nonneg df) as W.
  assert (I0 : (0 <= inject_Z (Z.of_nat i))%Q).
  { change 0%Q with (inject_Z 0). rewrite <- Zle_Qle. lia. }
  assert (I1 : (inject_Z (Z.of_nat i)
                <= inject_Z (Z.of_nat (length (brand_order df)) - 1))%Q).
  { rewrite <- Zle_Qle. lia. }
  unfold x_pos in X. rewrite Hi in X. cbn [option_map] in X.
  destruct X as [X|X]; rewrite X; eexists; (split; [reflexivity|]);
    rewrite ?fadd_eq; split; lra.
Qed.

Lemma traces_lie_inside_the_x_range_witness :
  garage <> [] /\
  exists fig ax,
    build_figure garage = Some fig /\ xaxis fig = Some ax /\
    vlines fig = seq 0 (length (brand_order garage)) /\
    x_tickvals ax = seq 0 (length (brand_order garage)) /\
    x_ticktext ax = brand_order garage /\
    forall t, In t (traces fig) ->
      exists x, trace_x t = Some x /\
                (fst (x_range ax) < x)%Q /\ (x < snd (x_range ax))%Q.
Proof.
  split; [discriminate|].
  apply (traces_lie_inside_the_x_range garage). discriminate.
Defined.

(** When no row passes the filter, the callback still answers: a figure
    without separators, traces and axis ticks, 900 wide, and a summary of 0
    vehicles and 0 brands without a fastest row. *)
Theorem nothing_to_show (df_plot : data_frame)
    (brands drivetrains : value) (engine text : option str) :
  apply_filters df_plot brands drivetrains engine text = [] ->
  update_visualization df_plot brands drivetrains engine text
  = Some ({| vlines := []; traces := []; yaxis := None; xaxis := None;
             width := (900 # 1)%Q |},
          {| total_vehicles := 0; total_brands := 0;
             fastest_row := None |}).
Proof.
  intros H. unfold update_visualization. now rewrite H.
Qed.

Lemma nothing_to_show_witness :
  apply_filters garage (Many [lit "Lada"]) (One ALL) (Some ALL) None = [] /\
  update_visualization garage (Many [lit "Lada"]) (One ALL) (Some ALL) None
  = Some ({| vlines := []; traces := []; yaxis := None; xaxis := None;
             width := (900 # 1)%Q |},
          {| total_vehicles := 0; total_brands := 0;
             fastest_row := None |}).
Proof.
  assert (H : apply_filters garage (Many [lit "Lada"]) (One ALL) (Some ALL)
                None = []) by reflexivity.
  split; [exact H|].
  apply (nothing_to_show garage (Many [lit "Lada"]) (One ALL) (Some ALL)
           None H).
Defined.
